(** * Store layer of the gitness fork: optimistic locking, path lookup, enums

    A shallow embedding of
      - [types/enum/order.go]                 (module [Enum]),
      - [internal/store/database/pipeline.go] (module [PipelineStore]),
      - [internal/store/database/repo.go]     (module [RepoStore]),
      - the branch adapter of the git layer   (module [Adapter]),
      - the remaining methods of the two stores (modules [PipelineCrud]
        and [RepoCrud]),
    followed by the properties proved about them.

    Conventions.  Go's [int64] is [Z] with the wrap-around written out
    ([Int64.wrap]); a Go [string] is a sequence of bytes, here [string];
    a Go [error] is a value of [Errors.error], [nil] being [None]; a
    pointer to a struct is an index into a heap of structs. *)

From Stdlib Require Import ZArith String Ascii List Lia Bool.
From stdpp Require Import base list.

Open Scope string_scope.
Open Scope Z_scope.

(* ===================================================================== *)
(** * Part I: the embedding                                               *)
(* ===================================================================== *)

(** ** Go's 64-bit signed integers *)

Module Int64.

Definition min_int : Z := - 2 ^ 63.
Definition max_int : Z := 2 ^ 63 - 1.
Definition modulus : Z := 2 ^ 64.

(** Two's-complement reduction into [[min_int, max_int]]. *)
Definition wrap (z : Z) : Z := (z - min_int) mod modulus + min_int.

Definition add (a b : Z) : Z := wrap (a + b).

(** [x++] on an [int64] variable. *)
Definition incr (a : Z) : Z := add a 1.

End Int64.

(** ** The fragments of Go's [strings] package that the code calls *)

Module GoStrings.

Definition byte_val (c : ascii) : nat := nat_of_ascii c.

(** [c < utf8.RuneSelf] *)
Definition is_ascii_byte (c : ascii) : bool := (byte_val c <? 128)%nat.

Definition is_upper_byte (c : ascii) : bool :=
  ((65 <=? byte_val c) && (byte_val c <=? 90))%nat.

(** [c += 'a' - 'A'] for an upper-case ASCII letter. *)
Definition lower_byte (c : ascii) : ascii :=
  if is_upper_byte c then ascii_of_nat (byte_val c + 32) else c.

Fixpoint all_bytes (f : ascii -> bool) (s : string) : bool :=
  match s with
  | EmptyString => true
  | String c s' => f c && all_bytes f s'
  end.

Fixpoint any_byte (f : ascii -> bool) (s : string) : bool :=
  match s with
  | EmptyString => false
  | String c s' => f c || any_byte f s'
  end.

Fixpoint map_bytes (f : ascii -> ascii) (s : string) : string :=
  match s with
  | EmptyString => EmptyString
  | String c s' => String (f c) (map_bytes f s')
  end.

Definition isASCII (s : string) : bool := all_bytes is_ascii_byte s.

(** The table [asciiSpace]: tab, line feed, vertical tab, form feed,
    carriage return and space. *)
Definition asciiSpace (c : ascii) : bool :=
  let n := byte_val c in
  ((n =? 9) || (n =? 10) || (n =? 11) || (n =? 12) || (n =? 13) || (n =? 32))%nat.

Fixpoint rev_string (acc s : string) : string :=
  match s with
  | EmptyString => acc
  | String c s' => rev_string (String c acc) s'
  end.

(** ASCII-only comparison up to letter case, byte by byte. *)
Fixpoint asciiEqualFold (s t : string) : bool :=
  match s, t with
  | EmptyString, EmptyString => true
  | String a s', String b t' =>
      Ascii.eqb (lower_byte a) (lower_byte b) && asciiEqualFold s' t'
  | _, _ => false
  end.

(** A byte that [TrimSpace] keeps on its fast paths: ASCII, no space. *)
Definition solid (c : ascii) : bool := is_ascii_byte c && negb (asciiSpace c).

Section Unicode.

(** The Unicode tables of Go's runtime are not part of this
    development.  The three slow paths that consult them are taken as
    parameters; every fast path (input made of ASCII bytes only) is
    written out. *)
Variable unicode_Map_ToLower : string -> string.
Variable unicode_TrimFunc_IsSpace : string -> string.
Variable unicode_TrimRightFunc_IsSpace : string -> string.

(** [strings.ToLower]: the ASCII fast path returns [s] itself when it
    has no upper-case letter and maps the letters otherwise. *)
Definition ToLower (s : string) : string :=
  if isASCII s then
    if negb (any_byte is_upper_byte s) then s
    else map_bytes lower_byte s
  else unicode_Map_ToLower s.

(** Second loop of [strings.TrimSpace], run on the reversed remainder
    [r] (its first byte is the last byte of [s[start:stop]]). *)
Fixpoint trim_stop (r : string) : string :=
  match r with
  | EmptyString => EmptyString
  | String c r' =>
      if negb (is_ascii_byte c) then
        unicode_TrimRightFunc_IsSpace (rev_string EmptyString r)
      else if asciiSpace c then trim_stop r'
      else rev_string EmptyString r
  end.

(** [strings.TrimSpace]: first loop over the leading bytes, then
    [trim_stop] over the trailing ones. *)
Fixpoint TrimSpace (s : string) : string :=
  match s with
  | EmptyString => EmptyString
  | String c s' =>
      if negb (is_ascii_byte c) then unicode_TrimFunc_IsSpace s
      else if asciiSpace c then TrimSpace s'
      else trim_stop (rev_string EmptyString s)
  end.

End Unicode.

End GoStrings.

(** ** [types/enum/order.go] *)

Module Enum.

(** [type Order int] *)
Definition Order : Type := Z.

(** The [iota] enumeration. *)
Definition OrderDefault : Order := 0.
Definition OrderAsc : Order := 1.
Definition OrderDesc : Order := 2.

(** [func (e Order) String() string] *)
Definition Order_String (e : Order) : string :=
  if e =? OrderDesc then "desc" else "asc".

Section WithUnicode.

Variable unicode_Map_ToLower : string -> string.

(** [func ParseOrder(s string) Order] *)
Definition ParseOrder (s : string) : Order :=
  let l := GoStrings.ToLower unicode_Map_ToLower s in
  if String.eqb l "asc" || String.eqb l "ascending" then OrderAsc
  else if String.eqb l "desc" || String.eqb l "descending" then OrderDesc
  else OrderDefault.

End WithUnicode.

End Enum.

(** ** Errors *)

Module Errors.

(** What [database/sql] and the driver report. *)
Inductive DriverError : Type :=
| ErrNoRows
| UniqueViolation
| DriverFailure (detail : string).

(** Go [error] values that reach the callers of the store.  The first
    six are the sentinels; [Foreign] is an error made outside the store
    (a callback, the path transformation, the database, git); [Wrapped]
    is [errors.Wrap], or [fmt.Errorf] with the verb for wrapping. *)
Inductive error : Type :=
| ErrVersionConflict
| ErrNoChangeInRequestedMove
| ErrResourceNotFound
| ErrDuplicate
| ErrRepositoryPathEmpty
| ErrInvalidPath
| Foreign (detail : string)
| Wrapped (msg : string) (cause : error).

Fixpoint error_eqb (a b : error) : bool :=
  match a, b with
  | ErrVersionConflict, ErrVersionConflict => true
  | ErrNoChangeInRequestedMove, ErrNoChangeInRequestedMove => true
  | ErrResourceNotFound, ErrResourceNotFound => true
  | ErrDuplicate, ErrDuplicate => true
  | ErrRepositoryPathEmpty, ErrRepositoryPathEmpty => true
  | ErrInvalidPath, ErrInvalidPath => true
  | Foreign x, Foreign y => String.eqb x y
  | Wrapped m c, Wrapped m' c' => String.eqb m m' && error_eqb c c'
  | _, _ => false
  end.

(** [errors.Is]: [err] or an error in its chain of causes is [target]. *)
Fixpoint errors_Is (err target : error) : bool :=
  error_eqb err target ||
  match err with
  | Wrapped _ cause => errors_Is cause target
  | _ => false
  end.

(** Modelled from the spec: [processSQLErrorf] (and its exported twin
    [database.ProcessSQLErrorf]) is not among the sources.  By the error
    taxonomy, a query that matches no row becomes [NotFound], a violated
    unique index becomes the duplicate error, and every other storage
    error is wrapped with context and propagated. *)
Definition processSQLErrorf (e : DriverError) (msg : string) : error :=
  match e with
  | ErrNoRows => ErrResourceNotFound
  | UniqueViolation => ErrDuplicate
  | DriverFailure detail => Wrapped msg (Foreign detail)
  end.

End Errors.

(** ** [internal/store/database/pipeline.go] *)

Module PipelineStore.
Import Errors.
Local Open Scope list_scope.

(** [types.Pipeline], one field per column of [pipelineColumns]. *)
Record Pipeline : Type := mkPipeline {
  ID : Z;
  Description : string;
  SpaceID : Z;
  UID : string;
  Seq : Z;
  RepoID : Z;
  RepoType : string;
  RepoName : string;
  DefaultBranch : string;
  ConfigPath : string;
  Created : Z;
  Updated : Z;
  Version : Z
}.

(** The zero value, [new(types.Pipeline)]. *)
Definition zero_Pipeline : Pipeline :=
  mkPipeline 0 "" 0 "" 0 0 "" "" "" "" 0 0 0.

Definition with_Seq (x : Z) (p : Pipeline) : Pipeline :=
  mkPipeline (ID p) (Description p) (SpaceID p) (UID p) x (RepoID p)
    (RepoType p) (RepoName p) (DefaultBranch p) (ConfigPath p)
    (Created p) (Updated p) (Version p).

Definition with_Updated (x : Z) (p : Pipeline) : Pipeline :=
  mkPipeline (ID p) (Description p) (SpaceID p) (UID p) (Seq p) (RepoID p)
    (RepoType p) (RepoName p) (DefaultBranch p) (ConfigPath p)
    (Created p) x (Version p).

Definition with_Version (x : Z) (p : Pipeline) : Pipeline :=
  mkPipeline (ID p) (Description p) (SpaceID p) (UID p) (Seq p) (RepoID p)
    (RepoType p) (RepoName p) (DefaultBranch p) (ConfigPath p)
    (Created p) (Updated p) x.

(** *** The world a store method runs in *)

(** What the environment decides for one call of a store method: the
    rows that transactions of other sessions left in the table since the
    previous call ([None]: nothing was committed in between), the reading
    of the clock, and whether binding, executing, or reading the result
    of the statement fails. *)
Record Env : Type := mkEnv {
  env_commits : option (list Pipeline);
  env_now : Z;
  env_bind : option DriverError;
  env_exec : option DriverError;
  env_result : option DriverError
}.

(** No interference, no failure, clock at [now]. *)
Definition quiet (now : Z) : Env := mkEnv None now None None None.

(** Statements sent to the database. *)
Inductive Stmt : Type :=
| StmtUpdate (args : Pipeline)   (* pipelineUpdateStmt, bound to a struct *)
| StmtSelectByID (id : Z).        (* findQueryStmt *)

(** [heap]: the structs behind [*types.Pipeline] pointers (a pointer is
    an index, allocation appends).  [table]: the rows of [pipelines].
    [oracle]: the environment's decisions for the calls to come; when it
    runs out, the environment is [quiet 0].  [trace]: the statements
    sent so far, oldest first. *)
Record World : Type := mkWorld {
  heap : list Pipeline;
  table : list Pipeline;
  oracle : list Env;
  trace : list Stmt
}.

(** A pointer; [None] is [nil]. *)
Definition ptr : Type := option nat.

Inductive Outcome (A : Type) : Type :=
| Ret (a : A) (w : World)
| Panic                      (* nil or dangling pointer dereference *)
| OutOfFuel.                 (* the loop was cut off by the model *)
Arguments Ret {A} a w.
Arguments Panic {A}.
Arguments OutOfFuel {A}.

Definition M (A : Type) : Type := World -> Outcome A.

#[global] Instance M_ret : MRet M := fun A a w => Ret a w.
#[global] Instance M_bind : MBind M := fun A B f m w =>
  match m w with
  | Ret a w' => f a w'
  | Panic => Panic
  | OutOfFuel => OutOfFuel
  end.

Definition out_of_fuel {A} : M A := fun _ => OutOfFuel.

(** [*p] *)
Definition load (p : ptr) : M Pipeline := fun w =>
  match p with
  | Some l => match heap w !! l with Some v => Ret v w | None => Panic end
  | None => Panic
  end.

(** [*p = v] *)
Definition store (p : ptr) (v : Pipeline) : M unit := fun w =>
  match p with
  | Some l =>
      match heap w !! l with
      | Some _ => Ret tt (mkWorld (<[l := v]> (heap w)) (table w) (oracle w) (trace w))
      | None => Panic
      end
  | None => Panic
  end.

(** A fresh struct holding [v]; the result is its address. *)
Definition alloc (v : Pipeline) : M ptr := fun w =>
  Ret (Some (length (heap w)))
      (mkWorld (heap w ++ [v]) (table w) (oracle w) (trace w)).

(** The table as the call that starts now finds it. *)
Definition observed (e : Env) (t : list Pipeline) : list Pipeline :=
  match env_commits e with
  | Some t' => t'
  | None => t
  end.

(** The environment's decisions for the call that starts now; what the
    other sessions committed is in the table from here on. *)
Definition next_env : M Env := fun w =>
  match oracle w with
  | e :: rest => Ret e (mkWorld (heap w) (observed e (table w)) rest (trace w))
  | [] => Ret (quiet 0) w
  end.

(** *** The two SQL statements *)

(** [WHERE pipeline_id = :pipeline_id
     AND pipeline_version = :pipeline_version - 1].  The subtraction is
    the database's, not Go's. *)
Definition update_matches (args r : Pipeline) : bool :=
  (ID r =? ID args) && (Version r =? Version args - 1).

(** The [SET] clause: seven columns take the values of [args]. *)
Definition update_set (args r : Pipeline) : Pipeline :=
  mkPipeline (ID r) (Description args) (SpaceID r) (UID args) (Seq args)
    (RepoID r) (RepoType r) (RepoName r) (DefaultBranch args)
    (ConfigPath args) (Created r) (Updated args) (Version args).

Definition update_rows (args : Pipeline) (t : list Pipeline) : list Pipeline :=
  map (fun r => if update_matches args r then update_set args r else r) t.

Definition rows_affected (args : Pipeline) (t : list Pipeline) : Z :=
  Z.of_nat (length (List.filter (update_matches args) t)).

(** [db.ExecContext(ctx, query, arg...)] for [pipelineUpdateStmt]: the
    result carries the number of rows changed. *)
Definition ExecContext_update (e : Env) (args : Pipeline)
  : M (Z + DriverError) := fun w =>
  let tr := trace w ++ [StmtUpdate args] in
  match env_exec e with
  | Some err => Ret (inr err) (mkWorld (heap w) (table w) (oracle w) tr)
  | None =>
      Ret (inl (rows_affected args (table w)))
          (mkWorld (heap w) (update_rows args (table w)) (oracle w) tr)
  end.

(** [result.RowsAffected()] *)
Definition RowsAffected (e : Env) (count : Z) : Z + DriverError :=
  match env_result e with
  | Some err => inr err
  | None => inl count
  end.

(** [db.GetContext(ctx, dst, findQueryStmt, id)]: the first row of the
    result set, [sql.ErrNoRows] when it is empty. *)
Definition GetContext_find (e : Env) (id : Z)
  : M (Pipeline + DriverError) := fun w =>
  let w' := mkWorld (heap w) (table w) (oracle w) (trace w ++ [StmtSelectByID id]) in
  match env_exec e with
  | Some err => Ret (inr err) w'
  | None =>
      match List.find (fun r => ID r =? id) (table w) with
      | Some r => Ret (inl r) w'
      | None => Ret (inr ErrNoRows) w'
      end
  end.

(** *** The store methods *)

(** [func (s *pipelineStore) Find(ctx, id)] *)
Definition Find (id : Z) : M (ptr * option error) :=
  e ← next_env;
  dst ← alloc zero_Pipeline;
  r ← GetContext_find e id;
  match r with
  | inr err => mret (None, Some (processSQLErrorf err "Failed to find pipeline"))
  | inl row => _ ← store dst row; mret (dst, None)
  end.

(** [func (s *pipelineStore) Update(ctx, p *types.Pipeline) error] *)
Definition Update (p : ptr) : M (option error) :=
  e ← next_env;
  let updatedAt := env_now e in
  pipeline ← load p;
  let pipeline := with_Version (Int64.incr (Version pipeline)) pipeline in
  let pipeline := with_Updated updatedAt pipeline in
  match env_bind e with
  | Some err => mret (Some (processSQLErrorf err "Failed to bind pipeline object"))
  | None =>
      result ← ExecContext_update e pipeline;
      match result with
      | inr err => mret (Some (processSQLErrorf err "Failed to update pipeline"))
      | inl n =>
          match RowsAffected e n with
          | inr err =>
              mret (Some (processSQLErrorf err "Failed to get number of updated rows"))
          | inl count =>
              if count =? 0 then mret (Some ErrVersionConflict)
              else
                v ← load p;
                _ ← store p (with_Version (Version pipeline)
                               (with_Updated (Updated pipeline) v));
                mret None
          end
      end
  end.

(** A mutation callback [func(pipeline *types.Pipeline) error]: what it
    leaves in the struct it is given, and what it returns. *)
Definition MutateFn : Type := Pipeline -> Pipeline * option error.

(** [mutateFn(&dup)] *)
Definition call_mutate (mutateFn : MutateFn) (p : ptr) : M (option error) :=
  v ← load p;
  _ ← store p (fst (mutateFn v));
  mret (snd (mutateFn v)).

(** [func (s *pipelineStore) UpdateOptLock(ctx, pipeline, mutateFn)].
    The [for] loop has no bound; [fuel] bounds the iterations of the
    model. *)
Fixpoint UpdateOptLock (fuel : nat) (pipeline : ptr) (mutateFn : MutateFn)
  : M (ptr * option error) :=
  match fuel with
  | O => out_of_fuel
  | S fuel' =>
      v ← load pipeline;
      dup ← alloc v;
      err ← call_mutate mutateFn dup;
      match err with
      | Some e => mret (None, Some e)
      | None =>
          err ← Update dup;
          match err with
          | None => mret (dup, None)
          | Some e =>
              if negb (errors_Is e ErrVersionConflict) then mret (None, Some e)
              else
                cur ← load pipeline;
                '(pipeline', err) ← Find (ID cur);
                match err with
                | Some e' => mret (None, Some e')
                | None => UpdateOptLock fuel' pipeline' mutateFn
                end
          end
      end
  end.

Definition incrementMsg : string := "could not increment pipeline sequence number".

(** First half of the loop body of [IncrementSeqNum]:
    [pipeline.Seq++; err = s.Update(ctx, pipeline)]. *)
Definition increment_attempt (pipeline : ptr) : M (option error) :=
  v ← load pipeline;
  _ ← store pipeline (with_Seq (Int64.incr (Seq v)) v);
  Update pipeline.

(** Second half: [pipeline, err = s.Find(ctx, pipeline.ID)]. *)
Definition increment_refresh (pipeline : ptr) : M (ptr * option error) :=
  cur ← load pipeline;
  Find (ID cur).

(** [func (s *pipelineStore) IncrementSeqNum(ctx, pipeline)] *)
Fixpoint IncrementSeqNum (fuel : nat) (pipeline : ptr)
  : M (ptr * option error) :=
  match fuel with
  | O => out_of_fuel
  | S fuel' =>
      err ← increment_attempt pipeline;
      match err with
      | None => mret (pipeline, None)
      | Some e =>
          if negb (errors_Is e ErrVersionConflict)
          then mret (pipeline, Some (Wrapped incrementMsg e))
          else
            '(pipeline', err) ← increment_refresh pipeline;
            match err with
            | Some e' => mret (None, Some (Wrapped incrementMsg e'))
            | None => IncrementSeqNum fuel' pipeline'
            end
      end
  end.

(** The mutation that [IncrementSeqNum] is said to specialise
    [UpdateOptLock] with: [Seq] goes up by one, nothing else changes, no
    error. *)
Definition incrementSeq : MutateFn :=
  fun v => (with_Seq (Int64.incr (Seq v)) v, None).

(** *** Vocabulary of the statements about the store *)

Definition with_heap (h : list Pipeline) (w : World) : World :=
  mkWorld h (table w) (oracle w) (trace w).

(** The struct behind a returned pointer. *)
Definition returned_struct (p : ptr) (w : World) : option Pipeline :=
  match p with
  | Some l => heap w !! l
  | None => None
  end.

(** Two worlds with the same database, clock and log of statements;
    their heaps may differ. *)
Definition same_storage (a b : World) : Prop :=
  table a = table b /\ oracle a = oracle b /\ trace a = trace b.

(** Two calls "produce the same returned pipeline, the same error and
    the same sequence of writes". *)
Definition same_outcome (a b : Outcome (ptr * option error)) : Prop :=
  match a, b with
  | Ret (p1, e1) w1, Ret (p2, e2) w2 =>
      returned_struct p1 w1 = returned_struct p2 w2 /\
      e1 = e2 /\
      trace w1 = trace w2
  | Panic, Panic => True
  | OutOfFuel, OutOfFuel => True
  | _, _ => False
  end.

(** How the outcome [a] of [IncrementSeqNum] relates to the outcome [b]
    of [UpdateOptLock] run with [incrementSeq] from the same state: the
    same storage, statements and clock readings; on success structs
    with the same contents; on failure the error of [b] wrapped with
    [incrementMsg]. *)
Definition increment_outcome (a b : Outcome (ptr * option error)) : Prop :=
  match a, b with
  | Ret (p1, e1) w1, Ret (p2, e2) w2 =>
      same_storage w1 w2 /\
      match e1, e2 with
      | None, None =>
          exists x, returned_struct p1 w1 = Some x /\
                    returned_struct p2 w2 = Some x
      | Some x1, Some x2 => x1 = Wrapped incrementMsg x2 /\ p2 = None
      | _, _ => False
      end
  | OutOfFuel, OutOfFuel => True
  | _, _ => False
  end.

(** The statements that one call of [UpdateOptLock] may send, in order:
    any number of rounds "update, then select by id", followed by at
    most one more update. *)
Inductive optlock_trace : list Stmt -> Prop :=
| optlock_trace_nil : optlock_trace []
| optlock_trace_last (args : Pipeline) : optlock_trace [StmtUpdate args]
| optlock_trace_round (args : Pipeline) (id : Z) (rest : list Stmt) :
    optlock_trace rest ->
    optlock_trace (StmtUpdate args :: StmtSelectByID id :: rest).

(** The environment that the next call of a store method will see. *)
Definition current_env (w : World) : Env :=
  match oracle w with
  | e :: _ => e
  | [] => quiet 0
  end.

Definition rest_oracle (w : World) : list Env := tail (oracle w).

(** A stored row is the row the caller read: same key, same version. *)
Definition same_version (v r : Pipeline) : bool :=
  (ID r =? ID v) && (Version r =? Version v).

(** The struct that [Update] binds to the statement. *)
Definition bound_args (e : Env) (v : Pipeline) : Pipeline :=
  with_Updated (env_now e) (with_Version (Int64.incr (Version v)) v).

(** The caller's struct after a successful [Update]. *)
Definition written_back (e : Env) (v : Pipeline) : Pipeline :=
  with_Version (Int64.incr (Version v)) (with_Updated (env_now e) v).

(** *** Concurrent callers of [IncrementSeqNum]

    Several goroutines call [IncrementSeqNum] on the same store.  Each
    has its own struct; the heap of structs, the table and the clock are
    shared.  A call of a store method is one atomic step: [Update] sends
    one statement, which the database applies atomically, and so does
    [Find]. *)

(** Where a caller is in the loop of [IncrementSeqNum]. *)
Inductive Thread : Type :=
| Attempting (pipeline : ptr)   (* about to run [pipeline.Seq++] and [Update] *)
| Refreshing (pipeline : ptr)   (* [Update] reported a conflict; about to run [Find] *)
| Returned (p : ptr) (err : option error).

(** The loop body of [IncrementSeqNum], cut at its two store calls. *)
Definition thread_step (t : Thread) : M Thread :=
  match t with
  | Attempting pipeline =>
      err ← increment_attempt pipeline;
      match err with
      | None => mret (Returned pipeline None)
      | Some e =>
          if negb (errors_Is e ErrVersionConflict)
          then mret (Returned pipeline (Some (Wrapped incrementMsg e)))
          else mret (Refreshing pipeline)
      end
  | Refreshing pipeline =>
      '(pipeline', err) ← increment_refresh pipeline;
      match err with
      | Some e' => mret (Returned None (Some (Wrapped incrementMsg e')))
      | None => mret (Attempting pipeline')
      end
  | Returned p err => mret (Returned p err)
  end.

(** The shared world, the callers, and the sequence numbers handed out
    so far, with the caller that received each, in the order of the
    successful updates. *)
Record System : Type := mkSystem {
  world : World;
  threads : list Thread;
  commits : list (nat * Z)
}.

(** The sequence number that a call returns when the step from [t] to
    [t'] is its successful update. *)
Definition committed_value (t t' : Thread) (w' : World) : option Z :=
  match t, t' with
  | Attempting _, Returned p None => Seq <$> returned_struct p w'
  | _, _ => None
  end.

(** Caller [i] takes a step; a caller that does not exist or has
    returned does nothing.  [None]: the step panicked. *)
Definition sys_step (i : nat) (s : System) : option System :=
  match threads s !! i with
  | None => Some s
  | Some t =>
      match thread_step t (world s) with
      | Ret t' w' =>
          Some (mkSystem w' (<[i := t']> (threads s))
                  (commits s ++
                   match committed_value t t' w' with
                   | Some z => [(i, z)]
                   | None => []
                   end))
      | _ => None
      end
  end.

(** The callers take steps in the order of [schedule]. *)
Fixpoint run (schedule : list nat) (s : System) : option System :=
  match schedule with
  | [] => Some s
  | i :: rest =>
      match sys_step i s with
      | Some s' => run rest s'
      | None => None
      end
  end.

(** No other session writes, nothing fails; the clock is free. *)
Definition quiet_env (e : Env) : Prop :=
  env_commits e = None /\ env_bind e = None /\
  env_exec e = None /\ env_result e = None.

(** The rows of the pipeline with key [id]. *)
Definition rows_of (id : Z) (t : list Pipeline) : list Pipeline :=
  List.filter (fun r => ID r =? id) t.

(** [n] callers start together: caller [i] holds the struct at address
    [i], a copy of the one row [r0] of the pipeline, as a [Find] before
    the call would have produced it. *)
Definition initial (n : nat) (r0 : Pipeline) (w : World) : Prop :=
  rows_of (ID r0) (table w) = [r0] /\
  heap w = replicate n r0 /\
  Forall quiet_env (oracle w).

Definition start (n : nat) (w : World) : System :=
  mkSystem w (map (fun i => Attempting (Some i)) (seq 0 n)) [].

(** The value a caller received, if its call has returned without
    error. *)
Definition result_of (s : System) (i : nat) : option Z :=
  match threads s !! i with
  | Some (Returned p None) => Seq <$> returned_struct p (world s)
  | _ => None
  end.

Definition has_returned (t : Thread) : bool :=
  match t with Returned _ _ => true | _ => false end.

Definition pointer_of (t : Thread) : ptr :=
  match t with
  | Attempting p => p
  | Refreshing p => p
  | Returned p _ => p
  end.

(** The number of callers that have not returned yet. *)
Definition pending (ts : list Thread) : nat :=
  length (List.filter (fun t => negb (has_returned t)) ts).

(** How often caller [i] is scheduled. *)
Definition occurrences (i : nat) (schedule : list nat) : nat :=
  length (List.filter (Nat.eqb i) schedule).

(** What holds of caller [i] in state [t], the row being [r]: a caller
    in the loop holds a copy of the row as it is or as it was (then with
    a smaller version); a caller that has returned did so without error
    and its sequence number is on record. *)
Definition thread_inv (r0 r : Pipeline) (s : System) (i : nat) (t : Thread)
  : Prop :=
  match t with
  | Attempting (Some l) =>
      exists v, heap (world s) !! l = Some v /\
                ID v = ID r0 /\
                Seq r0 <= Seq v <= Seq r /\
                Version r0 <= Version v <= Version r /\
                (Version v = Version r -> Seq v = Seq r)
  | Refreshing (Some l) =>
      exists v, heap (world s) !! l = Some v /\ ID v = ID r0
  | Returned (Some l) None =>
      exists v, heap (world s) !! l = Some v /\ In (i, Seq v) (commits s)
  | _ => False
  end.

(** The invariant of the system of callers: one row [r] for the
    pipeline, [k] updates behind it, each of which added one to the
    sequence number and to the version, and handed out that sequence
    number. *)
Definition invariant (r0 : Pipeline) (s : System) : Prop :=
  exists (r : Pipeline) (k : nat),
    rows_of (ID r0) (table (world s)) = [r] /\
    Seq r = Seq r0 + Z.of_nat k /\
    Version r = Version r0 + Z.of_nat k /\
    map snd (commits s) = map (fun j => Seq r0 + Z.of_nat j) (seq 1 k) /\
    (k + pending (threads s) = length (threads s))%nat /\
    Forall quiet_env (oracle (world s)) /\
    Int64.min_int <= Seq r0 /\
    Int64.min_int <= Version r0 /\
    Seq r + Z.of_nat (pending (threads s)) <= Int64.max_int /\
    Version r + Z.of_nat (pending (threads s)) <= Int64.max_int /\
    (forall i t, threads s !! i = Some t -> thread_inv r0 r s i t) /\
    (forall i j t t' l,
        i <> j -> threads s !! i = Some t -> threads s !! j = Some t' ->
        pointer_of t = Some l -> pointer_of t' <> Some l) /\
    (forall j z, In (j, z) (commits s) ->
                 exists p, threads s !! j = Some (Returned p None)) /\
    (forall j z z', In (j, z) (commits s) -> In (j, z') (commits s) -> z = z').

Definition stored_version (r0 : Pipeline) (s : System) : Z :=
  match rows_of (ID r0) (table (world s)) with
  | r :: _ => Version r
  | [] => 0
  end.

(** A bound on the steps that caller [i] still needs: one attempt if
    its copy is current, three steps if it is stale, two if it is about
    to refresh, and two more for every other caller whose update can
    still get in the way. *)
Definition potential (r0 : Pipeline) (s : System) (i : nat) : nat :=
  match threads s !! i with
  | Some (Attempting p) =>
      2 * (pending (threads s) - 1) +
      match returned_struct p (world s) with
      | Some v => if Version v =? stored_version r0 s then 1 else 3
      | None => 3
      end
  | Some (Refreshing _) => 2 * (pending (threads s) - 1) + 2
  | _ => 0
  end.

End PipelineStore.

(** ** [strconv.ParseInt] at base 10 and 64 bits *)

Module Strconv.

Inductive NumError : Type := ErrSyntax | ErrRange.

Definition maxUint64 : Z := 2 ^ 64 - 1.

(** [maxUint64/10 + 1], the bound under which [n * 10] cannot overflow. *)
Definition cutoff10 : Z := maxUint64 / 10 + 1.

Definition is_digit (c : ascii) : bool :=
  ((48 <=? nat_of_ascii c) && (nat_of_ascii c <=? 57))%nat.

(** The loop of [ParseUint] over the bytes of [s], [n] being the value
    read so far, in [uint64] arithmetic.  A letter counts as a digit of a
    base above ten and is refused at base ten ([d >= base]), like a byte
    that is no digit of any base. *)
Fixpoint parse_digits (s : string) (n : Z) : Z + NumError :=
  match s with
  | EmptyString => inl n
  | String c s' =>
      if is_digit c then
        let d := Z.of_nat (nat_of_ascii c) - 48 in
        if cutoff10 <=? n then inr ErrRange
        else
          let n10 := (n * 10) mod 2 ^ 64 in
          let n1 := (n10 + d) mod 2 ^ 64 in
          if (n1 <? n10) || (maxUint64 <? n1) then inr ErrRange
          else parse_digits s' n1
      else inr ErrSyntax
  end.

(** The number that a string of decimal digits denotes, read from the
    left with [n] already read. *)
Fixpoint decimal (s : string) (n : Z) : Z :=
  match s with
  | EmptyString => n
  | String c s' => decimal s' (n * 10 + (Z.of_nat (nat_of_ascii c) - 48))
  end.

(** [ParseUint(s, 10, 64)] *)
Definition ParseUint (s : string) : Z + NumError :=
  match s with
  | EmptyString => inr ErrSyntax
  | _ => parse_digits s 0
  end.

(** [ParseInt(s, 10, 64)]: an optional sign, then [ParseUint]; a syntax
    error is returned as it is, a range error of [ParseUint] leaves
    [un] at [maxUint64] and is found again by the comparison with
    [1 << 63]. *)
Definition ParseInt (s : string) : Z + NumError :=
  match s with
  | EmptyString => inr ErrSyntax
  | String c0 rest =>
      let neg := Ascii.eqb c0 "-" in
      let s' := if Ascii.eqb c0 "+" || Ascii.eqb c0 "-" then rest else s in
      let r := ParseUint s' in
      match r with
      | inr ErrSyntax => inr ErrSyntax
      | _ =>
          let un := match r with inl u => u | inr _ => maxUint64 end in
          let cutoff := 2 ^ 63 in
          if negb neg && (cutoff <=? un) then inr ErrRange
          else if neg && (cutoff <? un) then inr ErrRange
          else
            let n := Int64.wrap un in
            inl (if neg then Int64.wrap (- n) else n)
      end
  end.

End Strconv.

(** ** [internal/store/database/repo.go] *)

Module RepoStore.
Import Errors.
Local Open Scope list_scope.

(** [types.Repository], one field per column of [repoSelectBase]. *)
Record Repository : Type := mkRepository {
  ID : Z;
  ParentID : Z;
  UID : string;
  Path : string;
  Description : string;
  IsPublic : bool;
  CreatedBy : Z;
  Created : Z;
  Updated : Z;
  GitUID : string;
  DefaultBranch : string;
  ForkID : Z;
  NumForks : Z;
  NumPulls : Z;
  NumClosedPulls : Z;
  NumOpenPulls : Z
}.

Definition with_ID (x : Z) (r : Repository) : Repository :=
  mkRepository x (ParentID r) (UID r) (Path r) (Description r) (IsPublic r)
    (CreatedBy r) (Created r) (Updated r) (GitUID r) (DefaultBranch r)
    (ForkID r) (NumForks r) (NumPulls r) (NumClosedPulls r) (NumOpenPulls r).

Definition with_Path (x : string) (r : Repository) : Repository :=
  mkRepository (ID r) (ParentID r) (UID r) x (Description r) (IsPublic r)
    (CreatedBy r) (Created r) (Updated r) (GitUID r) (DefaultBranch r)
    (ForkID r) (NumForks r) (NumPulls r) (NumClosedPulls r) (NumOpenPulls r).

Definition with_UID_ParentID (uid : string) (parent : Z) (r : Repository)
  : Repository :=
  mkRepository (ID r) parent uid (Path r) (Description r) (IsPublic r)
    (CreatedBy r) (Created r) (Updated r) (GitUID r) (DefaultBranch r)
    (ForkID r) (NumForks r) (NumPulls r) (NumClosedPulls r) (NumOpenPulls r).

(** [enum.PathTargetType] *)
Inductive PathTargetType : Type := PathTargetTypeSpace | PathTargetTypeRepo.

Definition is_repo (t : PathTargetType) : bool :=
  match t with PathTargetTypeRepo => true | PathTargetTypeSpace => false end.

Definition target_eqb (a b : PathTargetType) : bool :=
  Bool.eqb (is_repo a) (is_repo b).

(** [types.Path]; the struct is declared outside the sources at hand, its
    fields are those of the data model. *)
Record PathRow : Type := mkPath {
  PathID : Z;
  TargetType : PathTargetType;
  TargetID : Z;
  IsAlias : bool;
  Value : string;
  ValueUnique : string;
  PathCreatedBy : Z;
  PathCreated : Z;
  PathUpdated : Z
}.

(** The two tables.  A row of [repositories] is a [Repository] whose
    [Path] is empty: the path is not a column, a select takes it from
    the join with [paths]. *)
Record DB : Type := mkDB {
  repositories : list Repository;
  paths : list PathRow
}.

(** Statements and transaction commands sent to the database. *)
Inductive Stmt : Type :=
| StmtBegin
| StmtCommit
| StmtRollback
| StmtInsertRepo (r : Repository)                      (* repoInsert *)
| StmtInsertPath (p : PathRow)
| StmtSelectPrimaryPath (t : PathTargetType) (id : Z)
| StmtSelectRepoByID (id : Z)                          (* repoSelectByID *)
| StmtSelectRepoByPathUnique (pathUnique : string)      (* repoSelectByPathUnique *)
| StmtUpdateUIDAndParentID (uid : string) (parent id : Z).

(** [committed]: what every session sees.  [tx]: the working copy of the
    open transaction, if any.  [faults]: for each coming interaction with
    the database, whether it fails.  [clock]: the coming readings of
    [time.Now().UnixMilli()].  [trace]: what was sent, oldest first. *)
Record St : Type := mkSt {
  committed : DB;
  tx : option DB;
  faults : list (option DriverError);
  clock : list Z;
  trace : list Stmt
}.

Definition R (A : Type) : Type := St -> A * St.

#[global] Instance R_ret : MRet R := fun A a st => (a, st).
#[global] Instance R_bind : MBind R := fun A B f m st =>
  let '(a, st') := m st in f a st'.

Definition ret {A} (a : A) : R A := mret a.

(** Whether the interaction that starts now fails. *)
Definition fault : R (option DriverError) := fun st =>
  (List.hd None (faults st),
   mkSt (committed st) (tx st) (List.tl (faults st)) (clock st) (trace st)).

(** [time.Now().UnixMilli()] *)
Definition now : R Z := fun st =>
  (List.hd 0 (clock st),
   mkSt (committed st) (tx st) (faults st) (List.tl (clock st)) (trace st)).

Definition log (s : Stmt) : R unit := fun st =>
  (tt, mkSt (committed st) (tx st) (faults st) (clock st) (trace st ++ [s])).

Definition get_tx : R (option DB) := fun st => (tx st, st).
Definition set_tx (t : option DB) : R unit := fun st =>
  (tt, mkSt (committed st) t (faults st) (clock st) (trace st)).
Definition get_committed : R DB := fun st => (committed st, st).
Definition set_committed (d : DB) : R unit := fun st =>
  (tt, mkSt d (tx st) (faults st) (clock st) (trace st)).

Definition ErrTxDone : DriverError :=
  DriverFailure "sql: transaction has already been committed or rolled back".

(** [s.db.BeginTxx(ctx, nil)]: the transaction starts from the committed
    state. *)
Definition BeginTxx : R (option DriverError) :=
  f ← fault;
  match f with
  | Some err => ret (Some err)
  | None =>
      _ ← log StmtBegin;
      d ← get_committed;
      _ ← set_tx (Some d);
      ret None
  end.

(** [tx.Commit()]: all or nothing. *)
Definition Commit : R (option DriverError) :=
  t ← get_tx;
  match t with
  | None => ret (Some ErrTxDone)
  | Some d =>
      f ← fault;
      _ ← log StmtCommit;
      _ ← set_tx None;
      match f with
      | Some err => ret (Some err)
      | None => _ ← set_committed d; ret None
      end
  end.

(** [tx.Rollback()]; on a finished transaction it does nothing. *)
Definition Rollback : R unit :=
  t ← get_tx;
  match t with
  | None => ret tt
  | Some _ => _ ← log StmtRollback; set_tx None
  end.

(** [defer func(tx *sqlx.Tx) { _ = tx.Rollback() }(tx)] around [body]. *)
Definition defer_Rollback {A} (body : R A) : R A :=
  a ← body;
  _ ← Rollback;
  ret a.

(** A statement run on the open transaction: it fails without one, and
    when the environment says so; otherwise [run] gives its result and
    the new working copy. *)
Definition in_tx {A} (s : Stmt) (run : DB -> (A + DriverError) * DB)
  : R (A + DriverError) :=
  t ← get_tx;
  match t with
  | None => ret (inr ErrTxDone)
  | Some d =>
      f ← fault;
      _ ← log s;
      match f with
      | Some err => ret (inr err)
      | None =>
          let '(a, d') := run d in
          _ ← set_tx (Some d');
          ret a
      end
  end.

(** A query run outside of any transaction, on the committed state. *)
Definition on_db {A} (s : Stmt) (run : DB -> A + DriverError)
  : R (A + DriverError) :=
  f ← fault;
  _ ← log s;
  match f with
  | Some err => ret (inr err)
  | None => d ← get_committed; ret (run d)
  end.

(** *** The SQL statements *)

Definition next_id (ids : list Z) : Z := 1 + fold_right Z.max 0 ids.

Definition first_row {A} (rows : list A) : A + DriverError :=
  match rows with
  | r :: _ => inl r
  | [] => inr ErrNoRows
  end.

(** [paths.path_targetId = repo_id AND paths.path_targetType = 'repo'
     AND paths.path_isAlias = 0] *)
Definition primary_of (r : Repository) (p : PathRow) : bool :=
  (TargetID p =? ID r) && is_repo (TargetType p) && negb (IsAlias p).

(** [repoSelectBaseWithJoin]: each repository with each of its primary
    paths. *)
Definition join_primary (d : DB) (rs : list Repository) : list Repository :=
  flat_map (fun r => map (fun p => with_Path (Value p) r)
                         (List.filter (primary_of r) (paths d))) rs.

(** [repoSelectByID] *)
Definition repoSelectByID (id : Z) (d : DB) : list Repository :=
  join_primary d (List.filter (fun r => ID r =? id) (repositories d)).

(** [repoSelectByPathUnique]: from a path with the given unique value
    to its repository, from there to the primary path. *)
Definition repoSelectByPathUnique (pathUnique : string) (d : DB)
  : list Repository :=
  flat_map
    (fun p1 =>
       if is_repo (TargetType p1) && String.eqb (ValueUnique p1) pathUnique
       then join_primary d (List.filter (fun r => ID r =? TargetID p1)
                                        (repositories d))
       else [])
    (paths d).

(** [repoInsert ... RETURNING repo_id] *)
Definition repoInsert (r : Repository) (d : DB) : (Z + DriverError) * DB :=
  let id := next_id (map ID (repositories d)) in
  (inl id, mkDB (repositories d ++ [with_Path "" (with_ID id r)]) (paths d)).

(** [repoUpdateUIDAndParentID] *)
Definition repoUpdateUIDAndParentID (uid : string) (parent id : Z) (d : DB)
  : (unit + DriverError) * DB :=
  (inl tt,
   mkDB (map (fun r => if ID r =? id then with_UID_ParentID uid parent r else r)
             (repositories d))
        (paths d)).

(** *** The helpers of the path store that [repo.go] calls *)

(** Modelled from the spec: [paths.Concatinate] is not among the sources.
    The new value is the parent's value, a slash, and the new segment. *)
Definition Concatinate (path1 path2 : string) : string :=
  (path1 ++ "/" ++ path2)%string.

(** Modelled from the spec: [FindPathTx] is not among the sources.  It
    returns the primary path of the target, [NotFound] if there is
    none.  [selectPrimaryPath] is its query. *)
Definition selectPrimaryPath (t : PathTargetType) (id : Z) (d : DB)
  : PathRow + DriverError :=
  first_row (List.filter (fun p => target_eqb (TargetType p) t
                                   && (TargetID p =? id)
                                   && negb (IsAlias p))
                         (paths d)).

Definition FindPathTx (t : PathTargetType) (id : Z) : R (PathRow + error) :=
  r ← in_tx (StmtSelectPrimaryPath t id) (fun d => (selectPrimaryPath t id d, d));
  match r with
  | inl p => ret (inl p)
  | inr err => ret (inr (processSQLErrorf err "Failed to find path"))
  end.

Definition with_unique (pid : Z) (u : string) (p : PathRow) : PathRow :=
  mkPath pid (TargetType p) (TargetID p) (IsAlias p) (Value p) u
    (PathCreatedBy p) (PathCreated p) (PathUpdated p).

(** The insert of a path row: refused by the unique index on the
    normalized value, otherwise the row is appended under a new key. *)
Definition pathInsert (p : PathRow) (d : DB) : (Z + DriverError) * DB :=
  if existsb (fun q => String.eqb (ValueUnique q) (ValueUnique p)) (paths d)
  then (inr UniqueViolation, d)
  else
    let pid := next_id (map PathID (paths d)) in
    (inl pid, mkDB (repositories d) (paths d ++ [with_unique pid (ValueUnique p) p])).

Section Injected.

(** [store.PathTransformation], a field of [RepoStore]. *)
Variable pathTransformation : string -> string + error.

(** The structural validation of a path value (non-empty segments, no
    reserved characters); the reserved characters are a policy of the
    deployment. *)
Variable pathValid : string -> bool.

(** Modelled from the spec: [CreatePathTx] is not among the sources.
    It validates the value, constructs the normalized form and inserts
    the row; the insert fails with the duplicate error if the
    normalized value exists already.  On success the caller's struct
    has its key and its normalized value. *)
Definition CreatePathTx (p : PathRow) : R (PathRow * option error) :=
  if negb (pathValid (Value p)) then ret (p, Some ErrInvalidPath)
  else
    match pathTransformation (Value p) with
    | inr err => ret (p, Some err)
    | inl u =>
        let p := with_unique (PathID p) u p in
        r ← in_tx (StmtInsertPath p) (pathInsert p);
        match r with
        | inr err => ret (p, Some (processSQLErrorf err "Insert query failed"))
        | inl pid => ret (with_unique pid u p, None)
        end
    end.

(** [ReplacePathTx] is not among the sources; [Move] is stated for any
    behaviour of it. *)
Variable ReplacePathTx : PathRow -> bool -> R (option error).

(** *** The store methods *)

(** [func (s *RepoStore) Find(ctx, id)] *)
Definition Find (id : Z) : R (option Repository * option error) :=
  r ← on_db (StmtSelectRepoByID id)
         (fun d => first_row (repoSelectByID id d));
  match r with
  | inr err => ret (None, Some (processSQLErrorf err "Select query failed"))
  | inl dst => ret (Some dst, None)
  end.

(** [func (s *RepoStore) FindByPath(ctx, path)] *)
Definition FindByPath (path : string) : R (option Repository * option error) :=
  match pathTransformation path with
  | inr err =>
      ret (None,
           Some (Wrapped ("failed to transform path '" ++ path ++ "'")%string err))
  | inl pathUnique =>
      r ← on_db (StmtSelectRepoByPathUnique pathUnique)
             (fun d => first_row (repoSelectByPathUnique pathUnique d));
      match r with
      | inr err => ret (None, Some (processSQLErrorf err "Select query failed"))
      | inl dst => ret (Some dst, None)
      end
  end.

(** [func (s *RepoStore) FindRepoFromRef(ctx, repoRef)] *)
Definition FindRepoFromRef (repoRef : string)
  : R (option Repository * option error) :=
  match Strconv.ParseInt repoRef with
  | inl id => Find id
  | inr _ => FindByPath repoRef
  end.

(** [func (s *RepoStore) Create(ctx, repo) error].  The struct behind
    [repo] is passed in and handed back next to the error. *)
Definition Create (repo : Repository) : R (Repository * option error) :=
  b ← BeginTxx;
  match b with
  | Some err =>
      ret (repo, Some (processSQLErrorf err "Failed to start a new transaction"))
  | None =>
      defer_Rollback (
        f ← fault;
        match f with
        | Some err =>
            ret (repo, Some (processSQLErrorf err "Failed to bind repo object"))
        | None =>
            r ← in_tx (StmtInsertRepo repo) (repoInsert repo);
            match r with
            | inr err =>
                ret (repo, Some (processSQLErrorf err "Insert query failed"))
            | inl id =>
                let repo := with_ID id repo in
                pp ← FindPathTx PathTargetTypeSpace (ParentID repo);
                match pp with
                | inr err =>
                    ret (repo,
                         Some (Wrapped "Failed to find path of parent space" err))
                | inl parentPath =>
                    let path := Concatinate (Value parentPath) (UID repo) in
                    let p := mkPath 0 PathTargetTypeRepo (ID repo) false path ""
                               (CreatedBy repo) (Created repo) (Updated repo) in
                    c ← CreatePathTx p;
                    match c with
                    | (_, Some err) =>
                        ret (repo,
                             Some (Wrapped "Failed to create primary path of repo" err))
                    | (p, None) =>
                        e ← Commit;
                        match e with
                        | Some err =>
                            ret (repo,
                                 Some (processSQLErrorf err "Failed to commit transaction"))
                        | None => ret (with_Path (Value p) repo, None)
                        end
                    end
                end
            end
        end)
  end.

(** [func (s *RepoStore) Move(ctx, principalID, repoID, newParentID,
    newName, keepAsAlias)] *)
Definition Move (principalID repoID newParentID : Z) (newName : string)
           (keepAsAlias : bool) : R (option Repository * option error) :=
  b ← BeginTxx;
  match b with
  | Some err =>
      ret (None, Some (processSQLErrorf err "Failed to start a new transaction"))
  | None =>
      defer_Rollback (
        cp ← FindPathTx PathTargetTypeRepo repoID;
        match cp with
        | inr err =>
            ret (None,
                 Some (Wrapped "Failed to find the primary path of the repo" err))
        | inl currentPath =>
            sp ← FindPathTx PathTargetTypeSpace newParentID;
            match sp with
            | inr err =>
                ret (None,
                     Some (Wrapped "Failed to find the primary path of the new space" err))
            | inl spacePath =>
                let newPath := Concatinate (Value spacePath) newName in
                if String.eqb newPath (Value currentPath)
                then ret (None, Some ErrNoChangeInRequestedMove)
                else
                  created ← now;
                  updated ← now;
                  let p := mkPath 0 PathTargetTypeRepo repoID false newPath ""
                             principalID created updated in
                  e ← ReplacePathTx p keepAsAlias;
                  match e with
                  | Some err =>
                      ret (None,
                           Some (Wrapped "Failed to update the primary path of the repo" err))
                  | None =>
                      u ← in_tx (StmtUpdateUIDAndParentID newName newParentID repoID)
                             (repoUpdateUIDAndParentID newName newParentID repoID);
                      match u with
                      | inr err =>
                          ret (None,
                               Some (processSQLErrorf err
                                       "Query for renaming and updating the space id failed"))
                      | inl _ =>
                          g ← in_tx (StmtSelectRepoByID repoID)
                                 (fun d => (first_row (repoSelectByID repoID d), d));
                          match g with
                          | inr err =>
                              ret (None,
                                   Some (processSQLErrorf err
                                           "Select query to get the repo's latest state failed"))
                          | inl dst =>
                              c ← Commit;
                              match c with
                              | Some err =>
                                  ret (None,
                                       Some (processSQLErrorf err
                                               "Failed to commit transaction"))
                              | None => ret (Some dst, None)
                              end
                          end
                      end
                  end
            end
        end)
  end.

End Injected.

(** *** Vocabulary of the statements about the store *)

(** The next [n] interactions with the database do not fail. *)
Definition no_fault (n : nat) (st : St) : Prop :=
  Forall (fun f => f = None) (take n (faults st)).

(** The path row that [Create] hands to [CreatePathTx]. *)
Definition primary_path_of (repo : Repository) (id : Z) (value : string)
  : PathRow :=
  mkPath 0 PathTargetTypeRepo id false value ""
    (CreatedBy repo) (Created repo) (Updated repo).

End RepoStore.

(** ** The branch adapter of the git layer *)

Module Adapter.
Import Errors.
Local Open Scope list_scope.

Definition is_hex_byte (c : ascii) : bool :=
  let n := nat_of_ascii c in
  ((48 <=? n) && (n <=? 57) || (97 <=? n) && (n <=? 102))%nat.

(** A commit name as git prints it: hexadecimal digits, at least one. *)
Definition is_object_name (s : string) : bool :=
  negb (String.eqb s "") && GoStrings.all_bytes is_hex_byte s.

(** What [git rev-list --max-count 1 --branches] prints on its standard
    output, given the commits that are reachable from the branches of
    the repository in the order in which git would list them: the name
    of the first one and a line feed, nothing without a commit. *)
Definition rev_list_max_count_1 (reachable : list string) : string :=
  match reachable with
  | [] => ""
  | sha :: _ => (sha ++ String (ascii_of_nat 10) "")%string
  end.

Definition rev_list_args : list string :=
  ["rev-list"; "--max-count"; "1"; "--branches"].

Section Git.

Variable unicode_TrimFunc_IsSpace : string -> string.
Variable unicode_TrimRightFunc_IsSpace : string -> string.

(** [gitea.NewCommand(ctx, args...).RunStdBytes(&gitea.RunOpts{Dir: dir})]:
    standard output, standard error, and the error of the run. *)
Variable RunStdBytes : list string -> string -> string * string * option string.

(** [processGiteaErrorf] is declared outside the sources at hand. *)
Variable processGiteaErrorf : string -> string -> error.

(** [func (a Adapter) HasBranches(ctx, repoPath) (bool, error)] *)
Definition HasBranches (repoPath : string) : bool * option error :=
  if String.eqb repoPath "" then (false, Some ErrRepositoryPathEmpty)
  else
    let '(stdout, _, runErr) := RunStdBytes rev_list_args repoPath in
    match runErr with
    | Some e =>
        (false, Some (processGiteaErrorf e "failed to trigger rev-list command"))
    | None =>
        (String.eqb
           (GoStrings.TrimSpace unicode_TrimFunc_IsSpace
                                unicode_TrimRightFunc_IsSpace stdout) "",
         None)
    end.

End Git.

End Adapter.

(** ** Sample data *)

Module Samples.
Import Errors.
Local Open Scope list_scope.

(** A pipeline at sequence number 5 and version 3. *)
Definition nightly : PipelineStore.Pipeline :=
  PipelineStore.mkPipeline 1 "nightly build" 1 "nightly" 5 10 "git" "drone"
    "main" ".drone.yml" 1000 1000 3.

(** One caller holding a copy of the stored row. *)
Definition one_caller (o : list PipelineStore.Env) : PipelineStore.World :=
  PipelineStore.mkWorld [nightly] [nightly] o [].

(** Two callers, each holding its own copy of the stored row; nothing
    fails and nobody else writes. *)
Definition two_callers : PipelineStore.World :=
  PipelineStore.mkWorld [nightly; nightly] [nightly] [] [].

(** The statement of the call cannot be executed. *)
Definition connection_lost : PipelineStore.Env :=
  PipelineStore.mkEnv None 2000 None (Some (DriverFailure "connection reset")) None.

(** A callback that refuses. *)
Definition refuse : PipelineStore.MutateFn :=
  fun v => (v, Some (Foreign "not allowed")).

(** The space "acme" (key 10) and, in [acme_store], its repository
    "repo1" (key 7). *)
Definition acme_path : RepoStore.PathRow :=
  RepoStore.mkPath 1 RepoStore.PathTargetTypeSpace 10 false "acme" "acme" 1 100 100.

Definition repo1 : RepoStore.Repository :=
  RepoStore.mkRepository 7 10 "repo1" "" "first repo" true 1 200 200
    "git-uid-1" "main" 0 0 0 0 0.

Definition repo1_path : RepoStore.PathRow :=
  RepoStore.mkPath 2 RepoStore.PathTargetTypeRepo 7 false "acme/repo1" "acme/repo1"
    1 200 200.

Definition acme_store : RepoStore.St :=
  RepoStore.mkSt (RepoStore.mkDB [repo1] [acme_path; repo1_path]) None [] [] [].

(** A store in which the primary path of repository 7 is a string of
    digits, the decimal notation of 2^63. *)
Definition digits : string := "9223372036854775808".

Definition digits_path : RepoStore.PathRow :=
  RepoStore.mkPath 2 RepoStore.PathTargetTypeRepo 7 false digits digits 1 200 200.

Definition digits_store : RepoStore.St :=
  RepoStore.mkSt (RepoStore.mkDB [repo1] [acme_path; digits_path]) None [] [] [].

(** Path transformations: the identity, one that folds ASCII letters
    to lower case, one that refuses. *)
Definition keep : string -> string + error := fun s => inl s.
Definition fold_case : string -> string + error :=
  fun s => inl (GoStrings.map_bytes GoStrings.lower_byte s).
Definition reject : string -> string + error :=
  fun _ => inr (Foreign "bad path").

(** A [ReplacePathTx] that does nothing. *)
Definition no_replace : RepoStore.PathRow -> bool -> RepoStore.R (option error) :=
  fun _ _ => mret None.

(** A git that finds no commit, and one that finds a commit. *)
Definition git_empty : list string -> string -> string * string * option string :=
  fun _ _ => ("", "", None).

Definition a_commit : string := "3b18e512dba79e4c8300dd08aeb37f8e728b8dad".

Definition git_one_commit : list string -> string -> string * string * option string :=
  fun _ _ => (Adapter.rev_list_max_count_1 [a_commit], "", None).

Definition gitea_error : string -> string -> error :=
  fun e msg => Wrapped msg (Foreign e).

End Samples.

(** ** [pipeline.go]: creating, finding by name, deleting *)

Module PipelineCrud.
Import Errors PipelineStore.
Local Open Scope list_scope.

(** The statements of these methods are not recorded in [trace], which
    follows the two statements of the locking protocol. *)

Definition with_ID (x : Z) (p : Pipeline) : Pipeline :=
  mkPipeline x (Description p) (SpaceID p) (UID p) (Seq p) (RepoID p)
    (RepoType p) (RepoName p) (DefaultBranch p) (ConfigPath p)
    (Created p) (Updated p) (Version p).

Definition with_table (t : list Pipeline) (w : World) : World :=
  mkWorld (heap w) t (oracle w) (trace w).

(** The key that the database gives to a new row: one above the keys in
    use. *)
Definition next_key (t : list Pipeline) : Z :=
  1 + fold_right Z.max 0 (map ID t).

(** [db.QueryRowContext(ctx, query, arg...).Scan(&pipeline.ID)] for
    [pipelineInsertStmt]: twelve columns take the values of [args], the
    key is the database's and comes back through [RETURNING]. *)
Definition QueryRowContext_insert (e : Env) (args : Pipeline)
  : M (Z + DriverError) := fun w =>
  match env_exec e with
  | Some err => Ret (inr err) w
  | None =>
      let id := next_key (table w) in
      Ret (inl id) (with_table (table w ++ [with_ID id args]) w)
  end.

(** [func (s *pipelineStore) Create(ctx, pipeline) error] *)
Definition Create (pipeline : ptr) : M (option error) :=
  e ← next_env;
  v ← load pipeline;
  match env_bind e with
  | Some err => mret (Some (processSQLErrorf err "Failed to bind pipeline object"))
  | None =>
      r ← QueryRowContext_insert e v;
      match r with
      | inr err => mret (Some (processSQLErrorf err "Pipeline query failed"))
      | inl id => _ ← store pipeline (with_ID id v); mret None
      end
  end.

(** [WHERE pipeline_space_id = $1 AND pipeline_uid = $2] *)
Definition uid_matches (spaceID : Z) (uid : string) (r : Pipeline) : bool :=
  (SpaceID r =? spaceID) && String.eqb (UID r) uid.

(** [db.GetContext(ctx, dst, findQueryStmt, spaceID, uid)] *)
Definition GetContext_findByUID (e : Env) (spaceID : Z) (uid : string)
  : M (Pipeline + DriverError) := fun w =>
  match env_exec e with
  | Some err => Ret (inr err) w
  | None =>
      match List.find (uid_matches spaceID uid) (table w) with
      | Some r => Ret (inl r) w
      | None => Ret (inr ErrNoRows) w
      end
  end.

(** [func (s *pipelineStore) FindByUID(ctx, spaceID, uid)] *)
Definition FindByUID (spaceID : Z) (uid : string) : M (ptr * option error) :=
  e ← next_env;
  dst ← alloc zero_Pipeline;
  r ← GetContext_findByUID e spaceID uid;
  match r with
  | inr err => mret (None, Some (processSQLErrorf err "Failed to find pipeline"))
  | inl row => _ ← store dst row; mret (dst, None)
  end.

(** [db.ExecContext(ctx, stmt, ...)] for a [DELETE]: the rows that
    [gone] selects are removed; the result, with its count of rows, is
    dropped by the caller. *)
Definition ExecContext_delete (e : Env) (gone : Pipeline -> bool)
  : M (option DriverError) := fun w =>
  match env_exec e with
  | Some err => Ret (Some err) w
  | None =>
      Ret None (with_table (List.filter (fun r => negb (gone r)) (table w)) w)
  end.

(** [func (s *pipelineStore) Delete(ctx, id) error] *)
Definition Delete (id : Z) : M (option error) :=
  e ← next_env;
  r ← ExecContext_delete e (fun r => ID r =? id);
  match r with
  | Some err => mret (Some (processSQLErrorf err "Could not delete pipeline"))
  | None => mret None
  end.

(** [func (s *pipelineStore) DeleteByUID(ctx, spaceID, uid) error] *)
Definition DeleteByUID (spaceID : Z) (uid : string) : M (option error) :=
  e ← next_env;
  r ← ExecContext_delete e (uid_matches spaceID uid);
  match r with
  | Some err => mret (Some (processSQLErrorf err "Could not delete pipeline"))
  | None => mret None
  end.

(** *** Vocabulary of the statements about these methods *)

(** A callback that changes neither the key nor the version of the
    struct it is given and does not fail. *)
Definition well_behaved (mutateFn : MutateFn) : Prop :=
  forall u, ID (fst (mutateFn u)) = ID u /\
            Version (fst (mutateFn u)) = Version u /\
            snd (mutateFn u) = None.

(** The columns of a row that [pipelineUpdateStmt] does not set. *)
Definition fixed_columns (r : Pipeline) : Z * Z * Z * string * string * Z :=
  (ID r, SpaceID r, RepoID r, RepoType r, RepoName r, Created r).

(** A rival session that commits a new version of the row [r], the
    only row of the table, just before each of the next [n] attempts of
    the caller to update it, and keeps still while the caller reads the
    row again; nothing fails. *)
Fixpoint rival (r : Pipeline) (n : nat) : list Env :=
  match n with
  | O => []
  | S n' =>
      let r' := with_Version (Version r + 1) r in
      mkEnv (Some [r']) 0 None None None :: quiet 0 :: rival r' n'
  end.

(** The environment that the call after the next one will see. *)
Definition following_env (w : World) : Env :=
  current_env (mkWorld (heap w) (table w) (rest_oracle w) (trace w)).

(** The call sees the table as the previous call left it, and its query
    runs. *)
Definition undisturbed (e : Env) : Prop :=
  env_commits e = None /\ env_exec e = None.

End PipelineCrud.

(** ** [repo.go]: updating and deleting *)

Module RepoCrud.
Import Errors RepoStore.
Local Open Scope list_scope.

(** The statements of these methods are not recorded in [trace]; the
    transaction commands are. *)

(** A statement run on the open transaction, as [in_tx]. *)
Definition tx_exec (run : DB -> DB) : R (option DriverError) :=
  t ← get_tx;
  match t with
  | None => ret (Some ErrTxDone)
  | Some d =>
      f ← fault;
      match f with
      | Some err => ret (Some err)
      | None => _ ← set_tx (Some (run d)); ret None
      end
  end.

(** A statement run outside of any transaction: it is committed when it
    returns. *)
Definition db_exec (run : DB -> DB) : R (option DriverError) :=
  f ← fault;
  match f with
  | Some err => ret (Some err)
  | None => d ← get_committed; _ ← set_committed (run d); ret None
  end.

(** The [SET] clause of [repoUpdate]: seven columns take the values of
    [args]. *)
Definition update_set (args r : Repository) : Repository :=
  mkRepository (ID r) (ParentID r) (UID r) (Path r) (Description args)
    (IsPublic args) (CreatedBy r) (Created r) (Updated args) (GitUID r)
    (DefaultBranch r) (ForkID r) (NumForks args) (NumPulls args)
    (NumClosedPulls args) (NumOpenPulls args).

(** [repoUpdate], with [WHERE repo_id = :repo_id] *)
Definition repoUpdate (args : Repository) (d : DB) : DB :=
  mkDB (map (fun r => if ID r =? ID args then update_set args r else r)
            (repositories d))
       (paths d).

(** [func (s *RepoStore) Update(ctx, repo) error] *)
Definition Update (repo : Repository) : R (option error) :=
  f ← fault;
  match f with
  | Some err => ret (Some (processSQLErrorf err "Failed to bind repo object"))
  | None =>
      r ← db_exec (repoUpdate repo);
      match r with
      | Some err => ret (Some (processSQLErrorf err "Update query failed"))
      | None => ret None
      end
  end.

(** [repoDelete] *)
Definition repoDelete (id : Z) (d : DB) : DB :=
  mkDB (List.filter (fun r => negb (ID r =? id)) (repositories d)) (paths d).

(** Modelled from the spec: [DeleteAllPaths] is not among the sources.
    It deletes every path row of the target, primary and aliases, inside
    the caller's transaction. *)
Definition deleteAllPaths (t : PathTargetType) (id : Z) (d : DB) : DB :=
  mkDB (repositories d)
       (List.filter (fun p => negb (target_eqb (TargetType p) t && (TargetID p =? id)))
                    (paths d)).

Definition DeleteAllPaths (t : PathTargetType) (id : Z) : R (option error) :=
  r ← tx_exec (deleteAllPaths t id);
  match r with
  | Some err => ret (Some (processSQLErrorf err "Failed to delete paths"))
  | None => ret None
  end.

(** [func (s *RepoStore) Delete(ctx, id) error] *)
Definition Delete (id : Z) : R (option error) :=
  b ← BeginTxx;
  match b with
  | Some err => ret (Some (processSQLErrorf err "failed to start a new transaction"))
  | None =>
      defer_Rollback (
        e ← DeleteAllPaths PathTargetTypeRepo id;
        match e with
        | Some err =>
            ret (Some (Wrapped "failed to delete all paths of the repo" err))
        | None =>
            r ← tx_exec (repoDelete id);
            match r with
            | Some err => ret (Some (processSQLErrorf err "the delete query failed"))
            | None =>
                c ← Commit;
                match c with
                | Some err =>
                    ret (Some (processSQLErrorf err "failed to commit transaction"))
                | None => ret None
                end
            end
        end)
  end.

(** *** Vocabulary of the statements about these methods *)

(** No path row names a repository with key [id] as its target. *)
Definition no_path_of (id : Z) (d : DB) : Prop :=
  forall p, In p (paths d) -> is_repo (TargetType p) = true -> TargetID p <> id.

(** A [ReplacePathTx] that works inside the transaction: it leaves the
    committed state alone. *)
Definition inside_tx (ReplacePathTx : PathRow -> bool -> R (option error)) : Prop :=
  forall p keep st, committed (snd (ReplacePathTx p keep st)) = committed st.

End RepoCrud.

(** ** More sample data *)

Module CrudSamples.
Import Errors.
Local Open Scope list_scope.

(** A pipeline that is not stored yet. *)
Definition weekly : PipelineStore.Pipeline :=
  PipelineStore.mkPipeline 0 "weekly build" 1 "weekly" 0 10 "git" "drone"
    "main" ".drone.yml" 3000 3000 0.

(** A caller about to create [weekly] next to the stored [nightly]. *)
Definition new_caller : PipelineStore.World :=
  PipelineStore.mkWorld [weekly] [Samples.nightly] [] [].

(** The row of [nightly] after two more runs. *)
Definition nightly_later : PipelineStore.Pipeline :=
  PipelineStore.mkPipeline 1 "nightly build" 1 "nightly" 7 10 "git" "drone"
    "main" ".drone.yml" 1000 1500 5.

(** A caller whose copy of the row is out of date. *)
Definition late_caller : PipelineStore.World :=
  PipelineStore.mkWorld [Samples.nightly] [nightly_later] [] [].

(** A caller whose pipeline has been deleted. *)
Definition bereft_caller : PipelineStore.World :=
  PipelineStore.mkWorld [Samples.nightly] [] [] [].

(** A callback that changes the description. *)
Definition describe : PipelineStore.MutateFn :=
  fun v => (PipelineStore.mkPipeline (PipelineStore.ID v) "builds every night"
              (PipelineStore.SpaceID v) (PipelineStore.UID v) (PipelineStore.Seq v)
              (PipelineStore.RepoID v) (PipelineStore.RepoType v)
              (PipelineStore.RepoName v) (PipelineStore.DefaultBranch v)
              (PipelineStore.ConfigPath v) (PipelineStore.Created v)
              (PipelineStore.Updated v) (PipelineStore.Version v),
            None).

(** What a caller sends to change the description of [repo1]: the
    name and the parent in the struct are not the stored ones. *)
Definition repo1_edited : RepoStore.Repository :=
  RepoStore.mkRepository 7 99 "renamed" "elsewhere" "the first repository" false
    5 999 300 "other-git-uid" "trunk" 3 1 4 2 2.

(** [repo1] as it is read back after that change. *)
Definition repo1_stored : RepoStore.Repository :=
  RepoStore.mkRepository 7 10 "repo1" "acme/repo1" "the first repository" false
    1 200 300 "git-uid-1" "main" 0 1 4 2 2.

(** A repository to be created in the space "acme". *)
Definition repo2 : RepoStore.Repository :=
  RepoStore.mkRepository 0 10 "repo2" "" "second repo" false 1 400 400
    "git-uid-2" "main" 0 0 0 0 0.

(** A repository whose parent space does not exist. *)
Definition stray : RepoStore.Repository :=
  RepoStore.mkRepository 0 11 "stray" "" "no parent" false 1 500 500
    "git-uid-3" "main" 0 0 0 0 0.

(** [repo1] after a move to the name "repo2" in the same space, and the
    store after that move when [ReplacePathTx] is [Samples.no_replace],
    which leaves the path rows as they are. *)
Definition repo1_renamed : RepoStore.Repository :=
  RepoStore.with_Path "acme/repo1"
    (RepoStore.with_UID_ParentID "repo2" 10 Samples.repo1).

Definition renamed_store : RepoStore.St :=
  RepoStore.mkSt
    (RepoStore.mkDB [RepoStore.with_UID_ParentID "repo2" 10 Samples.repo1]
                    [Samples.acme_path; Samples.repo1_path])
    None [] []
    [RepoStore.StmtBegin;
     RepoStore.StmtSelectPrimaryPath RepoStore.PathTargetTypeRepo 7;
     RepoStore.StmtSelectPrimaryPath RepoStore.PathTargetTypeSpace 10;
     RepoStore.StmtUpdateUIDAndParentID "repo2" 10 7;
     RepoStore.StmtSelectRepoByID 7;
     RepoStore.StmtCommit].

End CrudSamples.

(* ===================================================================== *)
(** * Part II: properties                                                 *)
(* ===================================================================== *)

(** ** [strings.ToLower] and [strings.TrimSpace] on ASCII input *)

Module GoStringsFacts.
Import GoStrings.

Lemma map_lower_no_upper (s : string) :
  any_byte is_upper_byte s = false -> map_bytes lower_byte s = s.
Proof.
  induction s as [|c s IH]; simpl; [reflexivity|].
  intros H. apply orb_false_elim in H as [Hc Hs].
  rewrite IH by exact Hs. unfold lower_byte. rewrite Hc. reflexivity.
Qed.

(** On ASCII input [ToLower] maps [lower_byte] over the bytes. *)
Lemma ToLower_ascii (u : string -> string) (s : string) :
  isASCII s = true -> ToLower u s = map_bytes lower_byte s.
Proof.
  intros H. unfold ToLower. rewrite H.
  destruct (any_byte is_upper_byte s) eqn:E; simpl; [reflexivity|].
  symmetry. apply map_lower_no_upper. exact E.
Qed.

Lemma asciiEqualFold_map (s t : string) :
  asciiEqualFold s t = true -> map_bytes lower_byte s = map_bytes lower_byte t.
Proof.
  revert t. induction s as [|a s IH]; intros [|b t]; simpl; try discriminate;
    [reflexivity|].
  intros H. apply andb_prop in H as [Hab Hst].
  apply Ascii.eqb_eq in Hab. rewrite Hab, (IH t Hst). reflexivity.
Qed.

Lemma rev_string_empty (acc s : string) :
  rev_string acc s = "" -> acc = "" /\ s = "".
Proof.
  revert acc. induction s as [|c s IH]; simpl; intros acc H; [auto|].
  apply IH in H as [H _]. discriminate.
Qed.

Lemma rev_string_app (acc s : string) (c : ascii) :
  rev_string acc (s ++ String c "") = String c (rev_string acc s).
Proof.
  revert acc. induction s as [|a s IH]; simpl; intros acc; [reflexivity|].
  apply IH.
Qed.

Lemma trim_stop_solid (tr : string -> string) (c : ascii) (r : string) :
  solid c = true -> trim_stop tr (String c r) <> "".
Proof.
  unfold solid. intros H. apply andb_prop in H as [Ha Hs].
  simpl. rewrite Ha. simpl. apply negb_true_iff in Hs. rewrite Hs.
  intros E. apply rev_string_empty in E as [E _]. discriminate.
Qed.

Lemma rev_string_solid (s acc : string) :
  all_bytes solid s = true -> all_bytes solid acc = true ->
  all_bytes solid (rev_string acc s) = true.
Proof.
  revert acc. induction s as [|c s IH]; simpl; intros acc Hs Hacc; [exact Hacc|].
  apply andb_prop in Hs as [Hc Hs]. apply IH; [exact Hs|].
  simpl. rewrite Hc, Hacc. reflexivity.
Qed.

(** A non-empty run of solid bytes followed by a line feed is not
    blank. *)
Lemma TrimSpace_line (tf tr : string -> string) (s : string) :
  s <> "" -> all_bytes solid s = true ->
  TrimSpace tf tr (s ++ String (ascii_of_nat 10) "") <> "".
Proof.
  intros Hne Hs. destruct s as [|a m]; [contradiction|].
  pose proof Hs as Hs'. simpl in Hs'. apply andb_prop in Hs' as [Ha _].
  unfold solid in Ha. apply andb_prop in Ha as [Ha1 Ha2].
  apply negb_true_iff in Ha2.
  change (String a m ++ String (ascii_of_nat 10) "")
    with (String a (m ++ String (ascii_of_nat 10) "")).
  cbn [TrimSpace]. rewrite Ha1, Ha2. cbn [negb].
  change (String a (m ++ String (ascii_of_nat 10) ""))
    with (String a m ++ String (ascii_of_nat 10) "").
  rewrite rev_string_app.
  change (trim_stop tr (String (ascii_of_nat 10) ?x)) with (trim_stop tr x).
  pose proof (rev_string_solid (String a m) "" Hs eq_refl) as Hr.
  destruct (rev_string "" (String a m)) as [|c r] eqn:E.
  - apply rev_string_empty in E as [_ E]. discriminate.
  - simpl in Hr. apply andb_prop in Hr as [Hc _].
    apply trim_stop_solid. exact Hc.
Qed.

End GoStringsFacts.

Example TrimSpace_sample :
  GoStrings.TrimSpace (fun s => s) (fun s => s)
    (" ab c " ++ String (ascii_of_nat 10) "") = "ab c".
Proof. reflexivity. Qed.

(** ** [order.go] *)

Module OrderFacts.
Import GoStrings Enum.

(** C9.  [ParseOrder] undoes [String] on [OrderAsc] and [OrderDesc] and
    on no other value of the type; it does not see letter case, in the
    sense of [strings.ToLower] and, on ASCII input, byte by byte;
    [OrderDefault] prints as "asc" and is read back as [OrderAsc]. *)
Theorem ParseOrder_String_roundtrip (unicode_Map_ToLower : string -> string) :
  let parse := ParseOrder unicode_Map_ToLower in
  (forall e : Order, e = OrderAsc \/ e = OrderDesc -> parse (Order_String e) = e) /\
  (forall s t : string,
      ToLower unicode_Map_ToLower s = ToLower unicode_Map_ToLower t ->
      parse s = parse t) /\
  (forall s t : string,
      isASCII s = true -> isASCII t = true -> asciiEqualFold s t = true ->
      parse s = parse t) /\
  Order_String OrderDefault = "asc" /\
  parse (Order_String OrderDefault) = OrderAsc /\
  OrderAsc <> OrderDefault /\
  (forall e : Order, parse (Order_String e) = e <-> e = OrderAsc \/ e = OrderDesc).
Proof.
  intros parse. unfold parse.
  assert (Hfold : forall s t,
             ToLower unicode_Map_ToLower s = ToLower unicode_Map_ToLower t ->
             ParseOrder unicode_Map_ToLower s = ParseOrder unicode_Map_ToLower t).
  { intros s t H. unfold ParseOrder. rewrite H. reflexivity. }
  assert (Hrt : forall e : Order,
             ParseOrder unicode_Map_ToLower (Order_String e) =
             if e =? OrderDesc then OrderDesc else OrderAsc).
  { intros e. unfold Order_String. destruct (e =? OrderDesc); reflexivity. }
  repeat apply conj.
  - intros e [-> | ->]; reflexivity.
  - exact Hfold.
  - intros s t Hs Ht Hst. apply Hfold.
    rewrite !GoStringsFacts.ToLower_ascii by assumption.
    apply GoStringsFacts.asciiEqualFold_map. exact Hst.
  - reflexivity.
  - reflexivity.
  - discriminate.
  - intros e. rewrite Hrt. unfold OrderAsc, OrderDesc.
    destruct (e =? 2) eqn:E.
    + apply Z.eqb_eq in E. split; auto.
    + apply Z.eqb_neq in E. split; [auto | intros [H | H]; [auto | contradiction]].
Qed.

Lemma ParseOrder_String_roundtrip_witness :
  Enum.ParseOrder (fun s => s) "DeSc" = Enum.ParseOrder (fun s => s) "desc".
Proof.
  apply (proj1 (proj2 (proj2 (ParseOrder_String_roundtrip (fun s => s))))
               "DeSc" "desc"); reflexivity.
Defined.

End OrderFacts.

(** ** Arithmetic of [int64] *)

Lemma Int64_wrap_in_range (z : Z) :
  Int64.min_int <= z <= Int64.max_int -> Int64.wrap z = z.
Proof.
  unfold Int64.wrap, Int64.min_int, Int64.max_int, Int64.modulus.
  intros H. rewrite Z.mod_small; lia.
Qed.

Lemma Int64_incr_no_overflow (a : Z) :
  Int64.min_int <= a < Int64.max_int -> Int64.incr a = a + 1.
Proof.
  intros H. unfold Int64.incr, Int64.add. apply Int64_wrap_in_range.
  unfold Int64.min_int, Int64.max_int in *. lia.
Qed.

Example Int64_incr_wraps : Int64.incr Int64.max_int = Int64.min_int.
Proof. reflexivity. Qed.

(** ** [pipeline.go] *)

Module PipelineFacts.
Import Errors PipelineStore.
Local Open Scope list_scope.

Lemma next_env_eq (w : World) :
  next_env w = Ret (current_env w)
                   (mkWorld (heap w) (observed (current_env w) (table w))
                            (rest_oracle w) (trace w)).
Proof.
  unfold next_env, current_env, rest_oracle. destruct w as [h t o tr]; simpl.
  destruct o; reflexivity.
Qed.

Lemma update_matches_bound (e : Env) (v r : Pipeline) :
  Int64.min_int <= Version v < Int64.max_int ->
  update_matches (bound_args e v) r = same_version v r.
Proof.
  intros H. unfold update_matches, same_version, bound_args; simpl.
  rewrite Int64_incr_no_overflow by exact H.
  replace (Version v + 1 - 1) with (Version v) by lia. reflexivity.
Qed.

(** [Update] as one case analysis on the environment's decisions. *)
Lemma Update_unfold (w : World) (l : nat) (v : Pipeline) :
  heap w !! l = Some v ->
  let e := current_env w in
  let t := observed e (table w) in
  let args := bound_args e v in
  let tr := trace w ++ [StmtUpdate args] in
  Update (Some l) w =
    match env_bind e with
    | Some err =>
        Ret (Some (processSQLErrorf err "Failed to bind pipeline object"))
            (mkWorld (heap w) t (rest_oracle w) (trace w))
    | None =>
        match env_exec e with
        | Some err =>
            Ret (Some (processSQLErrorf err "Failed to update pipeline"))
                (mkWorld (heap w) t (rest_oracle w) tr)
        | None =>
            match env_result e with
            | Some err =>
                Ret (Some (processSQLErrorf err "Failed to get number of updated rows"))
                    (mkWorld (heap w) (update_rows args t) (rest_oracle w) tr)
            | None =>
                if rows_affected args t =? 0
                then Ret (Some ErrVersionConflict)
                         (mkWorld (heap w) (update_rows args t) (rest_oracle w) tr)
                else Ret None
                         (mkWorld (<[l := written_back e v]> (heap w))
                                  (update_rows args t) (rest_oracle w) tr)
            end
        end
    end.
Proof.
  intros Hl e t args tr.
  unfold Update, mbind, M_bind, mret, M_ret.
  rewrite next_env_eq. fold e. fold t.
  unfold load; simpl. rewrite Hl.
  destruct (env_bind e); [reflexivity|].
  unfold ExecContext_update; simpl. fold args.
  change (with_Updated (env_now e) (with_Version (Int64.incr (Version v)) v)) with args.
  destruct (env_exec e); [reflexivity|].
  unfold RowsAffected.
  destruct (env_result e); [reflexivity|].
  destruct (rows_affected args t =? 0); [reflexivity|].
  simpl. rewrite Hl. unfold store; simpl. rewrite Hl. reflexivity.
Qed.

Lemma rows_affected_zero (args : Pipeline) (t : list Pipeline) :
  (rows_affected args t =? 0) = true <-> List.filter (update_matches args) t = [].
Proof.
  unfold rows_affected. rewrite Z.eqb_eq.
  destruct (List.filter (update_matches args) t); simpl; split; intros H;
    try reflexivity; try discriminate; lia.
Qed.

Lemma update_rows_no_match (args : Pipeline) (t : list Pipeline) :
  List.filter (update_matches args) t = [] -> update_rows args t = t.
Proof.
  unfold update_rows. induction t as [|r t IH]; simpl; [reflexivity|].
  destruct (update_matches args r); [discriminate|].
  intros H. rewrite IH by exact H. reflexivity.
Qed.


Lemma processSQLErrorf_not_conflict (d : DriverError) (msg : string) :
  errors_Is (processSQLErrorf d msg) ErrVersionConflict = false.
Proof. destruct d; reflexivity. Qed.

Lemma processSQLErrorf_neq_conflict (d : DriverError) (msg : string) :
  processSQLErrorf d msg <> ErrVersionConflict.
Proof. destruct d; discriminate. Qed.



Lemma load_eq (w : World) (l : nat) (v : Pipeline) :
  heap w !! l = Some v -> load (Some l) w = Ret v w.
Proof. intros H. unfold load. rewrite H. reflexivity. Qed.

Lemma alloc_eq (w : World) (v : Pipeline) :
  alloc v w = Ret (Some (length (heap w))) (with_heap (heap w ++ [v]) w).
Proof. reflexivity. Qed.

Lemma store_eq (w : World) (l : nat) (v0 v : Pipeline) :
  heap w !! l = Some v0 ->
  store (Some l) v w = Ret tt (with_heap (<[l := v]> (heap w)) w).
Proof. intros H. unfold store. rewrite H. reflexivity. Qed.

Lemma lookup_snoc (h : list Pipeline) (v : Pipeline) :
  (h ++ [v]) !! length h = Some v.
Proof. rewrite lookup_app_r by lia. rewrite Nat.sub_diag. reflexivity. Qed.

Lemma insert_snoc (h : list Pipeline) (v v' : Pipeline) :
  <[length h := v']> (h ++ [v]) = h ++ [v'].
Proof. rewrite insert_app_r_alt by lia. rewrite Nat.sub_diag. reflexivity. Qed.

(** [Find] as one case analysis on the environment's decisions. *)
Lemma Find_unfold (w : World) (id : Z) :
  let e := current_env w in
  let t := observed e (table w) in
  let tr := trace w ++ [StmtSelectByID id] in
  Find id w =
    match env_exec e with
    | Some err =>
        Ret (None, Some (processSQLErrorf err "Failed to find pipeline"))
            (mkWorld (heap w ++ [zero_Pipeline]) t (rest_oracle w) tr)
    | None =>
        match List.find (fun r => ID r =? id) t with
        | Some row =>
            Ret (Some (length (heap w)), None)
                (mkWorld (heap w ++ [row]) t (rest_oracle w) tr)
        | None =>
            Ret (None, Some (processSQLErrorf ErrNoRows "Failed to find pipeline"))
                (mkWorld (heap w ++ [zero_Pipeline]) t (rest_oracle w) tr)
        end
    end.
Proof.
  intros e t tr.
  unfold Find, mbind, M_bind, mret, M_ret.
  rewrite next_env_eq. fold e. fold t.
  unfold alloc, GetContext_find; simpl.
  destruct (env_exec e); [reflexivity|].
  destruct (List.find (fun r => ID r =? id) t); [|reflexivity].
  unfold store; simpl.
  rewrite lookup_app_r by lia. rewrite Nat.sub_diag. simpl.
  rewrite insert_app_r_alt by lia. rewrite Nat.sub_diag. reflexivity.
Qed.

(** One iteration of the loop of [UpdateOptLock]. *)
Lemma UpdateOptLock_step (mutateFn : MutateFn) (fuel : nat) (w : World)
      (l : nat) (v : Pipeline) :
  heap w !! l = Some v ->
  let dup := length (heap w) in
  let w1 := with_heap (heap w ++ [fst (mutateFn v)]) w in
  UpdateOptLock (S fuel) (Some l) mutateFn w =
    match snd (mutateFn v) with
    | Some e => Ret (None, Some e) w1
    | None =>
        match Update (Some dup) w1 with
        | Ret None w2 => Ret (Some dup, None) w2
        | Ret (Some e) w2 =>
            if negb (errors_Is e ErrVersionConflict) then Ret (None, Some e) w2
            else
              match Find (ID v) w2 with
              | Ret (_, Some e') w3 => Ret (None, Some e') w3
              | Ret (pipeline', None) w3 => UpdateOptLock fuel pipeline' mutateFn w3
              | Panic => Panic
              | OutOfFuel => OutOfFuel
              end
        | Panic => Panic
        | OutOfFuel => OutOfFuel
        end
    end.
Proof.
  intros Hl dup w1.
  cbn [UpdateOptLock]. unfold mbind, M_bind, mret, M_ret.
  rewrite (load_eq w l v Hl). rewrite alloc_eq.
  unfold call_mutate, mbind, M_bind, mret, M_ret.
  rewrite (load_eq _ (length (heap w)) v) by (apply lookup_snoc).
  rewrite (store_eq _ (length (heap w)) v) by (apply lookup_snoc).
  unfold with_heap; cbn [heap table oracle trace].
  rewrite insert_snoc.
  change (mkWorld (heap w ++ [fst (mutateFn v)]) (table w) (oracle w) (trace w))
    with w1.
  fold dup.
  destruct (snd (mutateFn v)); [reflexivity|].
  assert (Hd : heap w1 !! dup = Some (fst (mutateFn v))) by apply lookup_snoc.
  assert (Hl1 : heap w1 !! l = Some v).
  { unfold w1, with_heap; simpl.
    rewrite lookup_app_l by (eapply lookup_lt_Some; eauto). exact Hl. }
  pose proof (Update_unfold w1 dup _ Hd) as HU. cbv zeta in HU.
  destruct (Update (Some dup) w1) as [[e|] w2| |] eqn:EU; try reflexivity.
  destruct (negb (errors_Is e ErrVersionConflict)); [reflexivity|].
  assert (Hl2 : heap w2 !! l = Some v).
  { revert HU.
    repeat match goal with
           | |- context [match ?x with _ => _ end] => destruct x
           end;
      intros H; inversion H; subst; simpl; exact Hl1. }
  rewrite (load_eq w2 l v Hl2).
  destruct (Find (ID v) w2) as [[p' [e'|]] w3| |]; reflexivity.
Qed.

(** What a call of [Update] through a valid pointer can do to the world:
    it returns; it touches no struct but the caller's; it sends its one
    statement unless binding failed, and always when it reports a
    conflict or succeeds. *)
Lemma Update_effect (w : World) (l : nat) (v : Pipeline) :
  heap w !! l = Some v ->
  let e := current_env w in
  exists (err : option error) (w' : World) (y : Pipeline),
    Update (Some l) w = Ret err w' /\
    heap w' = <[l := y]> (heap w) /\
    (err = None -> y = written_back e v) /\
    (err <> None -> y = v) /\
    (trace w' = trace w \/ trace w' = trace w ++ [StmtUpdate (bound_args e v)]) /\
    (match err with
     | None => True
     | Some x => errors_Is x ErrVersionConflict = true -> x = ErrVersionConflict
     end) /\
    (err = None \/ err = Some ErrVersionConflict ->
     trace w' = trace w ++ [StmtUpdate (bound_args e v)]).
Proof.
  intros Hl e.
  pose proof (Update_unfold w l v Hl) as HU. cbv zeta in HU. fold e in HU.
  assert (Hid : heap w = <[l := v]> (heap w))
    by (symmetry; apply list_insert_id; exact Hl).
  destruct (env_bind e) as [d|].
  { exists (Some (processSQLErrorf d "Failed to bind pipeline object")).
    eexists _, v. split; [exact HU|]. simpl.
    repeat split; auto; try discriminate; try tauto.
    - rewrite processSQLErrorf_not_conflict. discriminate.
    - intros [H|H]; [discriminate|]. inversion H as [H'].
      exfalso; revert H'; apply processSQLErrorf_neq_conflict. }
  destruct (env_exec e) as [d|].
  { exists (Some (processSQLErrorf d "Failed to update pipeline")).
    eexists _, v. split; [exact HU|]. simpl.
    repeat split; auto; try discriminate; try tauto.
    rewrite processSQLErrorf_not_conflict. discriminate. }
  destruct (env_result e) as [d|].
  { exists (Some (processSQLErrorf d "Failed to get number of updated rows")).
    eexists _, v. split; [exact HU|]. simpl.
    repeat split; auto; try discriminate; try tauto.
    rewrite processSQLErrorf_not_conflict. discriminate. }
  destruct (rows_affected _ _ =? 0).
  - exists (Some ErrVersionConflict). eexists _, v. split; [exact HU|]. simpl.
    repeat split; auto; try discriminate; try tauto.
  - exists None. eexists _, (written_back e v). split; [exact HU|]. simpl.
    repeat split; auto; try discriminate; try tauto.
Qed.

(** What a call of [Find] can do to the world: it returns, allocates one
    struct, sends its one statement; on success the result points to the
    new struct. *)
Lemma Find_effect (w : World) (id : Z) :
  exists (p : ptr) (err : option error) (w' : World) (x : Pipeline),
    Find id w = Ret (p, err) w' /\
    heap w' = heap w ++ [x] /\
    trace w' = trace w ++ [StmtSelectByID id] /\
    (err = None -> p = Some (length (heap w))).
Proof.
  pose proof (Find_unfold w id) as HF. cbv zeta in HF.
  destruct (env_exec _).
  { eexists _, _, _, _. split; [exact HF|]. simpl. repeat split. discriminate. }
  destruct (List.find _ _).
  - eexists _, _, _, _. split; [exact HF|]. simpl. repeat split.
  - eexists _, _, _, _. split; [exact HF|]. simpl. repeat split. discriminate.
Qed.

(** Whenever [UpdateOptLock] returns, the structs that existed before the
    call are as they were (new ones were appended), and the statements it
    sent form rounds of "update, select by id" with at most one closing
    update. *)
Lemma UpdateOptLock_run (mutateFn : MutateFn) (fuel : nat) :
  forall (l : nat) (v : Pipeline) (w : World) r (w' : World),
    heap w !! l = Some v ->
    UpdateOptLock fuel (Some l) mutateFn w = Ret r w' ->
    (exists ext, heap w' = heap w ++ ext) /\
    (exists evs, trace w' = trace w ++ evs /\ optlock_trace evs).
Proof.
  induction fuel as [|fuel IH]; intros l v w r w' Hl Hrun; [discriminate|].
  rewrite (UpdateOptLock_step mutateFn fuel w l v Hl) in Hrun. cbv zeta in Hrun.
  set (w1 := with_heap (heap w ++ [fst (mutateFn v)]) w) in *.
  destruct (snd (mutateFn v)) as [e|].
  { inversion Hrun; subst. split.
    - eexists. reflexivity.
    - exists []. split; [simpl; rewrite app_nil_r; reflexivity | constructor]. }
  assert (Hd : heap w1 !! length (heap w) = Some (fst (mutateFn v)))
    by apply lookup_snoc.
  destruct (Update_effect w1 _ _ Hd)
    as (err & w2 & y & HU & Hh2 & _ & _ & Htr & HVC & Hsent).
  rewrite HU in Hrun.
  assert (Hh2' : heap w2 = heap w ++ [y]).
  { rewrite Hh2. unfold w1, with_heap; simpl. apply insert_snoc. }
  change (trace w1) with (trace w) in *.
  destruct err as [x|].
  2:{ inversion Hrun; subst. split.
      - eexists; exact Hh2'.
      - eexists. split; [apply Hsent; auto | constructor]. }
  destruct (errors_Is x ErrVersionConflict) eqn:Eis; simpl in Hrun.
  2:{ inversion Hrun; subst. split.
      - eexists; exact Hh2'.
      - destruct Htr as [Htr|Htr]; rewrite Htr.
        + exists []. split; [rewrite app_nil_r; reflexivity | constructor].
        + eexists. split; [reflexivity | constructor]. }
  specialize (HVC eq_refl). subst x.
  rewrite Hsent in * by auto. clear Htr.
  destruct (Find_effect w2 (ID v)) as (p & err2 & w3 & z & HF & Hh3 & Htr3 & Hp).
  rewrite HF in Hrun.
  destruct err2 as [e2|].
  { inversion Hrun; subst. split.
    - rewrite Hh3, Hh2', <- app_assoc. eexists; reflexivity.
    - rewrite Htr3, Hsent, <- app_assoc by auto.
      eexists. split; [reflexivity|]. simpl. constructor. constructor. }
  rewrite (Hp eq_refl) in Hrun.
  assert (Hz : heap w3 !! length (heap w2) = Some z)
    by (rewrite Hh3; apply lookup_snoc).
  destruct (IH _ _ _ _ _ Hz Hrun) as [[ext Hext] [evs [Hevs Hot]]].
  split.
  - rewrite Hext, Hh3, Hh2', <- !app_assoc. eexists; reflexivity.
  - rewrite Hevs, Htr3, Hsent, <- !app_assoc by auto.
    eexists. split; [reflexivity|]. simpl. constructor. exact Hot.
Qed.

(** A successful [Find] hands out a new struct that holds the first row
    with the requested key, as the table is at the time of the call. *)
Lemma Find_success (w : World) (id : Z) (p : ptr) (w' : World) :
  Find id w = Ret (p, None) w' ->
  exists row,
    p = Some (length (heap w)) /\
    heap w' = heap w ++ [row] /\
    table w' = observed (current_env w) (table w) /\
    List.find (fun r => ID r =? id) (table w') = Some row.
Proof.
  rewrite Find_unfold. cbv zeta.
  destruct (env_exec _); [discriminate|].
  destruct (List.find _ _) as [row|] eqn:E; [|discriminate].
  intros H; inversion H; subst; simpl. exists row. auto.
Qed.

(** C2.  The protocol of [UpdateOptLock], for a call through a valid
    pointer [l] to the struct [v].
    - Whenever the call returns, the caller's struct is as it was: all
      mutation went to private copies, allocated after the structs that
      existed before the call; the statements sent form rounds of
      "update, select by id" with at most one closing update.
    - If the callback fails, its error is returned at once and no
      statement is sent.
    - Otherwise the copy is written with [Update]: on success the copy is
      returned; on an error that is not a version conflict that error is
      returned, with no further statement; on a version conflict the
      row is read again with [Find], whose error is returned if it fails
      and whose fresh struct is otherwise the input of the next round. *)
Theorem UpdateOptLock_protocol (mutateFn : MutateFn) (fuel : nat)
        (w : World) (l : nat) (v : Pipeline) :
  heap w !! l = Some v ->
  let dup := length (heap w) in
  let w1 := with_heap (heap w ++ [fst (mutateFn v)]) w in
  (forall r w',
      UpdateOptLock fuel (Some l) mutateFn w = Ret r w' ->
      heap w' !! l = Some v /\
      (exists ext, heap w' = heap w ++ ext) /\
      (exists evs, trace w' = trace w ++ evs /\ optlock_trace evs)) /\
  (forall e,
      snd (mutateFn v) = Some e ->
      UpdateOptLock (S fuel) (Some l) mutateFn w = Ret (None, Some e) w1 /\
      table w1 = table w /\ trace w1 = trace w /\ oracle w1 = oracle w) /\
  (snd (mutateFn v) = None ->
   exists (err : option error) (w2 : World),
     Update (Some dup) w1 = Ret err w2 /\
     match err with
     | None =>
         UpdateOptLock (S fuel) (Some l) mutateFn w = Ret (Some dup, None) w2 /\
         heap w2 !! dup = Some (written_back (current_env w) (fst (mutateFn v)))
     | Some e =>
         if errors_Is e ErrVersionConflict then
           e = ErrVersionConflict /\
           exists (p : ptr) (err' : option error) (w3 : World),
             Find (ID v) w2 = Ret (p, err') w3 /\
             trace w3 = trace w ++
               [StmtUpdate (bound_args (current_env w) (fst (mutateFn v)));
                StmtSelectByID (ID v)] /\
             match err' with
             | Some e' =>
                 UpdateOptLock (S fuel) (Some l) mutateFn w = Ret (None, Some e') w3
             | None =>
                 UpdateOptLock (S fuel) (Some l) mutateFn w =
                   UpdateOptLock fuel p mutateFn w3 /\
                 exists row,
                   p = Some (length (heap w2)) /\
                   heap w3 !! length (heap w2) = Some row /\
                   List.find (fun r => ID r =? ID v) (table w3) = Some row
             end
         else
           UpdateOptLock (S fuel) (Some l) mutateFn w = Ret (None, Some e) w2
     end).
Proof.
  intros Hl dup w1. split; [|split].
  - intros r w' Hrun.
    destruct (UpdateOptLock_run mutateFn fuel l v w r w' Hl Hrun) as [[ext Hext] Htr].
    split; [|split; [exists ext; exact Hext | exact Htr]].
    rewrite Hext. rewrite lookup_app_l by (eapply lookup_lt_Some; eauto). exact Hl.
  - intros e He. rewrite (UpdateOptLock_step mutateFn fuel w l v Hl). cbv zeta.
    rewrite He. auto.
  - intros Hnone.
    assert (Hd : heap w1 !! dup = Some (fst (mutateFn v))) by apply lookup_snoc.
    destruct (Update_effect w1 _ _ Hd)
      as (err & w2 & y & HU & Hh2 & Hok & _ & _ & HVC & Hsent).
    change (current_env w1) with (current_env w) in *.
    change (trace w1) with (trace w) in *.
    exists err, w2. split; [exact HU|].
    rewrite (UpdateOptLock_step mutateFn fuel w l v Hl). cbv zeta.
    rewrite Hnone. fold w1. fold dup. rewrite HU.
    destruct err as [e|].
    + destruct (errors_Is e ErrVersionConflict) eqn:Eis; simpl; [|reflexivity].
      specialize (HVC eq_refl). subst e. split; [reflexivity|].
      destruct (Find_effect w2 (ID v)) as (p & err2 & w3 & z & HF & Hh3 & Htr3 & Hp).
      exists p, err2, w3. split; [exact HF|].
      split.
      { rewrite Htr3, Hsent by auto. rewrite <- app_assoc. reflexivity. }
      rewrite HF. destruct err2 as [e2|]; [reflexivity|].
      split; [reflexivity|].
      destruct (Find_success _ _ _ _ HF) as (row & Hp' & Hh3' & _ & Hfind).
      exists row. split; [exact Hp'|]. split; [|exact Hfind].
      rewrite Hh3'. apply lookup_snoc.
    + split; [reflexivity|].
      rewrite Hh2, (Hok eq_refl). apply list_lookup_insert_eq.
      eapply lookup_lt_Some; exact Hd.
Qed.

(** One iteration of the loop of [IncrementSeqNum]. *)
Lemma IncrementSeqNum_step (fuel : nat) (w : World) (l : nat) (v : Pipeline) :
  heap w !! l = Some v ->
  let w1 := with_heap (<[l := with_Seq (Int64.incr (Seq v)) v]> (heap w)) w in
  IncrementSeqNum (S fuel) (Some l) w =
    match Update (Some l) w1 with
    | Ret None w2 => Ret (Some l, None) w2
    | Ret (Some e) w2 =>
        if negb (errors_Is e ErrVersionConflict)
        then Ret (Some l, Some (Wrapped incrementMsg e)) w2
        else
          match Find (ID v) w2 with
          | Ret (_, Some e') w3 => Ret (None, Some (Wrapped incrementMsg e')) w3
          | Ret (pipeline', None) w3 => IncrementSeqNum fuel pipeline' w3
          | Panic => Panic
          | OutOfFuel => OutOfFuel
          end
    | Panic => Panic
    | OutOfFuel => OutOfFuel
    end.
Proof.
  intros Hl w1.
  cbn [IncrementSeqNum]. unfold increment_attempt, increment_refresh.
  unfold mbind, M_bind, mret, M_ret.
  rewrite (load_eq w l v Hl). rewrite (store_eq w l v _ Hl). fold w1.
  assert (Hl1 : heap w1 !! l = Some (with_Seq (Int64.incr (Seq v)) v)).
  { unfold w1, with_heap; simpl. apply list_lookup_insert_eq.
    eapply lookup_lt_Some; exact Hl. }
  destruct (Update_effect w1 l _ Hl1)
    as (err & w2 & y & HU & Hh2 & _ & Hfail & _).
  rewrite HU.
  destruct err as [e|]; [|reflexivity].
  destruct (negb (errors_Is e ErrVersionConflict)); [reflexivity|].
  assert (Hl2 : heap w2 !! l = Some (with_Seq (Int64.incr (Seq v)) v)).
  { rewrite Hh2, Hfail by discriminate. rewrite list_insert_id; exact Hl1. }
  rewrite (load_eq w2 l _ Hl2). cbn [ID with_Seq].
  destruct (Find (ID v) w2) as [[p' [e'|]] w3| |]; reflexivity.
Qed.

(** [Update] reads nothing of the heap but the caller's struct: from two
    worlds with the same storage and the same struct behind the pointers
    it returns the same error and leaves the same storage. *)
Lemma Update_same_storage (wa wb : World) (la lb : nat) (x : Pipeline) :
  heap wa !! la = Some x ->
  heap wb !! lb = Some x ->
  same_storage wa wb ->
  exists (err : option error) (wa' wb' : World) (y : Pipeline),
    Update (Some la) wa = Ret err wa' /\
    Update (Some lb) wb = Ret err wb' /\
    same_storage wa' wb' /\
    heap wa' = <[la := y]> (heap wa) /\
    heap wb' = <[lb := y]> (heap wb) /\
    (err <> None -> y = x).
Proof.
  intros Ha Hb (Ht & Ho & Htr).
  pose proof (Update_unfold wa la x Ha) as HA.
  pose proof (Update_unfold wb lb x Hb) as HB. cbv zeta in HA, HB.
  assert (He : current_env wb = current_env wa)
    by (unfold current_env; rewrite Ho; reflexivity).
  assert (Hr : rest_oracle wb = rest_oracle wa)
    by (unfold rest_oracle; rewrite Ho; reflexivity).
  rewrite He, Hr, <- Ht, <- Htr in HB.
  assert (Ia : heap wa = <[la := x]> (heap wa))
    by (symmetry; apply list_insert_id; exact Ha).
  assert (Ib : heap wb = <[lb := x]> (heap wb))
    by (symmetry; apply list_insert_id; exact Hb).
  destruct (env_bind (current_env wa)).
  { eexists _, _, _, x. split; [exact HA|]. split; [exact HB|]. unfold same_storage; simpl; auto. }
  destruct (env_exec (current_env wa)).
  { eexists _, _, _, x. split; [exact HA|]. split; [exact HB|]. unfold same_storage; simpl; auto. }
  destruct (env_result (current_env wa)).
  { eexists _, _, _, x. split; [exact HA|]. split; [exact HB|]. unfold same_storage; simpl; auto. }
  destruct (rows_affected _ _ =? 0).
  { eexists _, _, _, x. split; [exact HA|]. split; [exact HB|]. unfold same_storage; simpl; auto. }
  eexists _, _, _, _. split; [exact HA|]. split; [exact HB|].
  unfold same_storage; simpl. repeat split; auto. congruence.
Qed.

(** The same for [Find]. *)
Lemma Find_same_storage (wa wb : World) (id : Z) :
  same_storage wa wb ->
  exists (err : option error) (pa pb : ptr) (wa' wb' : World) (x : Pipeline),
    Find id wa = Ret (pa, err) wa' /\
    Find id wb = Ret (pb, err) wb' /\
    same_storage wa' wb' /\
    heap wa' = heap wa ++ [x] /\
    heap wb' = heap wb ++ [x] /\
    (err = None -> pa = Some (length (heap wa)) /\ pb = Some (length (heap wb))).
Proof.
  intros (Ht & Ho & Htr).
  pose proof (Find_unfold wa id) as HA.
  pose proof (Find_unfold wb id) as HB. cbv zeta in HA, HB.
  assert (He : current_env wb = current_env wa)
    by (unfold current_env; rewrite Ho; reflexivity).
  assert (Hr : rest_oracle wb = rest_oracle wa)
    by (unfold rest_oracle; rewrite Ho; reflexivity).
  rewrite He, Hr, <- Ht, <- Htr in HB.
  destruct (env_exec (current_env wa)).
  { eexists _, _, _, _, _, _. split; [exact HA|]. split; [exact HB|].
    unfold same_storage; simpl. repeat split; auto; discriminate. }
  destruct (List.find _ _).
  - eexists _, _, _, _, _, _. split; [exact HA|]. split; [exact HB|].
    unfold same_storage; simpl. repeat split; auto.
  - eexists _, _, _, _, _, _. split; [exact HA|]. split; [exact HB|].
    unfold same_storage; simpl. repeat split; auto; discriminate.
Qed.

(** The two loops in lock step, from worlds with the same storage and
    pointers to structs with the same contents. *)
Lemma IncrementSeqNum_simulates (fuel : nat) :
  forall (wa wb : World) (la lb : nat) (v : Pipeline),
    heap wa !! la = Some v ->
    heap wb !! lb = Some v ->
    same_storage wa wb ->
    increment_outcome (IncrementSeqNum fuel (Some la) wa)
                      (UpdateOptLock fuel (Some lb) incrementSeq wb).
Proof.
  induction fuel as [|fuel IH]; intros wa wb la lb v Ha Hb Hs; [exact I|].
  rewrite (IncrementSeqNum_step fuel wa la v Ha).
  rewrite (UpdateOptLock_step incrementSeq fuel wb lb v Hb). cbv zeta.
  cbn [incrementSeq fst snd].
  set (v1 := with_Seq (Int64.incr (Seq v)) v).
  set (wa1 := with_heap (<[la := v1]> (heap wa)) wa).
  set (wb1 := with_heap (heap wb ++ [v1]) wb).
  assert (Ha1 : heap wa1 !! la = Some v1).
  { unfold wa1, with_heap; simpl. apply list_lookup_insert_eq.
    eapply lookup_lt_Some; exact Ha. }
  assert (Hb1 : heap wb1 !! length (heap wb) = Some v1) by apply lookup_snoc.
  assert (Hs1 : same_storage wa1 wb1) by exact Hs.
  destruct (Update_same_storage wa1 wb1 _ _ v1 Ha1 Hb1 Hs1)
    as (err & wa2 & wb2 & y & HUa & HUb & Hs2 & Hha & Hhb & Hy).
  rewrite HUa, HUb.
  assert (Hya : heap wa2 !! la = Some y).
  { rewrite Hha. apply list_lookup_insert_eq. eapply lookup_lt_Some; exact Ha1. }
  assert (Hyb : heap wb2 !! length (heap wb) = Some y).
  { rewrite Hhb. apply list_lookup_insert_eq. eapply lookup_lt_Some; exact Hb1. }
  destruct err as [e|].
  2:{ split; [exact Hs2|]. exists y. simpl. auto. }
  destruct (negb (errors_Is e ErrVersionConflict)).
  { split; [exact Hs2|]. auto. }
  destruct (Find_same_storage wa2 wb2 (ID v) Hs2)
    as (err' & pa & pb & wa3 & wb3 & z & HFa & HFb & Hs3 & Hza & Hzb & Hp).
  rewrite HFa, HFb.
  destruct err' as [e'|].
  { split; [exact Hs3|]. auto. }
  destruct (Hp eq_refl) as [-> ->].
  apply IH with (v := z); [| | exact Hs3].
  - rewrite Hza. apply lookup_snoc.
  - rewrite Hzb. apply lookup_snoc.
Qed.

(** [IncrementSeqNum] works on the caller's struct itself: when it
    returns, the struct has been overwritten with an incremented [Seq],
    the other structs that existed are as they were. *)
Lemma IncrementSeqNum_in_place (fuel : nat) :
  forall (w : World) (l : nat) (v : Pipeline) r (w' : World),
    heap w !! l = Some v ->
    IncrementSeqNum fuel (Some l) w = Ret r w' ->
    exists (v' : Pipeline) (ext : list Pipeline),
      heap w' = <[l := v']> (heap w) ++ ext /\
      Seq v' = Int64.incr (Seq v).
Proof.
  induction fuel as [|fuel IH]; intros w l v r w' Hl Hrun; [discriminate|].
  rewrite (IncrementSeqNum_step fuel w l v Hl) in Hrun. cbv zeta in Hrun.
  set (v1 := with_Seq (Int64.incr (Seq v)) v) in *.
  set (w1 := with_heap (<[l := v1]> (heap w)) w) in *.
  assert (Hl1 : heap w1 !! l = Some v1).
  { unfold w1, with_heap; simpl. apply list_lookup_insert_eq.
    eapply lookup_lt_Some; exact Hl. }
  destruct (Update_effect w1 l _ Hl1)
    as (err & w2 & y & HU & Hh2 & Hok & Hfail & _).
  rewrite HU in Hrun.
  assert (Hh2' : heap w2 = <[l := y]> (heap w)).
  { rewrite Hh2. unfold w1, with_heap; simpl. apply list_insert_insert_eq. }
  assert (Hseq : Seq y = Int64.incr (Seq v)).
  { destruct err; [rewrite Hfail by discriminate | rewrite Hok by reflexivity];
      reflexivity. }
  destruct err as [e|].
  2:{ inversion Hrun; subst. exists y, []. rewrite app_nil_r. auto. }
  destruct (negb (errors_Is e ErrVersionConflict)).
  { inversion Hrun; subst. exists y, []. rewrite app_nil_r. auto. }
  destruct (Find_effect w2 (ID v)) as (p & err2 & w3 & z & HF & Hh3 & _ & Hp).
  rewrite HF in Hrun.
  destruct err2 as [e2|].
  { inversion Hrun; subst. exists y, [z]. rewrite Hh3, Hh2'. auto. }
  rewrite (Hp eq_refl) in Hrun.
  assert (Hz : heap w3 !! length (heap w2) = Some z)
    by (rewrite Hh3; apply lookup_snoc).
  destruct (IH _ _ _ _ _ Hz Hrun) as (v' & ext & Hext & _).
  exists y, (v' :: ext). split; [|exact Hseq].
  rewrite Hext, Hh3, insert_snoc, Hh2', <- app_assoc. reflexivity.
Qed.

(** C3, as amended.  Run from the same state through a valid pointer,
    [IncrementSeqNum] and [UpdateOptLock] with the mutation
    [incrementSeq] send the same statements, read the clock alike and
    leave the same table; both succeed or both fail (or both are still
    looping); on success the returned structs have the same contents; on
    failure [IncrementSeqNum] returns the error of [UpdateOptLock]
    wrapped with [incrementMsg].  [UpdateOptLock] leaves the caller's
    struct alone, [IncrementSeqNum] overwrites it with an incremented
    [Seq]. *)
Theorem IncrementSeqNum_vs_UpdateOptLock (fuel : nat) (w : World)
        (l : nat) (v : Pipeline) :
  heap w !! l = Some v ->
  increment_outcome (IncrementSeqNum fuel (Some l) w)
                    (UpdateOptLock fuel (Some l) incrementSeq w) /\
  (forall r w', UpdateOptLock fuel (Some l) incrementSeq w = Ret r w' ->
                heap w' !! l = Some v) /\
  (forall r w', IncrementSeqNum fuel (Some l) w = Ret r w' ->
                exists v', heap w' !! l = Some v' /\
                           Seq v' = Int64.incr (Seq v)).
Proof.
  intros Hl. split; [|split].
  - apply IncrementSeqNum_simulates with (v := v); try exact Hl.
    unfold same_storage; auto.
  - intros r w' Hrun.
    destruct (UpdateOptLock_run incrementSeq fuel l v w r w' Hl Hrun) as [[ext Hext] _].
    rewrite Hext. rewrite lookup_app_l by (eapply lookup_lt_Some; eauto). exact Hl.
  - intros r w' Hrun.
    destruct (IncrementSeqNum_in_place fuel w l v r w' Hl Hrun) as (v' & ext & Hh & Hs).
    exists v'. split; [|exact Hs]. rewrite Hh.
    rewrite lookup_app_l by (rewrite length_insert; eapply lookup_lt_Some; eauto).
    apply list_lookup_insert_eq. eapply lookup_lt_Some; eauto.
Qed.


Lemma UpdateOptLock_protocol_witness :
  UpdateOptLock 1 (Some 0%nat) Samples.refuse (Samples.one_caller []) =
    Ret (None, Some (Foreign "not allowed"))
        (with_heap [Samples.nightly; Samples.nightly] (Samples.one_caller [])).
Proof.
  exact (proj1 (proj1 (proj2 (UpdateOptLock_protocol Samples.refuse 0
                                (Samples.one_caller []) 0 Samples.nightly eq_refl))
                      (Foreign "not allowed") eq_refl)).
Defined.

(** C3, as stated, fails when the statement of the update cannot be
    executed: [IncrementSeqNum] returns the caller's struct and a
    wrapped error, [UpdateOptLock] returns [nil] and the bare error. *)
Lemma IncrementSeqNum_not_same_outcome :
  ~ same_outcome
      (IncrementSeqNum 1 (Some 0%nat) (Samples.one_caller [Samples.connection_lost]))
      (UpdateOptLock 1 (Some 0%nat) incrementSeq
                     (Samples.one_caller [Samples.connection_lost])).
Proof. vm_compute. intros (H & _). discriminate H. Qed.

Example IncrementSeqNum_on_failure :
  exists w',
    IncrementSeqNum 1 (Some 0%nat) (Samples.one_caller [Samples.connection_lost]) =
      Ret (Some 0%nat,
           Some (Wrapped incrementMsg
                   (Wrapped "Failed to update pipeline" (Foreign "connection reset"))))
          w' /\
    Seq <$> (heap w' !! 0%nat) = Some 6.
Proof. eexists. split; vm_compute; reflexivity. Qed.

Example UpdateOptLock_on_failure :
  exists w',
    UpdateOptLock 1 (Some 0%nat) incrementSeq
                  (Samples.one_caller [Samples.connection_lost]) =
      Ret (None, Some (Wrapped "Failed to update pipeline" (Foreign "connection reset")))
          w' /\
    Seq <$> (heap w' !! 0%nat) = Some 5.
Proof. eexists. split; vm_compute; reflexivity. Qed.

Example UpdateOptLock_callback_conflict :
  UpdateOptLock 1 (Some 0%nat) (fun v => (v, Some ErrVersionConflict))
                (Samples.one_caller []) =
    Ret (None, Some ErrVersionConflict)
        (with_heap [Samples.nightly; Samples.nightly] (Samples.one_caller [])).
Proof. reflexivity. Qed.

Lemma IncrementSeqNum_vs_UpdateOptLock_witness :
  increment_outcome
    (IncrementSeqNum 2 (Some 0%nat) (Samples.one_caller []))
    (UpdateOptLock 2 (Some 0%nat) incrementSeq (Samples.one_caller [])).
Proof.
  exact (proj1 (IncrementSeqNum_vs_UpdateOptLock 2 (Samples.one_caller []) 0
                  Samples.nightly eq_refl)).
Defined.

End PipelineFacts.

(** ** Concurrent callers of [IncrementSeqNum] *)

Module ConcurrentFacts.
Import Errors PipelineStore PipelineFacts.
Local Open Scope list_scope.

(** The steps of a caller are the loop of [IncrementSeqNum]. *)
Lemma IncrementSeqNum_thread_steps (fuel : nat) (pipeline : ptr) (w : World) :
  IncrementSeqNum (S fuel) pipeline w =
    match thread_step (Attempting pipeline) w with
    | Ret (Returned p e) w1 => Ret (p, e) w1
    | Ret (Refreshing p1) w1 =>
        match thread_step (Refreshing p1) w1 with
        | Ret (Returned p e) w2 => Ret (p, e) w2
        | Ret (Attempting p2) w2 => IncrementSeqNum fuel p2 w2
        | Ret (Refreshing _) _ => Panic
        | Panic => Panic
        | OutOfFuel => OutOfFuel
        end
    | Ret (Attempting _) _ => Panic
    | Panic => Panic
    | OutOfFuel => OutOfFuel
    end.
Proof.
  cbn [IncrementSeqNum thread_step]. unfold mbind, M_bind, mret, M_ret.
  destruct (increment_attempt pipeline w) as [[e|] w1| |]; try reflexivity.
  destruct (negb (errors_Is e ErrVersionConflict)); [reflexivity|].
  destruct (increment_refresh pipeline w1) as [[p' [e'|]] w2| |]; reflexivity.
Qed.

Lemma filter_andb {A} (f g : A -> bool) (l : list A) :
  List.filter (fun x => f x && g x) l = List.filter g (List.filter f l).
Proof.
  induction l as [|a l IH]; simpl; [reflexivity|].
  destruct (f a); simpl; [destruct (g a)|]; rewrite IH; reflexivity.
Qed.

Lemma rows_of_update_rows (id : Z) (args : Pipeline) (t : list Pipeline) :
  rows_of id (update_rows args t) =
  map (fun r => if update_matches args r then update_set args r else r)
      (rows_of id t).
Proof.
  unfold rows_of, update_rows.
  induction t as [|r t IH]; simpl; [reflexivity|].
  assert (Hid : ID (if update_matches args r then update_set args r else r) = ID r)
    by (destruct (update_matches args r); reflexivity).
  rewrite Hid. destruct (ID r =? id); simpl; rewrite IH; reflexivity.
Qed.

Lemma rows_of_find (id : Z) (t : list Pipeline) (r : Pipeline) :
  rows_of id t = [r] -> List.find (fun x => ID x =? id) t = Some r.
Proof.
  unfold rows_of. induction t as [|a t IH]; simpl; [discriminate|].
  destruct (ID a =? id); [congruence | exact IH].
Qed.

Lemma rows_of_ID (id : Z) (t : list Pipeline) (r : Pipeline) :
  rows_of id t = [r] -> ID r = id.
Proof.
  intros H. assert (Hin : In r (rows_of id t)) by (rewrite H; left; reflexivity).
  unfold rows_of in Hin. apply List.filter_In in Hin as [_ Hid].
  apply Z.eqb_eq. exact Hid.
Qed.

Lemma quiet_current (w : World) :
  Forall quiet_env (oracle w) -> quiet_env (current_env w).
Proof.
  unfold current_env. destruct (oracle w) as [|e rest]; intros H.
  - repeat split.
  - inversion H; assumption.
Qed.

Lemma quiet_rest (w : World) :
  Forall quiet_env (oracle w) -> Forall quiet_env (rest_oracle w).
Proof.
  unfold rest_oracle. destruct (oracle w) as [|e rest]; intros H; simpl.
  - constructor.
  - inversion H; assumption.
Qed.

(** An attempt in a quiet world, on a struct whose counters can still
    be incremented: it succeeds if the row has the version of the
    struct and reports a conflict otherwise. *)
Lemma attempt_quiet (w : World) (l : nat) (v r : Pipeline) :
  heap w !! l = Some v ->
  quiet_env (current_env w) ->
  rows_of (ID v) (table w) = [r] ->
  Int64.min_int <= Version v < Int64.max_int ->
  Int64.min_int <= Seq v < Int64.max_int ->
  let e := current_env w in
  let v1 := with_Seq (Seq v + 1) v in
  let args := bound_args e v1 in
  let tr := trace w ++ [StmtUpdate args] in
  thread_step (Attempting (Some l)) w =
    if Version r =? Version v
    then Ret (Returned (Some l) None)
             (mkWorld (<[l := written_back e v1]> (heap w))
                      (update_rows args (table w)) (rest_oracle w) tr)
    else Ret (Refreshing (Some l))
             (mkWorld (<[l := v1]> (heap w)) (table w) (rest_oracle w) tr).
Proof.
  intros Hl (Hc & Hb & Hx & Hr) Hrow Hver Hseq e v1 args tr.
  fold e in Hc, Hb, Hx, Hr.
  cbn [thread_step]. unfold increment_attempt, mbind, M_bind, mret, M_ret.
  rewrite (load_eq w l v Hl), (store_eq w l v _ Hl).
  rewrite Int64_incr_no_overflow by exact Hseq. fold v1.
  set (w1 := with_heap (<[l := v1]> (heap w)) w).
  assert (Hl1 : heap w1 !! l = Some v1).
  { unfold w1, with_heap; simpl. apply list_lookup_insert_eq.
    eapply lookup_lt_Some; exact Hl. }
  rewrite (Update_unfold w1 l v1 Hl1). cbv zeta.
  change (current_env w1) with e. change (table w1) with (table w).
  change (rest_oracle w1) with (rest_oracle w). change (trace w1) with (trace w).
  change (heap w1) with (<[l := v1]> (heap w)).
  fold args. fold tr.
  rewrite Hb, Hx, Hr. unfold observed. rewrite Hc.
  assert (Hm : forall x, update_matches args x = (ID x =? ID v) && (Version x =? Version v)).
  { intros x. unfold args. rewrite update_matches_bound by exact Hver. reflexivity. }
  assert (Hf : List.filter (update_matches args) (table w) =
               List.filter (fun x => Version x =? Version v) [r]).
  { rewrite <- Hrow. unfold rows_of. rewrite <- filter_andb.
    apply List.filter_ext. exact Hm. }
  unfold rows_affected. rewrite Hf. simpl.
  destruct (Version r =? Version v) eqn:E; simpl.
  - rewrite list_insert_insert_eq. reflexivity.
  - rewrite update_rows_no_match; [reflexivity|].
    rewrite Hf. simpl. rewrite E. reflexivity.
Qed.

(** A refresh in a quiet world: a new struct with the row as it is. *)
Lemma refresh_quiet (w : World) (l : nat) (v r : Pipeline) :
  heap w !! l = Some v ->
  quiet_env (current_env w) ->
  rows_of (ID v) (table w) = [r] ->
  thread_step (Refreshing (Some l)) w =
    Ret (Attempting (Some (length (heap w))))
        (mkWorld (heap w ++ [r]) (table w) (rest_oracle w)
                 (trace w ++ [StmtSelectByID (ID v)])).
Proof.
  intros Hl (Hc & _ & Hx & _) Hrow.
  cbn [thread_step]. unfold increment_refresh, mbind, M_bind, mret, M_ret.
  rewrite (load_eq w l v Hl). rewrite Find_unfold. cbv zeta.
  rewrite Hx. unfold observed. rewrite Hc.
  rewrite (rows_of_find _ _ _ Hrow). reflexivity.
Qed.

(** *** Counting the callers that are still in the loop *)

Lemma pending_insert (ts : list Thread) :
  forall (j : nat) (t t' : Thread),
    ts !! j = Some t ->
    (pending (<[j := t']> ts) + (if has_returned t then 0 else 1) =
     pending ts + (if has_returned t' then 0 else 1))%nat.
Proof.
  unfold pending.
  induction ts as [|a ts IH]; intros j t t' Hj; [discriminate|].
  destruct j as [|j]; simpl in *.
  - inversion Hj; subst a.
    destruct (has_returned t), (has_returned t'); simpl; lia.
  - specialize (IH j t t' Hj).
    destruct (has_returned a); simpl; lia.
Qed.

Lemma pending_pos (ts : list Thread) (j : nat) (t : Thread) :
  ts !! j = Some t -> has_returned t = false -> (1 <= pending ts)%nat.
Proof.
  intros Hj Ht.
  pose proof (pending_insert ts j t (Returned None None) Hj) as H.
  rewrite Ht in H. simpl in H. lia.
Qed.

Lemma pending_two (ts : list Thread) (i j : nat) (t t' : Thread) :
  i <> j ->
  ts !! i = Some t -> has_returned t = false ->
  ts !! j = Some t' -> has_returned t' = false ->
  (2 <= pending ts)%nat.
Proof.
  intros Hne Hi Ht Hj Ht'.
  pose proof (pending_insert ts j t' (Returned None None) Hj) as H.
  rewrite Ht' in H. simpl in H.
  assert (Hi' : <[j := Returned None None]> ts !! i = Some t)
    by (rewrite list_lookup_insert_ne by auto; exact Hi).
  pose proof (pending_pos _ _ _ Hi' Ht). lia.
Qed.

Lemma potential_zero (r0 : Pipeline) (s : System) (i : nat) (t : Thread) :
  threads s !! i = Some t -> potential r0 s i = 0%nat -> has_returned t = true.
Proof.
  unfold potential. intros ->. destruct t as [p|p|p e]; [| |reflexivity].
  - destruct (returned_struct p (world s)) as [v|];
      [destruct (Version v =? stored_version r0 s)|]; lia.
  - lia.
Qed.

(** *** The invariant is kept by the steps that change nothing for the
    other callers *)

Lemma thread_inv_frame (r0 r r' : Pipeline) (s s' : System) (i : nat) (t : Thread) :
  thread_inv r0 r s i t ->
  (forall l v, pointer_of t = Some l ->
               heap (world s) !! l = Some v -> heap (world s') !! l = Some v) ->
  (forall x, In x (commits s) -> In x (commits s')) ->
  Seq r <= Seq r' -> Version r <= Version r' ->
  (Version r' = Version r -> Seq r' = Seq r) ->
  thread_inv r0 r' s' i t.
Proof.
  intros Ht Hheap Hcom HS HV HVS.
  destruct t as [[l|]|[l|]|[l|] [e|]]; simpl in *; try contradiction.
  - destruct Ht as (v & Hv & Hid & Hs & Hver & Hfresh).
    exists v. split; [apply Hheap; auto|]. split; [exact Hid|].
    split; [lia|]. split; [lia|]. intros E.
    assert (Version r' = Version r) by lia.
    rewrite HVS by assumption. apply Hfresh. lia.
  - destruct Ht as (v & Hv & Hid). exists v. split; [apply Hheap; auto|exact Hid].
  - destruct Ht as (v & Hv & Hin). exists v. split; [apply Hheap; auto|auto].
Qed.

Lemma thread_inv_pointer (r0 r : Pipeline) (s : System) (i : nat) (t : Thread) :
  thread_inv r0 r s i t ->
  exists l v, pointer_of t = Some l /\ heap (world s) !! l = Some v.
Proof.
  destruct t as [[l|]|[l|]|[l|] [e|]]; simpl; try contradiction.
  - intros (v & Hv & _). eauto.
  - intros (v & Hv & _). eauto.
  - intros (v & Hv & _). eauto.
Qed.

Local Ltac open_inv H :=
  destruct H as (r & k & Hrows & HSeq & HVer & Hcom & Hcount & Hquiet &
                 HminS & HminV & HmaxS & HmaxV & Hthr & Hdist & Hret & Hnd).

(** A caller that is told of a conflict reads the row again. *)
Lemma step_refresh (r0 : Pipeline) (s : System) (j l : nat) :
  invariant r0 s ->
  threads s !! j = Some (Refreshing (Some l)) ->
  exists s',
    sys_step j s = Some s' /\
    invariant r0 s' /\
    length (threads s') = length (threads s) /\
    (forall i, potential r0 s' i <= potential r0 s i)%nat /\
    (potential r0 s' j < potential r0 s j)%nat.
Proof.
  intros Hinv Hj. open_inv Hinv.
  destruct s as [w ts cs]. cbn [world threads commits] in *.
  destruct (Hthr j _ Hj) as (v & Hv & Hid). cbn [world] in Hv.
  pose proof (refresh_quiet w l v r Hv (quiet_current w Hquiet)) as Hstep.
  rewrite Hid in Hstep. specialize (Hstep Hrows).
  set (w' := mkWorld (heap w ++ [r]) (table w) (rest_oracle w)
                     (trace w ++ [StmtSelectByID (ID r0)])) in *.
  set (ts' := <[j := Attempting (Some (length (heap w)))]> ts).
  exists (mkSystem w' ts' cs).
  assert (Hpend : pending ts' = pending ts).
  { pose proof (pending_insert ts j _ (Attempting (Some (length (heap w)))) Hj) as H.
    simpl in H. fold ts' in H. lia. }
  assert (Hheap : forall l' v', heap w !! l' = Some v' -> heap w' !! l' = Some v').
  { intros l' v' H. unfold w'; simpl. apply lookup_app_l_Some. exact H. }
  assert (Hother : forall i, i <> j -> ts' !! i = ts !! i).
  { intros i Hi. unfold ts'. apply list_lookup_insert_ne. auto. }
  assert (Hself : ts' !! j = Some (Attempting (Some (length (heap w))))).
  { unfold ts'. apply list_lookup_insert_eq. eapply lookup_lt_Some; exact Hj. }
  split; [|split; [|split; [|split]]].
  - unfold sys_step. cbn [world threads commits]. rewrite Hj, Hstep.
    cbn [committed_value]. rewrite app_nil_r. reflexivity.
  - exists r, k. cbn [world threads commits].
    split; [exact Hrows|]. split; [exact HSeq|]. split; [exact HVer|].
    split; [exact Hcom|].
    split; [rewrite Hpend; unfold ts'; rewrite length_insert; exact Hcount|].
    split; [apply quiet_rest; exact Hquiet|].
    split; [exact HminS|]. split; [exact HminV|].
    split; [rewrite Hpend; exact HmaxS|]. split; [rewrite Hpend; exact HmaxV|].
    split; [|split; [|split; [|exact Hnd]]].
    + intros i t Hi. destruct (Nat.eq_dec i j) as [->|Hne].
      * rewrite Hself in Hi. inversion Hi; subst t. simpl.
        exists r. split; [apply lookup_snoc|].
        split; [apply rows_of_ID with (t := table w); exact Hrows|]. lia.
      * rewrite (Hother i Hne) in Hi.
        apply thread_inv_frame with (r := r) (s := mkSystem w ts cs);
          auto; try lia.
    + intros i i' t t' l' Hne Hi Hi' Hp.
      destruct (Nat.eq_dec i j) as [->|Hij]; destruct (Nat.eq_dec i' j) as [->|Hi'j];
        try congruence.
      * rewrite Hself in Hi. inversion Hi; subst t. simpl in Hp. inversion Hp; subst l'.
        rewrite (Hother i' Hi'j) in Hi'.
        destruct (thread_inv_pointer _ _ _ _ _ (Hthr _ _ Hi')) as (l2 & v2 & Hp2 & Hv2).
        rewrite Hp2. intros E. inversion E; subst l2.
        apply lookup_lt_Some in Hv2. simpl in Hv2. lia.
      * rewrite Hself in Hi'. inversion Hi'; subst t'. simpl.
        rewrite (Hother i Hij) in Hi.
        destruct (thread_inv_pointer _ _ _ _ _ (Hthr _ _ Hi)) as (l2 & v2 & Hp2 & Hv2).
        rewrite Hp2 in Hp. inversion Hp; subst l2.
        intros E. inversion E; subst l'.
        apply lookup_lt_Some in Hv2. simpl in Hv2. lia.
      * rewrite (Hother i Hij) in Hi. rewrite (Hother i' Hi'j) in Hi'.
        exact (Hdist i i' t t' l' Hne Hi Hi' Hp).
    + intros j' z Hin. destruct (Hret j' z Hin) as (p & Hp).
      exists p. rewrite Hother; [exact Hp|]. intros ->. congruence.
  - unfold ts'. apply length_insert.
  - intros i. unfold potential. cbn [world threads].
    destruct (Nat.eq_dec i j) as [->|Hne].
    + rewrite Hself, Hj, Hpend. cbn [returned_struct]. unfold w' at 1; cbn [heap].
      rewrite lookup_snoc. unfold stored_version. cbn [world]. unfold w'; cbn [table].
      rewrite Hrows, Z.eqb_refl. lia.
    + rewrite (Hother i Hne), Hpend.
      destruct (ts !! i) as [[p|p|p e]|] eqn:Hi; try lia.
      assert (Hs : returned_struct p w' = returned_struct p w).
      { destruct (thread_inv_pointer _ _ _ _ _ (Hthr _ _ Hi)) as (l2 & v2 & Hp2 & Hv2).
        simpl in Hp2, Hv2. subst p. simpl. rewrite Hv2. apply Hheap. exact Hv2. }
      rewrite Hs. unfold stored_version. cbn [world]. unfold w'; cbn [table]. lia.
  - unfold potential. cbn [world threads].
    rewrite Hself, Hj, Hpend. cbn [returned_struct]. unfold w' at 1; cbn [heap].
    rewrite lookup_snoc. unfold stored_version. cbn [world]. unfold w'; cbn [table].
    rewrite Hrows, Z.eqb_refl. lia.
Qed.

(** A caller at the head of the loop increments its copy and tries to
    write it: the write goes through if the copy is current, and is
    refused with a conflict if it is stale. *)
Lemma step_attempt (r0 : Pipeline) (s : System) (j l : nat) :
  invariant r0 s ->
  threads s !! j = Some (Attempting (Some l)) ->
  exists s',
    sys_step j s = Some s' /\
    invariant r0 s' /\
    length (threads s') = length (threads s) /\
    (forall i, potential r0 s' i <= potential r0 s i)%nat /\
    (potential r0 s' j < potential r0 s j)%nat.
Proof.
  intros Hinv Hj. open_inv Hinv.
  destruct s as [w ts cs]. cbn [world threads commits] in *.
  destruct (Hthr j _ Hj) as (v & Hv & Hid & HvS & HvV & Hfresh). cbn [world] in Hv.
  pose proof (pending_pos ts j _ Hj eq_refl) as Hpos.
  assert (Hrows' : rows_of (ID v) (table w) = [r]) by (rewrite Hid; exact Hrows).
  pose proof (attempt_quiet w l v r Hv (quiet_current w Hquiet) Hrows'
                ltac:(lia) ltac:(lia)) as Hstep.
  cbv zeta in Hstep.
  set (e := current_env w) in *.
  set (v1 := with_Seq (Seq v + 1) v) in *.
  set (args := bound_args e v1) in *.
  assert (Hother_heap : forall (x : Pipeline) i t l' v',
             i <> j -> ts !! i = Some t -> pointer_of t = Some l' ->
             heap w !! l' = Some v' -> <[l := x]> (heap w) !! l' = Some v').
  { intros x i t l' v' Hne Hi Hp Hv'.
    rewrite list_lookup_insert_ne; [exact Hv'|].
    intros ->. exact (Hdist i j t _ l' Hne Hi Hj Hp eq_refl). }
  destruct (Version r =? Version v) eqn:E.
  - (* the update goes through *)
    apply Z.eqb_eq in E.
    assert (HSv : Seq v = Seq r) by (apply Hfresh; lia).
    set (v2 := written_back e v1) in *.
    set (w' := mkWorld (<[l := v2]> (heap w)) (update_rows args (table w))
                       (rest_oracle w) (trace w ++ [StmtUpdate args])) in *.
    set (ts' := <[j := Returned (Some l) None]> ts).
    set (r' := update_set args r).
    assert (Hv2 : heap w' !! l = Some v2).
    { unfold w'; simpl. apply list_lookup_insert_eq. eapply lookup_lt_Some; exact Hv. }
    assert (HSv2 : Seq v2 = Seq v + 1) by reflexivity.
    exists (mkSystem w' ts' (cs ++ [(j, Seq v + 1)])).
    assert (Hpend : S (pending ts') = pending ts).
    { pose proof (pending_insert ts j _ (Returned (Some l) None) Hj) as H.
      simpl in H. fold ts' in H. lia. }
    assert (Hother : forall i, i <> j -> ts' !! i = ts !! i).
    { intros i Hi. unfold ts'. apply list_lookup_insert_ne. auto. }
    assert (Hself : ts' !! j = Some (Returned (Some l) None)).
    { unfold ts'. apply list_lookup_insert_eq. eapply lookup_lt_Some; exact Hj. }
    assert (Hmatch : update_matches args r = true).
    { unfold args. rewrite update_matches_bound by (simpl; lia).
      unfold same_version. simpl.
      rewrite (rows_of_ID _ _ _ Hrows'), E, !Z.eqb_refl. reflexivity. }
    assert (Hrows2 : rows_of (ID r0) (table w') = [r']).
    { unfold w'; simpl. rewrite rows_of_update_rows, Hrows. simpl.
      rewrite Hmatch. reflexivity. }
    assert (HSr' : Seq r' = Seq r + 1) by (simpl; lia).
    assert (HVr' : Version r' = Version r + 1).
    { simpl. rewrite Int64_incr_no_overflow by (simpl; lia). simpl. lia. }
    assert (Hnotin : forall z, ~ In (j, z) cs).
    { intros z Hin. destruct (Hret j z Hin) as (p & Hp). congruence. }
    split; [|split; [|split; [|split]]].
    + unfold sys_step. cbn [world threads commits]. rewrite Hj, Hstep.
      cbn [committed_value returned_struct]. rewrite Hv2. reflexivity.
    + exists r', (S k). cbn [world threads commits].
      split; [exact Hrows2|]. split; [lia|]. split; [lia|].
      split.
      { rewrite List.map_app, Hcom, seq_S, List.map_app. simpl.
        f_equal. f_equal. lia. }
      split; [unfold ts' at 2; rewrite length_insert; lia|].
      split; [apply quiet_rest; exact Hquiet|].
      split; [exact HminS|]. split; [exact HminV|].
      split; [lia|]. split; [lia|].
      split; [|split; [|split]].
      * intros i t Hi. destruct (Nat.eq_dec i j) as [->|Hne].
        -- rewrite Hself in Hi. inversion Hi; subst t. simpl.
           exists v2. split; [exact Hv2|]. apply in_or_app. right. left.
           rewrite HSv2. reflexivity.
        -- rewrite (Hother i Hne) in Hi.
           apply thread_inv_frame with (r := r) (s := mkSystem w ts cs);
             auto; try lia.
           ++ intros l' v' Hp Hv'. cbn [world] in *. unfold w'; cbn [heap].
              exact (Hother_heap v2 i t l' v' Hne Hi Hp Hv').
           ++ intros x Hx. cbn [commits] in *. apply in_or_app. left. exact Hx.
      * intros i i' t t' l' Hne Hi Hi' Hp.
        assert (Hpt : forall i t, ts' !! i = Some t ->
                                  exists t0, ts !! i = Some t0 /\
                                             pointer_of t0 = pointer_of t).
        { intros i0 t0 H0. destruct (Nat.eq_dec i0 j) as [->|H0j].
          - rewrite Hself in H0. inversion H0; subst t0. eauto.
          - rewrite (Hother i0 H0j) in H0. eauto. }
        destruct (Hpt _ _ Hi) as (t0 & Ht0 & Hp0).
        destruct (Hpt _ _ Hi') as (t0' & Ht0' & Hp0').
        rewrite <- Hp0'. rewrite <- Hp0 in Hp.
        exact (Hdist i i' t0 t0' l' Hne Ht0 Ht0' Hp).
      * intros j' z Hin. apply in_app_or in Hin as [Hin|[Hin|[]]].
        -- destruct (Hret j' z Hin) as (p & Hp).
           exists p. rewrite Hother; [exact Hp|]. intros ->. congruence.
        -- inversion Hin; subst. eauto.
      * intros j' z z' Hin Hin'.
        apply in_app_or in Hin as [Hin|[Hin|[]]];
          apply in_app_or in Hin' as [Hin'|[Hin'|[]]].
        -- exact (Hnd j' z z' Hin Hin').
        -- inversion Hin'; subst. destruct (Hnotin _ Hin).
        -- inversion Hin; subst. destruct (Hnotin _ Hin').
        -- congruence.
    + unfold ts'. apply length_insert.
    + intros i. unfold potential. cbn [world threads].
      destruct (Nat.eq_dec i j) as [->|Hne].
      * rewrite Hself. lia.
      * rewrite (Hother i Hne).
        destruct (ts !! i) as [[p|p|p e']|] eqn:Hi; try lia.
        pose proof (pending_two ts i j _ _ Hne Hi eq_refl Hj eq_refl).
        destruct (returned_struct p w') as [x|];
          [destruct (Version x =? _)|];
          destruct (returned_struct p w) as [y|];
          try destruct (Version y =? _); lia.
    + unfold potential. cbn [world threads]. rewrite Hself, Hj.
      destruct (returned_struct (Some l) w) as [y|];
        [destruct (Version y =? _)|]; lia.
  - (* the update is refused *)
    apply Z.eqb_neq in E.
    set (w' := mkWorld (<[l := v1]> (heap w)) (table w)
                       (rest_oracle w) (trace w ++ [StmtUpdate args])) in *.
    set (ts' := <[j := Refreshing (Some l)]> ts).
    assert (Hv1 : heap w' !! l = Some v1).
    { unfold w'; simpl. apply list_lookup_insert_eq. eapply lookup_lt_Some; exact Hv. }
    exists (mkSystem w' ts' cs).
    assert (Hpend : pending ts' = pending ts).
    { pose proof (pending_insert ts j _ (Refreshing (Some l)) Hj) as H.
      simpl in H. fold ts' in H. lia. }
    assert (Hother : forall i, i <> j -> ts' !! i = ts !! i).
    { intros i Hi. unfold ts'. apply list_lookup_insert_ne. auto. }
    assert (Hself : ts' !! j = Some (Refreshing (Some l))).
    { unfold ts'. apply list_lookup_insert_eq. eapply lookup_lt_Some; exact Hj. }
    split; [|split; [|split; [|split]]].
    + unfold sys_step. cbn [world threads commits]. rewrite Hj, Hstep.
      cbn [committed_value]. rewrite app_nil_r. reflexivity.
    + exists r, k. cbn [world threads commits].
      split; [exact Hrows|]. split; [exact HSeq|]. split; [exact HVer|].
      split; [exact Hcom|].
      split; [rewrite Hpend; unfold ts'; rewrite length_insert; exact Hcount|].
      split; [apply quiet_rest; exact Hquiet|].
      split; [exact HminS|]. split; [exact HminV|].
      split; [rewrite Hpend; exact HmaxS|]. split; [rewrite Hpend; exact HmaxV|].
      split; [|split; [|split; [|exact Hnd]]].
      * intros i t Hi. destruct (Nat.eq_dec i j) as [->|Hne].
        -- rewrite Hself in Hi. inversion Hi; subst t. simpl.
           exists v1. split; [exact Hv1|exact Hid].
        -- rewrite (Hother i Hne) in Hi.
           apply thread_inv_frame with (r := r) (s := mkSystem w ts cs);
             auto; try lia.
           intros l' v' Hp Hv'. cbn [world] in *. unfold w'; cbn [heap].
           exact (Hother_heap v1 i t l' v' Hne Hi Hp Hv').
      * intros i i' t t' l' Hne Hi Hi' Hp.
        assert (Hpt : forall i t, ts' !! i = Some t ->
                                  exists t0, ts !! i = Some t0 /\
                                             pointer_of t0 = pointer_of t).
        { intros i0 t0 H0. destruct (Nat.eq_dec i0 j) as [->|H0j].
          - rewrite Hself in H0. inversion H0; subst t0. eauto.
          - rewrite (Hother i0 H0j) in H0. eauto. }
        destruct (Hpt _ _ Hi) as (t0 & Ht0 & Hp0).
        destruct (Hpt _ _ Hi') as (t0' & Ht0' & Hp0').
        rewrite <- Hp0'. rewrite <- Hp0 in Hp.
        exact (Hdist i i' t0 t0' l' Hne Ht0 Ht0' Hp).
      * intros j' z Hin. destruct (Hret j' z Hin) as (p & Hp).
        exists p. rewrite Hother; [exact Hp|]. intros ->. congruence.
    + unfold ts'. apply length_insert.
    + intros i. unfold potential. cbn [world threads].
      destruct (Nat.eq_dec i j) as [->|Hne].
      * rewrite Hself, Hj, Hpend. cbn [returned_struct]. rewrite Hv.
        unfold stored_version. cbn [world]. rewrite Hrows.
        destruct (Z.eqb_spec (Version v) (Version r)); [congruence|lia].
      * rewrite (Hother i Hne), Hpend.
        destruct (ts !! i) as [[p|p|p e']|] eqn:Hi; try lia.
        assert (Hs : returned_struct p w' = returned_struct p w).
        { destruct (thread_inv_pointer _ _ _ _ _ (Hthr _ _ Hi)) as (l2 & v2 & Hp2 & Hv2).
          simpl in Hp2, Hv2. subst p. simpl. rewrite Hv2.
          exact (Hother_heap v1 i _ l2 v2 Hne Hi eq_refl Hv2). }
        rewrite Hs. unfold stored_version. cbn [world]. unfold w'; cbn [table]. lia.
    + unfold potential. cbn [world threads].
      rewrite Hself, Hj, Hpend. cbn [returned_struct]. rewrite Hv.
      unfold stored_version. cbn [world]. rewrite Hrows.
      destruct (Z.eqb_spec (Version v) (Version r)); [congruence|lia].
Qed.

(** Any caller may be scheduled: the invariant is kept, no bound on the
    steps that a caller still needs goes up, and the bound of the caller
    that took the step goes down. *)
Lemma step_any (r0 : Pipeline) (s : System) (j : nat) :
  invariant r0 s ->
  exists s',
    sys_step j s = Some s' /\
    invariant r0 s' /\
    length (threads s') = length (threads s) /\
    (forall i, potential r0 s' i <= potential r0 s i)%nat /\
    (potential r0 s j = 0 \/ potential r0 s' j < potential r0 s j)%nat.
Proof.
  intros Hinv.
  destruct (threads s !! j) as [t|] eqn:Hj.
  2:{ exists s. unfold sys_step. rewrite Hj.
      repeat split; auto. left. unfold potential. rewrite Hj. reflexivity. }
  pose proof Hinv as Hinv'. open_inv Hinv'.
  pose proof (Hthr j t Hj) as Ht.
  destruct t as [[l|]|[l|]|[l|] [e|]]; simpl in Ht; try contradiction.
  - destruct (step_attempt r0 s j l Hinv Hj) as (s' & H1 & H2 & H3 & H4 & H5).
    exists s'. auto 7.
  - destruct (step_refresh r0 s j l Hinv Hj) as (s' & H1 & H2 & H3 & H4 & H5).
    exists s'. auto 7.
  - exists s. split.
    + unfold sys_step. rewrite Hj. destruct s as [w ts cs]. cbn in *.
      rewrite app_nil_r, list_insert_id by exact Hj. reflexivity.
    + repeat split; auto. left. unfold potential. rewrite Hj. reflexivity.
Qed.

Lemma occurrences_cons (i j : nat) (schedule : list nat) :
  occurrences i (j :: schedule) =
  ((if Nat.eqb i j then 1 else 0) + occurrences i schedule)%nat.
Proof. unfold occurrences. simpl. destruct (Nat.eqb i j); reflexivity. Qed.

(** Along any schedule the invariant is kept, and every scheduled step
    of a caller uses up one unit of its bound. *)
Lemma run_invariant (r0 : Pipeline) (schedule : list nat) :
  forall s : System,
    invariant r0 s ->
    exists s',
      run schedule s = Some s' /\
      invariant r0 s' /\
      length (threads s') = length (threads s) /\
      (forall i, potential r0 s' i <= potential r0 s i - occurrences i schedule)%nat.
Proof.
  induction schedule as [|j rest IH]; intros s Hinv.
  - exists s. repeat split; auto. intros i. unfold occurrences. simpl. lia.
  - destruct (step_any r0 s j Hinv) as (s1 & Hstep & Hinv1 & Hlen1 & Hle & Hlt).
    destruct (IH s1 Hinv1) as (s' & Hrun & Hinv' & Hlen' & Hpot).
    exists s'. simpl. rewrite Hstep.
    split; [exact Hrun|]. split; [exact Hinv'|]. split; [congruence|].
    intros i. rewrite occurrences_cons. specialize (Hpot i). specialize (Hle i).
    destruct (Nat.eqb_spec i j) as [->|Hne]; lia.
Qed.

Lemma start_lookup (n : nat) (w : World) (i : nat) (t : Thread) :
  threads (start n w) !! i = Some t -> t = Attempting (Some i) /\ (i < n)%nat.
Proof.
  unfold start. cbn [threads].
  change (map (fun i => Attempting (Some i)) (seq 0 n))
    with ((fun i => Attempting (Some i)) <$> seq 0 n).
  rewrite list_lookup_fmap.
  destruct (seq 0 n !! i) as [x|] eqn:E; [|discriminate].
  apply lookup_seq in E as [-> Hlt]. simpl. intros H; inversion H. auto.
Qed.

Lemma start_pending (n : nat) (w : World) :
  pending (threads (start n w)) = n /\ length (threads (start n w)) = n.
Proof.
  unfold start, pending. cbn [threads].
  generalize 0%nat. induction n as [|n IH]; intros b; simpl; [auto|].
  destruct (IH (S b)) as [H1 H2]. rewrite H1, H2. auto.
Qed.

(** The callers start in a state that satisfies the invariant, each
    with a bound of [2 * n - 1] steps. *)
Lemma start_invariant (n : nat) (r0 : Pipeline) (w : World) :
  initial n r0 w ->
  Int64.min_int <= Seq r0 -> Seq r0 + Z.of_nat n <= Int64.max_int ->
  Int64.min_int <= Version r0 -> Version r0 + Z.of_nat n <= Int64.max_int ->
  invariant r0 (start n w) /\
  (forall i, potential r0 (start n w) i <= 2 * n - 1)%nat.
Proof.
  intros (Hrows & Hheap & Hquiet) HminS HmaxS HminV HmaxV.
  destruct (start_pending n w) as [Hpend Hlen].
  split.
  - exists r0, 0%nat. rewrite Hpend, Hlen.
    split; [exact Hrows|]. split; [lia|]. split; [lia|].
    split; [reflexivity|]. split; [lia|]. split; [exact Hquiet|].
    split; [exact HminS|]. split; [exact HminV|].
    split; [lia|]. split; [lia|].
    split; [|split; [|split]].
    + intros i t Hi. apply start_lookup in Hi as [-> Hlt]. simpl.
      exists r0. rewrite Hheap. split; [apply lookup_replicate; auto|].
      split; [reflexivity|]. lia.
    + intros i j t t' l Hne Hi Hj Hp.
      apply start_lookup in Hi as [-> _]. apply start_lookup in Hj as [-> _].
      simpl in *. congruence.
    + intros j z [].
    + intros j z z' [].
  - intros i. unfold potential.
    destruct (threads (start n w) !! i) as [t|] eqn:Hi; [|lia].
    apply start_lookup in Hi as [-> Hlt]. rewrite Hpend.
    cbn [returned_struct start world]. rewrite Hheap.
    rewrite (proj2 (lookup_replicate n r0 r0 i) (conj eq_refl Hlt)).
    unfold stored_version, start. cbn [world]. rewrite Hrows, Z.eqb_refl. lia.
Qed.

Lemma commits_lookup (r0 : Pipeline) (k : nat) (cs : list (nat * Z)) (p : nat) (x : Z) :
  map snd cs = map (fun j => Seq r0 + Z.of_nat j) (seq 1 k) ->
  map snd cs !! p = Some x ->
  x = Seq r0 + Z.of_nat (1 + p) /\ (p < k)%nat.
Proof.
  intros -> H.
  change (map (fun j => Seq r0 + Z.of_nat j) (seq 1 k))
    with ((fun j => Seq r0 + Z.of_nat j) <$> seq 1 k) in H.
  rewrite list_lookup_fmap in H.
  destruct (seq 1 k !! p) as [j|] eqn:E; [|discriminate].
  apply lookup_seq in E as [-> Hlt]. simpl in H. inversion H. auto.
Qed.

Lemma commits_position (cs : list (nat * Z)) (i : nat) (a : Z) :
  In (i, a) cs -> exists p, cs !! p = Some (i, a) /\ map snd cs !! p = Some a.
Proof.
  intros H. apply list_elem_of_In, list_elem_of_lookup in H as [p Hp].
  exists p. split; [exact Hp|].
  change (map snd cs) with (snd <$> cs). rewrite list_lookup_fmap, Hp. reflexivity.
Qed.

(** C7.  [n] callers of [IncrementSeqNum], each with its own fresh copy
    of the one row of a pipeline, run against a store where nothing
    fails and nobody else writes, their store calls interleaved in any
    order [schedule].  The steps that are interleaved are those of
    [IncrementSeqNum]: the function is its attempt, then on a conflict
    its refresh, then itself again, and nothing else.  No step panics.  In the order of the successful
    updates the sequence numbers handed out are the stored number plus
    1, plus 2, and so on: later updates return larger numbers and no two
    callers receive the same.  No call fails, and a caller that is
    scheduled [2 * n - 1] times has returned.  For two callers starting
    from [Seq = 5], each scheduled three times: the stored number ends
    at 7 and the callers hold 6 and 7, in one order or the other. *)
Theorem concurrent_IncrementSeqNum
        (n : nat) (r0 : Pipeline) (w : World) (schedule : list nat) :
  initial n r0 w ->
  Int64.min_int <= Seq r0 -> Seq r0 + Z.of_nat n <= Int64.max_int ->
  Int64.min_int <= Version r0 -> Version r0 + Z.of_nat n <= Int64.max_int ->
  (forall (fuel : nat) (pipeline : ptr) (w0 : World),
      IncrementSeqNum fuel pipeline w0 =
        match fuel with
        | O => OutOfFuel
        | S fuel' =>
            match thread_step (Attempting pipeline) w0 with
            | Ret (Returned p e) w1 => Ret (p, e) w1
            | Ret (Refreshing p1) w1 =>
                match thread_step (Refreshing p1) w1 with
                | Ret (Returned p e) w2 => Ret (p, e) w2
                | Ret (Attempting p2) w2 => IncrementSeqNum fuel' p2 w2
                | Ret (Refreshing _) _ => Panic
                | Panic => Panic
                | OutOfFuel => OutOfFuel
                end
            | Ret (Attempting _) _ => Panic
            | Panic => Panic
            | OutOfFuel => OutOfFuel
            end
        end) /\
  exists s : System,
    run schedule (start n w) = Some s /\
    (exists r, rows_of (ID r0) (table (world s)) = [r] /\
               Seq r = Seq r0 + Z.of_nat (length (commits s)) /\
               Version r = Version r0 + Z.of_nat (length (commits s))) /\
    map snd (commits s) =
      map (fun j => Seq r0 + Z.of_nat j) (seq 1 (length (commits s))) /\
    (forall p q x y,
        (p < q)%nat ->
        map snd (commits s) !! p = Some x ->
        map snd (commits s) !! q = Some y ->
        x < y) /\
    (forall i a, result_of s i = Some a -> In (i, a) (commits s)) /\
    (forall i j a b,
        i <> j -> result_of s i = Some a -> result_of s j = Some b -> a <> b) /\
    (forall i t,
        threads s !! i = Some t -> has_returned t = true ->
        exists a, result_of s i = Some a) /\
    (forall i,
        (i < n)%nat -> (2 * n - 1 <= occurrences i schedule)%nat ->
        exists a, result_of s i = Some a) /\
    (n = 2%nat -> Seq r0 = 5 ->
     (3 <= occurrences 0 schedule)%nat -> (3 <= occurrences 1 schedule)%nat ->
     (exists r, rows_of (ID r0) (table (world s)) = [r] /\ Seq r = 7) /\
     ((result_of s 0 = Some 6 /\ result_of s 1 = Some 7) \/
      (result_of s 0 = Some 7 /\ result_of s 1 = Some 6))).
Proof.
  intros Hinit HminS0 HmaxS0 HminV0 HmaxV0.
  split.
  { intros [|fuel] pipeline w0; [reflexivity|].
    apply IncrementSeqNum_thread_steps. }
  destruct (start_invariant n r0 w Hinit HminS0 HmaxS0 HminV0 HmaxV0) as [Hinv0 Hpot0].
  destruct (run_invariant r0 schedule _ Hinv0) as (s & Hrun & Hinv & Hlen & Hpot).
  rewrite (proj2 (start_pending n w)) in Hlen.
  exists s. split; [exact Hrun|].
  open_inv Hinv.
  assert (Hk : length (commits s) = k).
  { rewrite <- (List.length_map snd), Hcom, List.length_map, List.length_seq.
    reflexivity. }
  assert (Hres : forall i a, result_of s i = Some a -> In (i, a) (commits s)).
  { intros i a. unfold result_of.
    destruct (threads s !! i) as [[p|p|p [e|]]|] eqn:Hi; try discriminate.
    pose proof (Hthr i _ Hi) as Ht. destruct p as [l|]; simpl in Ht; [|contradiction].
    destruct Ht as (v & Hv & Hin). simpl. rewrite Hv. simpl.
    intros H; inversion H; subst a. exact Hin. }
  assert (Hval : forall i t, threads s !! i = Some t -> has_returned t = true ->
                             exists a, result_of s i = Some a).
  { intros i t Hi Ht. unfold result_of. rewrite Hi.
    pose proof (Hthr i t Hi) as Hti.
    destruct t as [p|p|[l|] [e|]]; try discriminate; simpl in Hti; try contradiction.
    destruct Hti as (v & Hv & _). simpl. rewrite Hv. simpl. eauto. }
  assert (Hdistinct : forall i j a b,
             i <> j -> result_of s i = Some a -> result_of s j = Some b -> a <> b).
  { intros i j a b Hne Ha Hb E. subst b.
    apply Hres, commits_position in Ha as (p & Hp & Hpa).
    apply Hres, commits_position in Hb as (q & Hq & Hqa).
    destruct (commits_lookup r0 k _ p a Hcom Hpa) as [Ea _].
    destruct (commits_lookup r0 k _ q a Hcom Hqa) as [Eb _].
    assert (p = q) by lia. subst q. congruence. }
  assert (Hlive : forall i,
             (i < n)%nat -> (potential r0 (start n w) i <= occurrences i schedule)%nat ->
             exists a, result_of s i = Some a).
  { intros i Hi Hocc.
    destruct (lookup_lt_is_Some_2 (threads s) i ltac:(lia)) as [t Ht].
    apply (Hval i t Ht). apply (potential_zero r0 s i t Ht).
    specialize (Hpot i). lia. }
  split; [exists r; rewrite Hk; auto|].
  split; [rewrite Hk; exact Hcom|].
  split.
  { intros p q x y Hpq Hx Hy.
    destruct (commits_lookup r0 k _ p x Hcom Hx) as [-> _].
    destruct (commits_lookup r0 k _ q y Hcom Hy) as [-> _]. lia. }
  split; [exact Hres|]. split; [exact Hdistinct|]. split; [exact Hval|].
  split.
  { intros i Hi Hocc. apply Hlive; [exact Hi|]. specialize (Hpot0 i). lia. }
  intros -> H5 H0 H1.
  destruct (Hlive 0%nat ltac:(lia) ltac:(specialize (Hpot0 0%nat); lia)) as [a Ha].
  destruct (Hlive 1%nat ltac:(lia) ltac:(specialize (Hpot0 1%nat); lia)) as [b Hb].
  assert (Hpend0 : pending (threads s) = 0%nat).
  { pose proof Ha as Ha'. pose proof Hb as Hb'. unfold result_of in Ha', Hb'.
    destruct (threads s) as [|t0 [|t1 [|t2 ts]]]; simpl in Hlen; try lia.
    simpl in Ha', Hb'.
    destruct t0 as [?|?|? ?]; try discriminate.
    destruct t1 as [?|?|? ?]; try discriminate. reflexivity. }
  assert (Hk2 : k = 2%nat) by lia. rewrite Hk2 in *. clear Hk2.
  split; [exists r; split; [exact Hrows|lia]|].
  pose proof (Hdistinct 0%nat 1%nat a b ltac:(lia) Ha Hb) as Hab.
  pose proof (Hres _ _ Ha) as Hina. pose proof (Hres _ _ Hb) as Hinb.
  apply commits_position in Hina as (p & _ & Hpa).
  apply commits_position in Hinb as (q & _ & Hqb).
  destruct (commits_lookup r0 2 _ p a Hcom Hpa) as [Ea Hp].
  destruct (commits_lookup r0 2 _ q b Hcom Hqb) as [Eb Hq].
  assert (Ha6 : a = 6 \/ a = 7) by lia.
  assert (Hb6 : b = 6 \/ b = 7) by lia.
  destruct Ha6 as [-> | ->], Hb6 as [-> | ->]; try contradiction; auto.
Qed.

Lemma concurrent_IncrementSeqNum_witness :
  (exists w1,
      IncrementSeqNum 1 (Some 0%nat) Samples.two_callers = Ret (Some 0%nat, None) w1 /\
      thread_step (Attempting (Some 0%nat)) Samples.two_callers =
        Ret (Returned (Some 0%nat) None) w1) /\
  exists s : System,
    run [0; 1; 1; 0; 1; 0]%nat (start 2 Samples.two_callers) = Some s /\
    ((result_of s 0 = Some 6 /\ result_of s 1 = Some 7) \/
     (result_of s 0 = Some 7 /\ result_of s 1 = Some 6)).
Proof.
  destruct (concurrent_IncrementSeqNum 2 Samples.nightly Samples.two_callers
              [0; 1; 1; 0; 1; 0]%nat ltac:(repeat split; constructor)
              ltac:(unfold Int64.min_int; simpl; lia)
              ltac:(unfold Int64.max_int; simpl; lia)
              ltac:(unfold Int64.min_int; simpl; lia)
              ltac:(unfold Int64.max_int; simpl; lia))
    as (Hsteps & s & Hrun & _ & _ & _ & _ & _ & _ & _ & Hscenario).
  split.
  - pose proof (Hsteps 1%nat (Some 0%nat) Samples.two_callers) as H1.
    assert (Hstep : exists w1,
               thread_step (Attempting (Some 0%nat)) Samples.two_callers =
                 Ret (Returned (Some 0%nat) None) w1)
      by (eexists; vm_compute; reflexivity).
    destruct Hstep as [w1 Hstep]. rewrite Hstep in H1.
    exists w1. split; [exact H1|exact Hstep].
  - exists s. split; [exact Hrun|].
    apply Hscenario; try reflexivity; unfold occurrences; simpl; lia.
Defined.

Example two_callers_run :
  exists s : System,
    run [0; 1; 1; 0; 1; 0]%nat (start 2 Samples.two_callers) = Some s /\
    result_of s 0 = Some 6 /\ result_of s 1 = Some 7 /\
    Seq <$> table (world s) = [7].
Proof. eexists. split; [vm_compute; reflexivity|]. vm_compute. auto. Qed.

End ConcurrentFacts.

(** ** The branch adapter *)

Module AdapterFacts.
Import Errors GoStrings Adapter.

Lemma hex_is_solid (c : ascii) : is_hex_byte c = true -> solid c = true.
Proof.
  destruct c as [[] [] [] [] [] [] [] []]; vm_compute; intros H;
    solve [reflexivity | discriminate H].
Qed.

Lemma all_hex_solid (s : string) :
  all_bytes is_hex_byte s = true -> all_bytes solid s = true.
Proof.
  induction s as [|c s IH]; simpl; [reflexivity|].
  intros H. apply andb_prop in H as [Hc Hs].
  rewrite (hex_is_solid c Hc), (IH Hs). reflexivity.
Qed.

(** The output of the command is blank exactly when nothing is
    reachable. *)
Lemma rev_list_blank (tf tr : string -> string) (reachable : list string) :
  Forall (fun sha => is_object_name sha = true) reachable ->
  TrimSpace tf tr (rev_list_max_count_1 reachable) = "" <-> reachable = [].
Proof.
  intros Hall. destruct reachable as [|sha rest]; simpl.
  - split; reflexivity.
  - split; [|discriminate]. intros H. exfalso.
    inversion Hall as [|? ? Hsha _]; subst.
    unfold is_object_name in Hsha. apply andb_prop in Hsha as [Hne Hhex].
    apply negb_true_iff, String.eqb_neq in Hne.
    revert H. apply GoStringsFacts.TrimSpace_line; [exact Hne|].
    apply all_hex_solid. exact Hhex.
Qed.

(** C10.  For a non-empty [repoPath] and a run of the command that
    succeeds, [HasBranches] returns [true] exactly when the trimmed
    standard output is empty, that is, exactly when no commit is
    reachable from any branch: the opposite of "at least one branch". *)
Theorem HasBranches_true_iff_blank
        (tf tr : string -> string)
        (RunStdBytes : list string -> string -> string * string * option string)
        (processGiteaErrorf : string -> string -> error)
        (repoPath stdout stderr : string) :
  repoPath <> "" ->
  RunStdBytes rev_list_args repoPath = (stdout, stderr, None) ->
  exists b : bool,
    HasBranches tf tr RunStdBytes processGiteaErrorf repoPath = (b, None) /\
    (b = true <-> TrimSpace tf tr stdout = "") /\
    (forall reachable : list string,
        Forall (fun sha => is_object_name sha = true) reachable ->
        stdout = rev_list_max_count_1 reachable ->
        (b = true <-> reachable = []) /\
        (b = false <-> exists sha rest, reachable = sha :: rest)).
Proof.
  intros Hne Hrun.
  exists (String.eqb (TrimSpace tf tr stdout) "").
  split; [|split].
  - unfold HasBranches. apply String.eqb_neq in Hne. rewrite Hne, Hrun.
    reflexivity.
  - apply String.eqb_eq.
  - intros reachable Hall ->.
    pose proof (rev_list_blank tf tr reachable Hall) as Hblank.
    rewrite <- String.eqb_eq in Hblank.
    split; [exact Hblank|].
    destruct (String.eqb _ _).
    + split; [discriminate|]. intros (sha & rest & E).
      destruct Hblank as [Hb _]. rewrite (Hb eq_refl) in E. discriminate.
    + split; [intros _|reflexivity].
      destruct reachable as [|sha rest]; [|eauto].
      destruct Hblank as [_ Hb]. discriminate (Hb eq_refl).
Qed.

Lemma HasBranches_true_iff_blank_witness :
  exists b : bool,
    HasBranches (fun s => s) (fun s => s) Samples.git_one_commit
                Samples.gitea_error "/srv/git/repo1" = (b, None) /\
    (b = true <-> [Samples.a_commit] = []).
Proof.
  destruct (HasBranches_true_iff_blank (fun s => s) (fun s => s)
              Samples.git_one_commit Samples.gitea_error "/srv/git/repo1"
              (rev_list_max_count_1 [Samples.a_commit]) ""
              ltac:(discriminate) eq_refl)
    as (b & Hb & _ & Hgit).
  exists b. split; [exact Hb|].
  apply (Hgit [Samples.a_commit]); [|reflexivity].
  constructor; [reflexivity|constructor].
Defined.

Example HasBranches_without_commits :
  HasBranches (fun s => s) (fun s => s) Samples.git_empty Samples.gitea_error
              "/srv/git/empty" = (true, None).
Proof. reflexivity. Qed.

Example HasBranches_with_a_commit :
  HasBranches (fun s => s) (fun s => s) Samples.git_one_commit Samples.gitea_error
              "/srv/git/repo1" = (false, None).
Proof. reflexivity. Qed.

End AdapterFacts.

(** ** [strconv.ParseInt] on strings of digits *)

Module StrconvFacts.
Import Strconv.

(** The number that a string of decimal digits denotes, continuing from
    [n]. *)
Lemma parse_digits_decimal (s : string) :
  forall n : Z,
    GoStrings.all_bytes is_digit s = true ->
    0 <= n <= maxUint64 ->
    0 <= decimal s n /\
    n <= decimal s n /\
    parse_digits s n =
      if decimal s n <=? maxUint64 then inl (decimal s n) else inr ErrRange.
Proof.
  induction s as [|c s IH]; intros n Hd Hn; simpl.
  - destruct (Z.leb_spec n maxUint64); [|lia]. repeat split; lia.
  - simpl in Hd. apply andb_prop in Hd as [Hc Hs]. rewrite Hc.
    assert (Hdig : 0 <= Z.of_nat (nat_of_ascii c) - 48 <= 9).
    { unfold is_digit in Hc. apply andb_prop in Hc as [H1 H2].
      apply Nat.leb_le in H1, H2. lia. }
    set (d := Z.of_nat (nat_of_ascii c) - 48) in *.
    assert (Hcut : cutoff10 = 1844674407370955162) by reflexivity.
    assert (Hmax : maxUint64 = 18446744073709551615) by reflexivity.
    assert (Hmono : forall m, 0 <= m -> m <= decimal s m).
    { clear -Hs. revert Hs. induction s as [|a s IHs]; simpl; intros Hs m Hm; [lia|].
      apply andb_prop in Hs as [Ha Hs]. unfold is_digit in Ha.
      apply andb_prop in Ha as [H1 H2]. apply Nat.leb_le in H1, H2.
      specialize (IHs Hs (m * 10 + (Z.of_nat (nat_of_ascii a) - 48))). lia. }
    pose proof (Hmono (n * 10 + d) ltac:(lia)) as Hge.
    destruct (Z.leb_spec cutoff10 n) as [Hbig|Hsmall].
    + destruct (Z.leb_spec (decimal s (n * 10 + d)) maxUint64); [lia|].
      repeat split; lia.
    + rewrite (Z.mod_small (n * 10)) by lia.
      destruct (Z_lt_le_dec (n * 10 + d) (2 ^ 64)) as [Hfit|Hover].
      * rewrite (Z.mod_small (n * 10 + d)) by lia.
        destruct (Z.ltb_spec (n * 10 + d) (n * 10)); [lia|].
        destruct (Z.ltb_spec maxUint64 (n * 10 + d)); [lia|]. simpl.
        destruct (IH (n * 10 + d) Hs ltac:(lia)) as (Hd0 & Hd1 & Hd2).
        repeat split; try lia. exact Hd2.
      * replace ((n * 10 + d) mod 2 ^ 64) with (n * 10 + d - 2 ^ 64).
        2:{ apply Z.mod_unique with (q := 1); lia. }
        destruct (Z.ltb_spec (n * 10 + d - 2 ^ 64) (n * 10)); [|lia]. simpl.
        destruct (Z.leb_spec (decimal s (n * 10 + d)) maxUint64); [lia|].
        repeat split; lia.
Qed.

(** [ParseInt] on a non-empty string of digits: its value if that fits
    [int64], a range error otherwise. *)
Lemma ParseInt_digits (s : string) :
  s <> "" ->
  GoStrings.all_bytes is_digit s = true ->
  ParseInt s =
    if decimal s 0 <=? Int64.max_int then inl (decimal s 0) else inr ErrRange.
Proof.
  intros Hne Hd. destruct s as [|c s']; [contradiction|].
  assert (Hsign : Ascii.eqb c "+" || Ascii.eqb c "-" = false).
  { simpl in Hd. apply andb_prop in Hd as [Hc _].
    destruct c as [[] [] [] [] [] [] [] []]; vm_compute in Hc |- *;
      solve [reflexivity | discriminate Hc]. }
  apply orb_false_elim in Hsign as [_ Hminus].
  unfold ParseInt. rewrite Hminus.
  replace (if Ascii.eqb c "+" || false then s' else String c s')
    with (String c s').
  2:{ simpl in Hd. apply andb_prop in Hd as [Hc _].
      destruct (Ascii.eqb c "+") eqn:E; [|reflexivity].
      apply Ascii.eqb_eq in E. subst c. discriminate Hc. }
  unfold ParseUint.
  destruct (parse_digits_decimal (String c s') 0 Hd ltac:(vm_compute; split; discriminate))
    as (H0 & _ & ->).
  assert (Hmax : maxUint64 = 18446744073709551615) by reflexivity.
  assert (Hi : Int64.max_int = 9223372036854775807) by reflexivity.
  set (v := decimal (String c s') 0) in *.
  destruct (Z.leb_spec v maxUint64) as [Hfit|Hover].
  - cbn [negb andb].
    destruct (Z.leb_spec (2 ^ 63) v) as [Hbig|Hsmall].
    + destruct (Z.leb_spec v Int64.max_int); [lia|reflexivity].
    + destruct (Z.leb_spec v Int64.max_int); [|lia].
      rewrite Int64_wrap_in_range; [reflexivity|].
      unfold Int64.min_int, Int64.max_int. lia.
  - cbn [negb andb].
    destruct (Z.leb_spec (2 ^ 63) maxUint64); [|lia].
    destruct (Z.leb_spec v Int64.max_int); [lia|reflexivity].
Qed.

End StrconvFacts.

(** ** [repo.go] *)

Module RepoFacts.
Import Errors RepoStore.
Local Open Scope list_scope.

(** A query on the committed state: one statement is sent; without a
    fault the result is that of the query. *)
Lemma on_db_eq {A} (q : Stmt) (run : DB -> A + DriverError) (st : St) :
  on_db q run st =
    (match faults st with
     | Some err :: _ => inr err
     | _ => run (committed st)
     end,
     mkSt (committed st) (tx st) (List.tl (faults st)) (clock st) (trace st ++ [q])).
Proof.
  destruct st as [c t f k tr]. destruct f as [|[err|] rest]; reflexivity.
Qed.

Lemma no_fault_head (n : nat) (st : St) :
  no_fault (S n) st ->
  match faults st with Some _ :: _ => False | _ => True end.
Proof.
  unfold no_fault. destruct (faults st) as [|[err|] rest]; simpl; auto.
  intros H. inversion H; subst. discriminate.
Qed.

(** C6.  [FindByPath] hands the path to the injected transformation
    first.  If that fails, the lookup fails and nothing is sent to the
    database.  Otherwise the one statement sent is the select by the
    normalized value, the answer is the first row of that select, and
    two paths with the same normalized value get the same answer. *)
Theorem FindByPath_by_normalized_value
        (pathTransformation : string -> string + error) (st : St) :
  (forall path e,
      pathTransformation path = inr e ->
      exists msg,
        FindByPath pathTransformation path st = ((None, Some (Wrapped msg e)), st)) /\
  (forall path u,
      pathTransformation path = inl u ->
      trace (snd (FindByPath pathTransformation path st)) =
        trace st ++ [StmtSelectRepoByPathUnique u] /\
      (no_fault 1 st ->
       fst (FindByPath pathTransformation path st) =
         match first_row (repoSelectByPathUnique u (committed st)) with
         | inl dst => (Some dst, None)
         | inr err => (None, Some (processSQLErrorf err "Select query failed"))
         end)) /\
  (forall path1 path2 u,
      pathTransformation path1 = inl u ->
      pathTransformation path2 = inl u ->
      FindByPath pathTransformation path1 st =
      FindByPath pathTransformation path2 st).
Proof.
  split; [|split].
  - intros path e He. unfold FindByPath. rewrite He. eexists. reflexivity.
  - intros path u Hu. unfold FindByPath. rewrite Hu.
    unfold mbind, R_bind. rewrite on_db_eq.
    split.
    + destruct (match faults st with Some err :: _ => _ | _ => _ end);
        reflexivity.
    + intros Hq. apply no_fault_head in Hq.
      destruct (faults st) as [|[err|] rest]; [|contradiction|];
        destruct (first_row _); reflexivity.
  - intros path1 path2 u H1 H2. unfold FindByPath. rewrite H1, H2. reflexivity.
Qed.

(** C8, as amended.  A reference that [strconv.ParseInt] accepts is
    resolved by [Find] on its value, with the select by id as the only
    statement; any other reference is resolved by [FindByPath].  A
    non-empty string of digits is accepted exactly when its value is at
    most [Int64.max_int]; above that it is resolved by path. *)
Theorem FindRepoFromRef_by_id_or_path
        (pathTransformation : string -> string + error)
        (repoRef : string) (st : St) :
  (forall id,
      Strconv.ParseInt repoRef = inl id ->
      FindRepoFromRef pathTransformation repoRef st = Find id st /\
      trace (snd (Find id st)) = trace st ++ [StmtSelectRepoByID id]) /\
  (forall e,
      Strconv.ParseInt repoRef = inr e ->
      FindRepoFromRef pathTransformation repoRef st =
      FindByPath pathTransformation repoRef st) /\
  (repoRef <> "" ->
   GoStrings.all_bytes Strconv.is_digit repoRef = true ->
   (Strconv.decimal repoRef 0 <= Int64.max_int ->
    FindRepoFromRef pathTransformation repoRef st =
    Find (Strconv.decimal repoRef 0) st) /\
   (Int64.max_int < Strconv.decimal repoRef 0 ->
    FindRepoFromRef pathTransformation repoRef st =
    FindByPath pathTransformation repoRef st)).
Proof.
  split; [|split].
  - intros id Hid. unfold FindRepoFromRef. rewrite Hid. split; [reflexivity|].
    unfold Find, mbind, R_bind. rewrite on_db_eq.
    destruct (match faults st with Some err :: _ => _ | _ => _ end); reflexivity.
  - intros e He. unfold FindRepoFromRef. rewrite He. reflexivity.
  - intros Hne Hd.
    pose proof (StrconvFacts.ParseInt_digits repoRef Hne Hd) as HP.
    unfold FindRepoFromRef. rewrite HP.
    split; intros H.
    + destruct (Z.leb_spec (Strconv.decimal repoRef 0) Int64.max_int); [reflexivity|lia].
    + destruct (Z.leb_spec (Strconv.decimal repoRef 0) Int64.max_int); [lia|reflexivity].
Qed.

Local Ltac run_store :=
  unfold BeginTxx, Commit, defer_Rollback, FindPathTx, in_tx, Rollback,
    fault, log, get_tx, set_tx, get_committed, set_committed, ret,
    mbind, R_bind, mret, R_ret;
  cbn [committed tx faults clock trace fst snd List.hd List.tl].

(** C4.  When the transaction starts, both primary paths are found, and
    the new path (the value of the parent's primary path, a slash, the
    new name) is the current value of the repo's primary path, [Move]
    fails with [ErrNoChangeInRequestedMove]; it has sent two selects and
    rolled back, and the committed tables are as before. *)
Theorem Move_no_change
        (ReplacePathTx : PathRow -> bool -> R (option error))
        (principalID repoID newParentID : Z) (newName : string)
        (keepAsAlias : bool) (st : St) (currentPath spacePath : PathRow) :
  no_fault 3 st ->
  selectPrimaryPath PathTargetTypeRepo repoID (committed st) = inl currentPath ->
  selectPrimaryPath PathTargetTypeSpace newParentID (committed st) = inl spacePath ->
  Value currentPath = (Value spacePath ++ "/" ++ newName)%string ->
  exists st',
    Move ReplacePathTx principalID repoID newParentID newName keepAsAlias st =
      ((None, Some ErrNoChangeInRequestedMove), st') /\
    committed st' = committed st /\
    tx st' = None /\
    trace st' = trace st ++
      [StmtBegin;
       StmtSelectPrimaryPath PathTargetTypeRepo repoID;
       StmtSelectPrimaryPath PathTargetTypeSpace newParentID;
       StmtRollback].
Proof.
  intros Hq Hcur Hspace Hsame.
  destruct st as [c t f k tr]. unfold no_fault in Hq. simpl in Hq, Hcur, Hspace.
  assert (Heq : String.eqb (Concatinate (Value spacePath) newName)
                           (Value currentPath) = true).
  { apply String.eqb_eq. unfold Concatinate. symmetry. exact Hsame. }
  unfold Move.
  destruct f as [|[e1|] [|[e2|] [|[e3|] rest]]];
    try (exfalso; clear -Hq; repeat (inversion Hq as [|? ? ? Hq']; subst; clear Hq;
           try discriminate; rename Hq' into Hq); fail);
    run_store; rewrite ?Hcur, ?Hspace; run_store; rewrite ?Hspace, ?Heq; run_store;
    (eexists; split; [reflexivity|]); cbn [committed tx trace];
    rewrite <- ?app_assoc; auto.
Qed.

Lemma selectPrimaryPath_paths (t : PathTargetType) (id : Z) (d d' : DB) :
  paths d = paths d' ->
  selectPrimaryPath t id d = selectPrimaryPath t id d'.
Proof. unfold selectPrimaryPath. intros ->. reflexivity. Qed.

(** The first interactions do not fail: the list of faults starts with
    that many [None], or ends before. *)
Lemma no_fault_S (n : nat) (c : DB) (t : option DB)
      (f : list (option DriverError)) (k : list Z) (tr : list Stmt) :
  no_fault (S n) (mkSt c t f k tr) ->
  List.hd None f = None /\ no_fault n (mkSt c t (List.tl f) k tr).
Proof.
  unfold no_fault; cbn [faults]. destruct f as [|x rest]; simpl.
  - intros _. split; [reflexivity|]. destruct n; constructor.
  - intros H. inversion H; subst. split; [reflexivity|assumption].
Qed.

(** [Create] when nothing fails: the parent space has a primary path,
    the new path is valid and its normalized value is not taken. *)
Lemma Create_success
      (pathTransformation : string -> string + error) (pathValid : string -> bool)
      (repo : Repository) (st : St) (parentPath : PathRow) (u : string) :
  no_fault 6 st ->
  selectPrimaryPath PathTargetTypeSpace (ParentID repo) (committed st) = inl parentPath ->
  let value := Concatinate (Value parentPath) (UID repo) in
  pathValid value = true ->
  pathTransformation value = inl u ->
  existsb (fun q => String.eqb (ValueUnique q) u) (paths (committed st)) = false ->
  let id := next_id (map ID (repositories (committed st))) in
  let pid := next_id (map PathID (paths (committed st))) in
  exists st1,
    Create pathTransformation pathValid repo st =
      ((with_Path value (with_ID id repo), None), st1) /\
    committed st1 =
      mkDB (repositories (committed st) ++ [with_Path "" (with_ID id repo)])
           (paths (committed st) ++
              [mkPath pid PathTargetTypeRepo id false value u
                      (CreatedBy repo) (Created repo) (Updated repo)]) /\
    faults st1 = Nat.iter 6 (@List.tl _) (faults st).
Proof.
  intros Hq Hparent value Hvalid Hu Hfree id pid.
  destruct st as [c t f k tr]. cbn [committed] in *.
  apply no_fault_S in Hq as [H1 Hq]. apply no_fault_S in Hq as [H2 Hq].
  apply no_fault_S in Hq as [H3 Hq]. apply no_fault_S in Hq as [H4 Hq].
  apply no_fault_S in Hq as [H5 Hq]. apply no_fault_S in Hq as [H6 _].
  cbn [faults List.tl] in H2, H3, H4, H5, H6.
  unfold Create, CreatePathTx. run_store.
  rewrite H1. run_store. rewrite H2. run_store. rewrite H3. run_store.
  unfold repoInsert. cbn [fst snd committed tx faults clock trace].
  run_store. rewrite H4. run_store.
  match goal with
  | |- context [selectPrimaryPath ?a ?b (mkDB ?r ?p)] =>
      rewrite (selectPrimaryPath_paths a b (mkDB r p) c eq_refl)
  end.
  cbn [ParentID with_ID]. rewrite Hparent. run_store.
  cbn [Value UID with_ID]. fold value. rewrite Hvalid. cbn [negb]. rewrite Hu.
  run_store. rewrite H5. run_store.
  unfold pathInsert. cbn [paths ValueUnique with_unique]. rewrite Hfree.
  run_store. rewrite H6. run_store.
  eexists. split; [reflexivity|]. split; reflexivity.
Qed.

(** C5.  [Create] commits the repository row and its primary path row
    together or not at all.  On an error the committed tables are as
    before.  On success the transaction has inserted the repository
    first, under a new identifier, read the primary path of the parent
    space, and inserted one path row for the repository: not an alias,
    its value the parent's value, a slash and the repo's [UID]; the
    returned struct carries the identifier and that value as [Path].
    And [Create] does succeed: when none of its six interactions with
    the database fails, the parent space has a primary path, and the new
    value is valid, has a normalized form and that form is not taken,
    it returns nil and the struct with the identifier and the path. *)
Theorem Create_atomic
        (pathTransformation : string -> string + error)
        (pathValid : string -> bool)
        (repo : Repository) (st : St) :
  let c := committed st in
  let id := next_id (map ID (repositories c)) in
  let pid := next_id (map PathID (paths c)) in
  match Create pathTransformation pathValid repo st with
  | ((_, Some _), st') => committed st' = c
  | ((repo', None), st') =>
      exists (parentPath : PathRow) (u : string),
        let value := (Value parentPath ++ "/" ++ UID repo)%string in
        selectPrimaryPath PathTargetTypeSpace (ParentID repo) c = inl parentPath /\
        pathTransformation value = inl u /\
        repositories (committed st') =
          repositories c ++ [with_Path "" (with_ID id repo)] /\
        paths (committed st') =
          paths c ++ [mkPath pid PathTargetTypeRepo id false value u
                        (CreatedBy repo) (Created repo) (Updated repo)] /\
        repo' = with_Path value (with_ID id repo) /\
        tx st' = None /\
        trace st' = trace st ++
          [StmtBegin;
           StmtInsertRepo repo;
           StmtSelectPrimaryPath PathTargetTypeSpace (ParentID repo);
           StmtInsertPath (with_unique 0 u (primary_path_of repo id value));
           StmtCommit]
  end /\
  (forall (parentPath : PathRow) (u : string),
      let value := (Value parentPath ++ "/" ++ UID repo)%string in
      no_fault 6 st ->
      selectPrimaryPath PathTargetTypeSpace (ParentID repo) c = inl parentPath ->
      pathValid value = true ->
      pathTransformation value = inl u ->
      (forall q, In q (paths c) -> ValueUnique q <> u) ->
      exists st',
        Create pathTransformation pathValid repo st =
          ((with_Path value (with_ID id repo), None), st')).
Proof.
  split.
  - destruct st as [c t f k tr]. cbn [committed].
    unfold Create, CreatePathTx.
    run_store.
    repeat (match goal with
            | |- context [List.hd None ?l] => destruct (List.hd None l) eqn:?
            | |- context [selectPrimaryPath ?a ?b (mkDB ?r ?p)] =>
                rewrite (selectPrimaryPath_paths a b (mkDB r p) c eq_refl);
                destruct (selectPrimaryPath a b c) eqn:?
            | |- context [pathValid ?v] => destruct (pathValid v) eqn:?
            | |- context [pathTransformation ?v] =>
                destruct (pathTransformation v) eqn:?
            | |- context [existsb ?g ?l] => destruct (existsb g l) eqn:?
            end;
            unfold repoInsert, pathInsert;
            cbn [committed tx faults clock trace fst snd List.hd List.tl
                 negb paths repositories
                 ID ParentID UID with_ID Value ValueUnique with_unique PathID]).
    all: try reflexivity.
    all: try (destruct d; reflexivity).
    exists p, s. rewrite <- !app_assoc.
    repeat split; auto.
  - intros parentPath u value Hq Hparent Hvalid Hu Hfree.
    assert (Hex : existsb (fun q => String.eqb (ValueUnique q) u)
                          (paths (committed st)) = false).
    { destruct (existsb _ _) eqn:E; [|reflexivity].
      apply existsb_exists in E as (q & Hin & Heq). apply String.eqb_eq in Heq.
      exfalso. exact (Hfree q Hin Heq). }
    destruct (Create_success pathTransformation pathValid repo st parentPath u
                Hq Hparent Hvalid Hu Hex) as (st1 & HC & _).
    exists st1. exact HC.
Qed.

Lemma FindByPath_by_normalized_value_witness :
  FindByPath Samples.fold_case "ACME/Repo1" Samples.acme_store =
  FindByPath Samples.fold_case "acme/repo1" Samples.acme_store.
Proof.
  exact (proj2 (proj2 (FindByPath_by_normalized_value Samples.fold_case
                         Samples.acme_store))
               "ACME/Repo1" "acme/repo1" "acme/repo1" eq_refl eq_refl).
Defined.

Example FindByPath_finds_repo1 :
  fst (FindByPath Samples.fold_case "ACME/Repo1" Samples.acme_store) =
    (Some (with_Path "acme/repo1" Samples.repo1), None).
Proof. reflexivity. Qed.

Example FindByPath_rejected_path :
  FindByPath Samples.reject "acme/repo1" Samples.acme_store =
    ((None, Some (Wrapped "failed to transform path 'acme/repo1'" (Foreign "bad path"))),
     Samples.acme_store).
Proof. reflexivity. Qed.

Lemma FindRepoFromRef_by_id_or_path_witness :
  FindRepoFromRef Samples.keep "7" Samples.acme_store = Find 7 Samples.acme_store.
Proof.
  exact (proj1 (proj1 (FindRepoFromRef_by_id_or_path Samples.keep "7"
                         Samples.acme_store) 7 eq_refl)).
Defined.

(** C8, as stated, fails for a path made of digits that does not fit
    [int64]: such a repository is found by its path. *)
Lemma digits_only_path_found_by_path :
  GoStrings.all_bytes Strconv.is_digit Samples.digits = true /\
  Strconv.ParseInt Samples.digits = inr Strconv.ErrRange /\
  fst (FindRepoFromRef Samples.keep Samples.digits Samples.digits_store) =
    (Some (with_Path Samples.digits Samples.repo1), None) /\
  trace (snd (FindRepoFromRef Samples.keep Samples.digits Samples.digits_store)) =
    [StmtSelectRepoByPathUnique Samples.digits].
Proof. vm_compute. auto. Qed.

Lemma Move_no_change_witness :
  exists st',
    Move Samples.no_replace 1 7 10 "repo1" false Samples.acme_store =
      ((None, Some ErrNoChangeInRequestedMove), st') /\
    committed st' = committed Samples.acme_store.
Proof.
  destruct (Move_no_change Samples.no_replace 1 7 10 "repo1" false
              Samples.acme_store Samples.repo1_path Samples.acme_path
              ltac:(constructor) eq_refl eq_refl eq_refl)
    as (st' & H & Hc & _).
  exists st'. split; [exact H|exact Hc].
Defined.

Lemma Create_atomic_witness :
  exists st',
    Create Samples.keep (fun _ => true) CrudSamples.repo2 Samples.acme_store =
      ((with_Path "acme/repo2" (with_ID 8 CrudSamples.repo2), None), st') /\
    repositories (committed st') =
      [Samples.repo1; with_Path "" (with_ID 8 CrudSamples.repo2)] /\
    paths (committed st') =
      [Samples.acme_path; Samples.repo1_path;
       mkPath 3 PathTargetTypeRepo 8 false "acme/repo2" "acme/repo2" 1 400 400].
Proof.
  destruct (Create_atomic Samples.keep (fun _ => true) CrudSamples.repo2
              Samples.acme_store) as [Hall Hsucc].
  destruct (Hsucc Samples.acme_path "acme/repo2" (Forall_nil_2 _) eq_refl eq_refl
              eq_refl) as [st' HC].
  { intros q [<-|[<-|[]]]; discriminate. }
  exists st'. split; [exact HC|].
  rewrite HC in Hall.
  destruct Hall as (parentPath & u & Hparent & Hu & Hrs & Hps & _).
  injection Hparent as <-. injection Hu as <-.
  split; [exact Hrs|exact Hps].
Defined.

Example Create_under_acme :
  let repo2 := with_ID 0 (with_UID_ParentID "repo2" 10 Samples.repo1) in
  let '((repo', err), st') :=
    Create Samples.fold_case (fun _ => true) repo2 Samples.acme_store in
  err = None /\ ID repo' = 8 /\ Path repo' = "acme/repo2" /\
  length (paths (committed st')) = 3%nat.
Proof. vm_compute. auto. Qed.

End RepoFacts.

(** ** Creating, finding by name and deleting pipelines *)

Module PipelineCrudFacts.
Import Errors PipelineStore PipelineCrud.
Local Open Scope list_scope.

Lemma next_key_above (t : list Pipeline) (r : Pipeline) :
  In r t -> ID r < next_key t.
Proof.
  unfold next_key. induction t as [|a t IH]; simpl; [tauto|].
  intros [->|H]; [lia|]. specialize (IH H). lia.
Qed.

Lemma find_snoc {A} (f : A -> bool) (t : list A) (x : A) :
  (forall r, In r t -> f r = false) -> f x = true ->
  List.find f (t ++ [x]) = Some x.
Proof.
  intros Ht Hx. induction t as [|a t IH]; simpl.
  - rewrite Hx. reflexivity.
  - rewrite (Ht a) by (left; reflexivity).
    apply IH. intros r Hr. apply Ht. right. exact Hr.
Qed.

Lemma find_filter_other {A} (f g : A -> bool) (t : list A) :
  (forall r, f r = true -> g r = true) ->
  List.find f (List.filter g t) = List.find f t.
Proof.
  intros H. induction t as [|a t IH]; simpl; [reflexivity|].
  destruct (f a) eqn:Ef.
  - rewrite (H a Ef). simpl. rewrite Ef. reflexivity.
  - destruct (g a); simpl; [rewrite Ef|]; exact IH.
Qed.

Lemma find_filter_gone {A} (f g : A -> bool) (t : list A) :
  (forall r, f r = true -> g r = false) ->
  List.find f (List.filter g t) = None.
Proof.
  intros H. induction t as [|a t IH]; simpl; [reflexivity|].
  destruct (g a) eqn:Eg; [|exact IH].
  simpl. destruct (f a) eqn:Ef; [|exact IH].
  rewrite (H a Ef) in Eg. discriminate.
Qed.

(** [Create] as one case analysis on the environment's decisions. *)
Lemma Create_unfold (w : World) (l : nat) (v : Pipeline) :
  heap w !! l = Some v ->
  let e := current_env w in
  let t := observed e (table w) in
  let x := with_ID (next_key t) v in
  Create (Some l) w =
    match env_bind e with
    | Some err =>
        Ret (Some (processSQLErrorf err "Failed to bind pipeline object"))
            (mkWorld (heap w) t (rest_oracle w) (trace w))
    | None =>
        match env_exec e with
        | Some err =>
            Ret (Some (processSQLErrorf err "Pipeline query failed"))
                (mkWorld (heap w) t (rest_oracle w) (trace w))
        | None =>
            Ret None (mkWorld (<[l := x]> (heap w)) (t ++ [x]) (rest_oracle w)
                              (trace w))
        end
    end.
Proof.
  intros Hl e t x.
  unfold Create, mbind, M_bind, mret, M_ret.
  rewrite PipelineFacts.next_env_eq. fold e. fold t.
  unfold load; simpl. rewrite Hl.
  destruct (env_bind e); [reflexivity|].
  unfold QueryRowContext_insert; simpl.
  destruct (env_exec e); [reflexivity|].
  unfold store, with_table; simpl. rewrite Hl. reflexivity.
Qed.

(** [FindByUID] as one case analysis on the environment's decisions. *)
Lemma FindByUID_unfold (w : World) (spaceID : Z) (uid : string) :
  let e := current_env w in
  let t := observed e (table w) in
  FindByUID spaceID uid w =
    match env_exec e with
    | Some err =>
        Ret (None, Some (processSQLErrorf err "Failed to find pipeline"))
            (mkWorld (heap w ++ [zero_Pipeline]) t (rest_oracle w) (trace w))
    | None =>
        match List.find (uid_matches spaceID uid) t with
        | Some row =>
            Ret (Some (length (heap w)), None)
                (mkWorld (heap w ++ [row]) t (rest_oracle w) (trace w))
        | None =>
            Ret (None, Some ErrResourceNotFound)
                (mkWorld (heap w ++ [zero_Pipeline]) t (rest_oracle w) (trace w))
        end
    end.
Proof.
  intros e t.
  unfold FindByUID, mbind, M_bind, mret, M_ret.
  rewrite PipelineFacts.next_env_eq. fold e. fold t.
  unfold alloc, GetContext_findByUID; simpl.
  destruct (env_exec e); [reflexivity|].
  destruct (List.find (uid_matches spaceID uid) t); [|reflexivity].
  unfold store; simpl.
  rewrite lookup_app_r by lia. rewrite Nat.sub_diag. simpl.
  rewrite insert_app_r_alt by lia. rewrite Nat.sub_diag. reflexivity.
Qed.

Lemma Delete_unfold (id : Z) (w : World) :
  let e := current_env w in
  let t := observed e (table w) in
  Delete id w =
    match env_exec e with
    | Some err =>
        Ret (Some (processSQLErrorf err "Could not delete pipeline"))
            (mkWorld (heap w) t (rest_oracle w) (trace w))
    | None =>
        Ret None (mkWorld (heap w) (List.filter (fun r => negb (ID r =? id)) t)
                          (rest_oracle w) (trace w))
    end.
Proof.
  intros e t.
  unfold Delete, mbind, M_bind, mret, M_ret.
  rewrite PipelineFacts.next_env_eq. fold e. fold t.
  unfold ExecContext_delete, with_table; simpl.
  destruct (env_exec e); reflexivity.
Qed.

Lemma DeleteByUID_unfold (spaceID : Z) (uid : string) (w : World) :
  let e := current_env w in
  let t := observed e (table w) in
  DeleteByUID spaceID uid w =
    match env_exec e with
    | Some err =>
        Ret (Some (processSQLErrorf err "Could not delete pipeline"))
            (mkWorld (heap w) t (rest_oracle w) (trace w))
    | None =>
        Ret None (mkWorld (heap w)
                          (List.filter (fun r => negb (uid_matches spaceID uid r)) t)
                          (rest_oracle w) (trace w))
    end.
Proof.
  intros e t.
  unfold DeleteByUID, mbind, M_bind, mret, M_ret.
  rewrite PipelineFacts.next_env_eq. fold e. fold t.
  unfold ExecContext_delete, with_table; simpl.
  destruct (env_exec e); reflexivity.
Qed.

(** X1.  A pipeline that [Create] has stored is what [Find] returns for
    the key that [Create] put into the caller's struct: the key is new,
    the struct that [Find] allocates is a different one and holds the
    same thirteen values as the caller's. *)
Theorem Create_then_Find (w : World) (l : nat) (v : Pipeline) :
  heap w !! l = Some v ->
  env_bind (current_env w) = None ->
  env_exec (current_env w) = None ->
  undisturbed (following_env w) ->
  exists (id : Z) (w1 w2 : World) (l' : nat),
    Create (Some l) w = Ret None w1 /\
    heap w1 !! l = Some (with_ID id v) /\
    (forall r, In r (observed (current_env w) (table w)) -> ID r <> id) /\
    Find id w1 = Ret (Some l', None) w2 /\
    l' <> l /\
    heap w2 !! l' = Some (with_ID id v) /\
    heap w2 !! l = Some (with_ID id v).
Proof.
  intros Hl Hb Hx [Hc Hx'].
  set (t := observed (current_env w) (table w)).
  set (x := with_ID (next_key t) v).
  pose proof (Create_unfold w l v Hl) as HC. cbv zeta in HC.
  rewrite Hb, Hx in HC. fold t in HC. fold x in HC.
  set (w1 := mkWorld (<[l := x]> (heap w)) (t ++ [x]) (rest_oracle w) (trace w)) in HC.
  assert (Hlt : (l < length (heap w))%nat) by (eapply lookup_lt_Some; exact Hl).
  assert (Hfresh : forall r, In r t -> ID r <> next_key t).
  { intros r Hr. pose proof (next_key_above t r Hr). lia. }
  pose proof (PipelineFacts.Find_unfold w1 (next_key t)) as HF. cbv zeta in HF.
  change (current_env w1) with (following_env w) in HF.
  rewrite Hx' in HF. unfold observed in HF. rewrite Hc in HF.
  change (table w1) with (t ++ [x]) in HF.
  rewrite (find_snoc (fun r => ID r =? next_key t) t x) in HF.
  2: { intros r Hr. apply Z.eqb_neq. apply Hfresh. exact Hr. }
  2: { apply Z.eqb_eq. reflexivity. }
  exists (next_key t), w1. eexists. exists (length (heap w1)).
  split; [exact HC|].
  split; [apply list_lookup_insert_eq; exact Hlt|].
  split; [exact Hfresh|].
  split; [exact HF|].
  assert (Hlen : length (heap w1) = length (heap w)).
  { unfold w1; simpl. apply length_insert. }
  split; [lia|].
  cbn [heap]. split.
  - apply PipelineFacts.lookup_snoc.
  - rewrite lookup_app_l by lia. apply list_lookup_insert_eq. exact Hlt.
Qed.

Lemma Create_then_Find_witness :
  exists (id : Z) (w1 w2 : World) (l' : nat),
    Create (Some 0%nat) (Samples.one_caller []) = Ret None w1 /\
    heap w1 !! 0%nat = Some (with_ID id Samples.nightly) /\
    (forall r, In r (observed (current_env (Samples.one_caller []))
                              (table (Samples.one_caller []))) -> ID r <> id) /\
    Find id w1 = Ret (Some l', None) w2 /\
    l' <> 0%nat /\
    heap w2 !! l' = Some (with_ID id Samples.nightly) /\
    heap w2 !! 0%nat = Some (with_ID id Samples.nightly).
Proof.
  apply (Create_then_Find (Samples.one_caller []) 0 Samples.nightly);
    repeat split; reflexivity.
Defined.

(** X2.  [Create] fails exactly when binding or the query fails, and
    then it has done nothing: no row was added and the caller's struct,
    its key included, is as it was.  When it succeeds the table has
    one row more, the last, and no other row changed. *)
Theorem Create_all_or_nothing (w : World) (l : nat) (v : Pipeline) :
  heap w !! l = Some v ->
  let e := current_env w in
  let t := observed e (table w) in
  exists (r : option error) (w' : World),
    Create (Some l) w = Ret r w' /\
    (r = None <-> env_bind e = None /\ env_exec e = None) /\
    (r <> None -> table w' = t /\ heap w' = heap w) /\
    (r = None -> exists x, table w' = t ++ [x] /\ heap w' !! l = Some x /\
                           with_ID (ID v) x = v).
Proof.
  intros Hl e t.
  pose proof (Create_unfold w l v Hl) as HC. cbv zeta in HC.
  fold e in HC. fold t in HC.
  destruct (env_bind e) as [d|]; [|destruct (env_exec e) as [d|]];
    eexists; eexists; (split; [exact HC|]).
  - split; [split; [discriminate|intros [? _]; discriminate]|].
    split; [intros _; split; reflexivity|discriminate].
  - split; [split; [discriminate|intros [_ ?]; discriminate]|].
    split; [intros _; split; reflexivity|discriminate].
  - split; [split; [split; reflexivity|reflexivity]|].
    split; [congruence|]. intros _.
    exists (with_ID (next_key t) v). split; [reflexivity|]. split.
    + cbn [heap]. apply list_lookup_insert_eq. eapply lookup_lt_Some; exact Hl.
    + destruct v; reflexivity.
Qed.

Lemma Create_all_or_nothing_witness :
  exists (r : option error) (w' : World),
    Create (Some 0%nat) (Samples.one_caller [Samples.connection_lost]) = Ret r w' /\
    r <> None /\ table w' = [Samples.nightly] /\ heap w' = [Samples.nightly].
Proof.
  destruct (Create_all_or_nothing (Samples.one_caller [Samples.connection_lost])
              0 Samples.nightly eq_refl) as (r & w' & H & Hiff & Hfail & _).
  exists r, w'. split; [exact H|].
  assert (Hr : r <> None).
  { intros Hn. destruct (proj1 Hiff Hn) as [_ Hx]. discriminate Hx. }
  split; [exact Hr|]. exact (Hfail Hr).
Defined.

(** X3.  [Delete] does not look at the number of rows it removed: it
    returns nil whether or not a pipeline has the key, and a key that no
    row has leaves the table as it was.  Afterwards no row has the key
    and [Find] answers with the not-found error. *)
Theorem Delete_then_Find (w : World) (id : Z) :
  env_exec (current_env w) = None ->
  undisturbed (following_env w) ->
  let t := observed (current_env w) (table w) in
  exists (w1 w2 : World),
    Delete id w = Ret None w1 /\
    heap w1 = heap w /\
    (forall r, In r (table w1) <-> In r t /\ ID r <> id) /\
    (rows_of id t = [] -> table w1 = t) /\
    Find id w1 = Ret (None, Some ErrResourceNotFound) w2 /\
    table w2 = table w1.
Proof.
  intros Hx [Hc Hx'] t.
  pose proof (Delete_unfold id w) as HD. cbv zeta in HD.
  rewrite Hx in HD. fold t in HD.
  set (t1 := List.filter (fun r => negb (ID r =? id)) t) in HD.
  set (w1 := mkWorld (heap w) t1 (rest_oracle w) (trace w)) in HD.
  pose proof (PipelineFacts.Find_unfold w1 id) as HF. cbv zeta in HF.
  change (current_env w1) with (following_env w) in HF.
  rewrite Hx' in HF. unfold observed in HF. rewrite Hc in HF.
  change (table w1) with t1 in HF.
  unfold t1 in HF at 1.
  rewrite (find_filter_gone (fun r => ID r =? id)) in HF.
  2: { intros r Hr. rewrite Hr. reflexivity. }
  exists w1. eexists.
  split; [exact HD|]. split; [reflexivity|].
  split.
  { intros r. cbn [table w1]. unfold t1. rewrite List.filter_In.
    rewrite negb_true_iff, Z.eqb_neq. reflexivity. }
  split.
  { intros Hnone. cbn [table w1]. unfold t1, rows_of in *.
    clear -Hnone. induction t as [|a t IH]; simpl in *; [reflexivity|].
    destruct (ID a =? id); [discriminate|]. simpl. rewrite IH by exact Hnone.
    reflexivity. }
  split; [exact HF|reflexivity].
Qed.

Lemma Delete_then_Find_witness :
  exists (w1 w2 : World),
    Delete 1 (Samples.one_caller []) = Ret None w1 /\
    table w1 = [] /\
    Find 1 w1 = Ret (None, Some ErrResourceNotFound) w2.
Proof.
  destruct (Delete_then_Find (Samples.one_caller []) 1 eq_refl
              (conj eq_refl eq_refl)) as (w1 & w2 & HD & _ & _ & _ & HF & _).
  exists w1, w2. split; [exact HD|]. split; [|exact HF].
  revert HD. vm_compute. intros H. inversion H. reflexivity.
Defined.

(** X4.  [Delete] removes no pipeline but the one with the key: a row
    that [Find] would have returned for another key is returned after
    the deletion as well. *)
Theorem Delete_keeps_others (w : World) (id id' : Z) (r : Pipeline) :
  id' <> id ->
  env_exec (current_env w) = None ->
  undisturbed (following_env w) ->
  List.find (fun x => ID x =? id') (observed (current_env w) (table w)) = Some r ->
  exists (w1 w2 : World) (l' : nat),
    Delete id w = Ret None w1 /\
    Find id' w1 = Ret (Some l', None) w2 /\
    heap w2 !! l' = Some r.
Proof.
  intros Hne Hx [Hc Hx'] Hfind.
  set (t := observed (current_env w) (table w)) in *.
  pose proof (Delete_unfold id w) as HD. cbv zeta in HD.
  rewrite Hx in HD. fold t in HD.
  set (t1 := List.filter (fun r => negb (ID r =? id)) t) in HD.
  set (w1 := mkWorld (heap w) t1 (rest_oracle w) (trace w)) in HD.
  pose proof (PipelineFacts.Find_unfold w1 id') as HF. cbv zeta in HF.
  change (current_env w1) with (following_env w) in HF.
  rewrite Hx' in HF. unfold observed in HF. rewrite Hc in HF.
  change (table w1) with t1 in HF.
  unfold t1 in HF at 1.
  rewrite (find_filter_other (fun x => ID x =? id')) in HF.
  2: { intros x Hx0. apply Z.eqb_eq in Hx0. apply negb_true_iff, Z.eqb_neq. lia. }
  rewrite Hfind in HF.
  exists w1. eexists. exists (length (heap w1)).
  split; [exact HD|]. split; [exact HF|].
  cbn [heap]. apply PipelineFacts.lookup_snoc.
Qed.

Lemma Delete_keeps_others_witness :
  exists (w1 w2 : World) (l' : nat),
    Delete 2 (Samples.one_caller []) = Ret None w1 /\
    Find 1 w1 = Ret (Some l', None) w2 /\
    heap w2 !! l' = Some Samples.nightly.
Proof.
  apply (Delete_keeps_others (Samples.one_caller []) 2 1 Samples.nightly);
    [lia | reflexivity | split; reflexivity | reflexivity].
Defined.

(** X5.  A pipeline that [Create] has stored is what [FindByUID]
    returns for its space and name, when no earlier row has that space
    and name. *)
Theorem Create_then_FindByUID (w : World) (l : nat) (v : Pipeline) :
  heap w !! l = Some v ->
  env_bind (current_env w) = None ->
  env_exec (current_env w) = None ->
  undisturbed (following_env w) ->
  (forall r, In r (observed (current_env w) (table w)) ->
             uid_matches (SpaceID v) (UID v) r = false) ->
  exists (id : Z) (w1 w2 : World) (l' : nat),
    Create (Some l) w = Ret None w1 /\
    FindByUID (SpaceID v) (UID v) w1 = Ret (Some l', None) w2 /\
    heap w2 !! l' = Some (with_ID id v) /\
    heap w2 !! l = Some (with_ID id v).
Proof.
  intros Hl Hb Hx [Hc Hx'] Hnew.
  set (t := observed (current_env w) (table w)) in *.
  set (x := with_ID (next_key t) v).
  pose proof (Create_unfold w l v Hl) as HC. cbv zeta in HC.
  rewrite Hb, Hx in HC. fold t in HC. fold x in HC.
  set (w1 := mkWorld (<[l := x]> (heap w)) (t ++ [x]) (rest_oracle w) (trace w)) in HC.
  assert (Hlt : (l < length (heap w))%nat) by (eapply lookup_lt_Some; exact Hl).
  pose proof (FindByUID_unfold w1 (SpaceID v) (UID v)) as HF. cbv zeta in HF.
  change (current_env w1) with (following_env w) in HF.
  rewrite Hx' in HF. unfold observed in HF. rewrite Hc in HF.
  change (table w1) with (t ++ [x]) in HF.
  rewrite (find_snoc (uid_matches (SpaceID v) (UID v)) t x Hnew) in HF.
  2: { unfold uid_matches, x; simpl. rewrite Z.eqb_refl, String.eqb_refl.
       reflexivity. }
  exists (next_key t), w1. eexists. exists (length (heap w1)).
  split; [exact HC|]. split; [exact HF|].
  assert (Hlen : length (heap w1) = length (heap w)).
  { unfold w1; simpl. apply length_insert. }
  cbn [heap]. split.
  - apply PipelineFacts.lookup_snoc.
  - rewrite lookup_app_l by lia. apply list_lookup_insert_eq. exact Hlt.
Qed.

Lemma Create_then_FindByUID_witness :
  exists (id : Z) (w1 w2 : World) (l' : nat),
    Create (Some 0%nat) CrudSamples.new_caller = Ret None w1 /\
    FindByUID 1 "weekly" w1 = Ret (Some l', None) w2 /\
    heap w2 !! l' = Some (with_ID id CrudSamples.weekly) /\
    heap w2 !! 0%nat = Some (with_ID id CrudSamples.weekly).
Proof.
  apply (Create_then_FindByUID CrudSamples.new_caller 0 CrudSamples.weekly);
    [reflexivity | reflexivity | reflexivity | split; reflexivity |].
  intros r [<-|[]]. reflexivity.
Defined.

(** X6.  [DeleteByUID] removes the rows with the space and the name,
    all of them and no other row, and returns nil also when there is
    none; afterwards [FindByUID] answers with the not-found error. *)
Theorem DeleteByUID_then_FindByUID (w : World) (spaceID : Z) (uid : string) :
  env_exec (current_env w) = None ->
  undisturbed (following_env w) ->
  let t := observed (current_env w) (table w) in
  exists (w1 w2 : World),
    DeleteByUID spaceID uid w = Ret None w1 /\
    heap w1 = heap w /\
    (forall r, In r (table w1) <->
               In r t /\ ~ (SpaceID r = spaceID /\ UID r = uid)) /\
    FindByUID spaceID uid w1 = Ret (None, Some ErrResourceNotFound) w2 /\
    table w2 = table w1.
Proof.
  intros Hx [Hc Hx'] t.
  pose proof (DeleteByUID_unfold spaceID uid w) as HD. cbv zeta in HD.
  rewrite Hx in HD. fold t in HD.
  set (t1 := List.filter (fun r => negb (uid_matches spaceID uid r)) t) in HD.
  set (w1 := mkWorld (heap w) t1 (rest_oracle w) (trace w)) in HD.
  pose proof (FindByUID_unfold w1 spaceID uid) as HF. cbv zeta in HF.
  change (current_env w1) with (following_env w) in HF.
  rewrite Hx' in HF. unfold observed in HF. rewrite Hc in HF.
  change (table w1) with t1 in HF.
  unfold t1 in HF at 1.
  rewrite (find_filter_gone (uid_matches spaceID uid)) in HF.
  2: { intros r Hr. rewrite Hr. reflexivity. }
  exists w1. eexists.
  split; [exact HD|]. split; [reflexivity|].
  split; [|split; [exact HF|reflexivity]].
  intros r. cbn [table w1]. unfold t1. rewrite List.filter_In.
  rewrite negb_true_iff. unfold uid_matches.
  rewrite andb_false_iff, Z.eqb_neq, String.eqb_neq.
  destruct (Z.eq_dec (SpaceID r) spaceID); destruct (string_dec (UID r) uid); tauto.
Qed.

Lemma DeleteByUID_then_FindByUID_witness :
  exists (w1 w2 : World),
    DeleteByUID 1 "nightly" (Samples.one_caller []) = Ret None w1 /\
    table w1 = [] /\
    FindByUID 1 "nightly" w1 = Ret (None, Some ErrResourceNotFound) w2.
Proof.
  destruct (DeleteByUID_then_FindByUID (Samples.one_caller []) 1 "nightly" eq_refl
              (conj eq_refl eq_refl)) as (w1 & w2 & HD & _ & _ & HF & _).
  exists w1, w2. split; [exact HD|]. split; [|exact HF].
  revert HD. vm_compute. intros H. inversion H. reflexivity.
Defined.

End PipelineCrudFacts.

(** ** The locking protocol when nobody else writes *)

Module OptLockFacts.
Import Errors PipelineStore PipelineCrud.
Local Open Scope list_scope.

Lemma filter_same_version (v r : Pipeline) (t : list Pipeline) :
  rows_of (ID v) t = [r] ->
  List.filter (same_version v) t = if Version r =? Version v then [r] else [].
Proof.
  intros Hrow. unfold same_version.
  rewrite (ConcurrentFacts.filter_andb (fun x => ID x =? ID v)
             (fun x => Version x =? Version v)).
  fold (rows_of (ID v) t). rewrite Hrow. simpl.
  destruct (Version r =? Version v); reflexivity.
Qed.

Lemma filter_same_version_none (v : Pipeline) (t : list Pipeline) :
  rows_of (ID v) t = [] -> List.filter (same_version v) t = [].
Proof.
  intros Hrow. unfold same_version.
  rewrite (ConcurrentFacts.filter_andb (fun x => ID x =? ID v)
             (fun x => Version x =? Version v)).
  fold (rows_of (ID v) t). rewrite Hrow. reflexivity.
Qed.

(** [Update] when nothing fails and nobody else has written since the
    previous call: success if a row has the key and the version of the
    struct, a version conflict otherwise. *)
Lemma Update_quiet (w : World) (l : nat) (v : Pipeline) :
  heap w !! l = Some v ->
  quiet_env (current_env w) ->
  Int64.min_int <= Version v < Int64.max_int ->
  let e := current_env w in
  let args := bound_args e v in
  let tr := trace w ++ [StmtUpdate args] in
  Update (Some l) w =
    match List.filter (same_version v) (table w) with
    | [] => Ret (Some ErrVersionConflict)
                (mkWorld (heap w) (table w) (rest_oracle w) tr)
    | _ :: _ => Ret None
                  (mkWorld (<[l := written_back e v]> (heap w))
                           (update_rows args (table w)) (rest_oracle w) tr)
    end.
Proof.
  intros Hl (Hc & Hb & Hx & Hr) Hver e args tr.
  fold e in Hc, Hb, Hx, Hr.
  rewrite (PipelineFacts.Update_unfold w l v Hl). cbv zeta.
  fold e. fold args. fold tr.
  rewrite Hb, Hx, Hr. unfold observed. rewrite Hc.
  assert (Hf : List.filter (update_matches args) (table w) =
               List.filter (same_version v) (table w)).
  { apply List.filter_ext. intros x. unfold args.
    apply PipelineFacts.update_matches_bound. exact Hver. }
  unfold rows_affected. rewrite Hf.
  destruct (List.filter (same_version v) (table w)) as [|a rest] eqn:E.
  - simpl. rewrite PipelineFacts.update_rows_no_match by exact Hf. reflexivity.
  - replace (Z.of_nat (length (a :: rest)) =? 0) with false; [reflexivity|].
    symmetry. apply Z.eqb_neq. simpl length. lia.
Qed.

(** [Find] when nothing fails and nobody else has written. *)
Lemma Find_quiet (w : World) (id : Z) :
  undisturbed (current_env w) ->
  Find id w =
    match List.find (fun r => ID r =? id) (table w) with
    | Some row =>
        Ret (Some (length (heap w)), None)
            (mkWorld (heap w ++ [row]) (table w) (rest_oracle w)
                     (trace w ++ [StmtSelectByID id]))
    | None =>
        Ret (None, Some ErrResourceNotFound)
            (mkWorld (heap w ++ [zero_Pipeline]) (table w) (rest_oracle w)
                     (trace w ++ [StmtSelectByID id]))
    end.
Proof.
  intros [Hc Hx]. rewrite PipelineFacts.Find_unfold. cbv zeta.
  rewrite Hx. unfold observed. rewrite Hc. reflexivity.
Qed.

Lemma rows_of_none_find (id : Z) (t : list Pipeline) :
  rows_of id t = [] -> List.find (fun x => ID x =? id) t = None.
Proof.
  unfold rows_of. induction t as [|a t IH]; simpl; [reflexivity|].
  destruct (ID a =? id); [discriminate | exact IH].
Qed.

Lemma quiet_undisturbed (e : Env) : quiet_env e -> undisturbed e.
Proof. intros (Hc & _ & Hx & _). split; assumption. Qed.

Lemma incr_in_range (x : Z) :
  Int64.min_int <= x < Int64.max_int -> Int64.incr x = x + 1.
Proof. apply Int64_incr_no_overflow. Qed.

Lemma rows_of_updated (v r : Pipeline) (e : Env) (t : list Pipeline) :
  rows_of (ID v) t = [r] ->
  Version r = Version v ->
  Int64.min_int <= Version v < Int64.max_int ->
  rows_of (ID v) (update_rows (bound_args e v) t) =
    [update_set (bound_args e v) r].
Proof.
  intros Hrow Hsame Hver.
  rewrite ConcurrentFacts.rows_of_update_rows, Hrow. simpl.
  rewrite PipelineFacts.update_matches_bound by exact Hver.
  unfold same_version.
  rewrite (ConcurrentFacts.rows_of_ID _ _ _ Hrow), Hsame, !Z.eqb_refl.
  reflexivity.
Qed.

(** X7.  After a successful [Update] the caller's struct is current:
    a second [Update] through the same struct succeeds without a [Find]
    in between, and the struct and the stored row end two versions
    later, with the clock reading of the second call. *)
Theorem Update_twice (w : World) (l : nat) (v r : Pipeline) :
  heap w !! l = Some v ->
  quiet_env (current_env w) ->
  quiet_env (following_env w) ->
  rows_of (ID v) (table w) = [r] ->
  Version r = Version v ->
  Int64.min_int <= Version v ->
  Version v + 1 < Int64.max_int ->
  exists (w1 w2 : World) (v2 r2 : Pipeline),
    Update (Some l) w = Ret None w1 /\
    Update (Some l) w1 = Ret None w2 /\
    heap w2 !! l = Some v2 /\
    rows_of (ID v) (table w2) = [r2] /\
    Version v2 = Version v + 2 /\
    Version r2 = Version v + 2 /\
    Updated v2 = env_now (following_env w) /\
    Updated r2 = env_now (following_env w).
Proof.
  intros Hl Hq Hq' Hrow Hsame Hlo Hhi.
  assert (Hver : Int64.min_int <= Version v < Int64.max_int) by lia.
  assert (Hlt : (l < length (heap w))%nat) by (eapply lookup_lt_Some; exact Hl).
  pose proof (Update_quiet w l v Hl Hq Hver) as H1. cbv zeta in H1.
  rewrite (filter_same_version v r _ Hrow) in H1.
  rewrite Hsame, Z.eqb_refl in H1.
  set (e := current_env w) in *.
  set (vb := written_back e v) in *.
  set (w1 := mkWorld (<[l := vb]> (heap w)) (update_rows (bound_args e v) (table w))
                     (rest_oracle w) (trace w ++ [StmtUpdate (bound_args e v)])) in *.
  assert (Hl1 : heap w1 !! l = Some vb).
  { unfold w1; simpl. apply list_lookup_insert_eq. exact Hlt. }
  assert (Hvb : Version vb = Version v + 1).
  { unfold vb, written_back; simpl. apply incr_in_range. exact Hver. }
  assert (Hver1 : Int64.min_int <= Version vb < Int64.max_int) by lia.
  assert (Hrow1 : rows_of (ID vb) (table w1) = [update_set (bound_args e v) r]).
  { apply (rows_of_updated v r e (table w) Hrow Hsame Hver). }
  assert (Hsame1 : Version (update_set (bound_args e v) r) = Version vb).
  { rewrite Hvb. simpl. apply incr_in_range. exact Hver. }
  pose proof (Update_quiet w1 l vb Hl1 Hq' Hver1) as H2. cbv zeta in H2.
  rewrite (filter_same_version vb _ _ Hrow1) in H2.
  rewrite Hsame1, Z.eqb_refl in H2.
  change (current_env w1) with (following_env w) in H2.
  set (e' := following_env w) in *.
  exists w1. eexists.
  exists (written_back e' vb), (update_set (bound_args e' vb) (update_set (bound_args e v) r)).
  split; [exact H1|]. split; [exact H2|].
  cbn [heap table].
  split.
  { apply list_lookup_insert_eq. eapply lookup_lt_Some. exact Hl1. }
  split.
  { apply (rows_of_updated vb _ e' (table w1) Hrow1 Hsame1 Hver1). }
  assert (Hinc : Int64.incr (Version vb) = Version v + 2).
  { rewrite incr_in_range by exact Hver1. lia. }
  repeat split; simpl; try exact Hinc; reflexivity.
Qed.

Lemma Update_twice_witness :
  exists (w1 w2 : World) (v2 r2 : Pipeline),
    Update (Some 0%nat) (Samples.one_caller []) = Ret None w1 /\
    Update (Some 0%nat) w1 = Ret None w2 /\
    heap w2 !! 0%nat = Some v2 /\
    rows_of 1 (table w2) = [r2] /\
    Version v2 = 5 /\ Version r2 = 5.
Proof.
  destruct (Update_twice (Samples.one_caller []) 0 Samples.nightly Samples.nightly
              eq_refl (conj eq_refl (conj eq_refl (conj eq_refl eq_refl)))
              (conj eq_refl (conj eq_refl (conj eq_refl eq_refl)))
              eq_refl eq_refl
              ltac:(unfold Int64.min_int; simpl; lia)
              ltac:(unfold Int64.max_int; simpl; lia))
    as (w1 & w2 & v2 & r2 & H1 & H2 & Hv & Hr & Hv2 & Hr2 & _).
  exists w1, w2, v2, r2. repeat split; assumption.
Defined.

Lemma no_second_match (e : Env) (va vb : Pipeline) (t : list Pipeline) :
  ID vb = ID va ->
  Version vb = Version va ->
  Int64.min_int <= Version va < Int64.max_int ->
  List.filter (same_version vb) (update_rows (bound_args e va) t) = [].
Proof.
  intros Hid Hv Hver. unfold update_rows.
  induction t as [|x t IH]; simpl; [reflexivity|].
  rewrite PipelineFacts.update_matches_bound by exact Hver.
  assert (Hsame : forall y, same_version vb y = same_version va y).
  { intros y. unfold same_version. rewrite Hid, Hv. reflexivity. }
  destruct (same_version va x) eqn:E.
  - replace (same_version vb (update_set (bound_args e va) x)) with false;
      [exact IH|].
    symmetry. unfold same_version; simpl.
    rewrite incr_in_range by exact Hver.
    apply andb_false_iff. right. apply Z.eqb_neq. lia.
  - rewrite Hsame, E. exact IH.
Qed.

(** X8.  Of two holders of the same version of a pipeline only one can
    write: once [Update] has succeeded through one struct, [Update]
    through another struct with the same key and version fails, if
    nobody else wrote in between, and changes neither the table nor any
    struct; the error is the version conflict unless the call itself
    failed. *)
Theorem Update_second_holder_refused
        (w w1 : World) (la lb : nat) (va vb : Pipeline) :
  heap w !! la = Some va ->
  heap w !! lb = Some vb ->
  la <> lb ->
  ID vb = ID va ->
  Version vb = Version va ->
  Int64.min_int <= Version va < Int64.max_int ->
  Update (Some la) w = Ret None w1 ->
  env_commits (current_env w1) = None ->
  exists (err : error) (w2 : World),
    Update (Some lb) w1 = Ret (Some err) w2 /\
    table w2 = table w1 /\
    heap w2 = heap w1 /\
    (env_bind (current_env w1) = None ->
     env_exec (current_env w1) = None ->
     env_result (current_env w1) = None ->
     err = ErrVersionConflict).
Proof.
  intros Hla Hlb Hne Hid Hv Hver H1 Hc.
  rewrite (PipelineFacts.Update_unfold w la va Hla) in H1. cbv zeta in H1.
  set (e := current_env w) in *.
  set (t := observed e (table w)) in *.
  destruct (env_bind e); [discriminate|].
  destruct (env_exec e); [discriminate|].
  destruct (env_result e); [discriminate|].
  destruct (rows_affected (bound_args e va) t =? 0); [discriminate|].
  injection H1 as Hw1.
  set (h1 := <[la := written_back e va]> (heap w)) in *.
  set (t1 := update_rows (bound_args e va) t) in *.
  assert (Hlb1 : heap w1 !! lb = Some vb).
  { rewrite <- Hw1. cbn [heap]. unfold h1.
    rewrite list_lookup_insert_ne by exact Hne. exact Hlb. }
  assert (Ht1 : table w1 = t1) by (rewrite <- Hw1; reflexivity).
  assert (Hverb : Int64.min_int <= Version vb < Int64.max_int) by lia.
  pose proof (PipelineFacts.Update_unfold w1 lb vb Hlb1) as H2. cbv zeta in H2.
  set (e1 := current_env w1) in *.
  unfold observed in H2. rewrite Hc in H2.
  assert (Hnone : List.filter (update_matches (bound_args e1 vb)) (table w1) = []).
  { rewrite Ht1. unfold t1.
    rewrite <- (no_second_match e va vb t Hid Hv Hver).
    apply List.filter_ext. intros x.
    apply PipelineFacts.update_matches_bound. exact Hverb. }
  rewrite (PipelineFacts.update_rows_no_match _ _ Hnone) in H2.
  rewrite (proj2 (PipelineFacts.rows_affected_zero _ _) Hnone) in H2.
  destruct (env_bind e1) as [d|].
  { eexists. eexists. split; [exact H2|]. repeat split. discriminate. }
  destruct (env_exec e1) as [d|].
  { eexists. eexists. split; [exact H2|]. repeat split. discriminate. }
  destruct (env_result e1) as [d|].
  { eexists. eexists. split; [exact H2|]. repeat split. discriminate. }
  eexists. eexists. split; [exact H2|]. repeat split.
Qed.

Lemma Update_second_holder_refused_witness :
  exists (w1 w2 : World),
    Update (Some 0%nat) Samples.two_callers = Ret None w1 /\
    Update (Some 1%nat) w1 = Ret (Some ErrVersionConflict) w2 /\
    table w2 = table w1 /\ heap w2 = heap w1.
Proof.
  set (w1 := PipelineStore.mkWorld
               [written_back (quiet 0) Samples.nightly; Samples.nightly]
               [update_set (bound_args (quiet 0) Samples.nightly) Samples.nightly]
               [] [StmtUpdate (bound_args (quiet 0) Samples.nightly)]).
  destruct (Update_second_holder_refused Samples.two_callers w1 0 1
              Samples.nightly Samples.nightly eq_refl eq_refl
              ltac:(discriminate) eq_refl eq_refl
              ltac:(unfold Int64.min_int, Int64.max_int; simpl; lia)
              eq_refl eq_refl)
    as (err & w2 & H2 & Ht & Hh & Herr).
  exists w1, w2. split; [reflexivity|].
  rewrite <- (Herr eq_refl eq_refl eq_refl). repeat split; assumption.
Defined.

(** One round of [UpdateOptLock] on a struct that has the version of
    the stored row: the copy that the callback changed is written. *)
Lemma UpdateOptLock_current (mutateFn : MutateFn) (fuel : nat) (w : World)
      (l : nat) (v r : Pipeline) :
  heap w !! l = Some v ->
  quiet_env (current_env w) ->
  rows_of (ID v) (table w) = [r] ->
  Version r = Version v ->
  well_behaved mutateFn ->
  Int64.min_int <= Version v < Int64.max_int ->
  let e := current_env w in
  let v' := fst (mutateFn v) in
  UpdateOptLock (S fuel) (Some l) mutateFn w =
    Ret (Some (length (heap w)), None)
        (mkWorld (heap w ++ [written_back e v'])
                 (update_rows (bound_args e v') (table w)) (rest_oracle w)
                 (trace w ++ [StmtUpdate (bound_args e v')])).
Proof.
  intros Hl Hq Hrow Hsame Hwb Hver e v'.
  destruct (Hwb v) as (Hid & Hv & Hnil). fold v' in Hid, Hv.
  rewrite (PipelineFacts.UpdateOptLock_step mutateFn fuel w l v Hl). cbv zeta.
  rewrite Hnil. fold v'.
  set (w1 := with_heap (heap w ++ [v']) w).
  assert (Hd : heap w1 !! length (heap w) = Some v') by apply PipelineFacts.lookup_snoc.
  assert (Hver' : Int64.min_int <= Version v' < Int64.max_int) by (rewrite Hv; exact Hver).
  rewrite (Update_quiet w1 (length (heap w)) v' Hd Hq Hver'). cbv zeta.
  change (table w1) with (table w).
  assert (Hrow' : rows_of (ID v') (table w) = [r]) by (rewrite Hid; exact Hrow).
  rewrite (filter_same_version v' r _ Hrow').
  rewrite Hv, Hsame, Z.eqb_refl.
  change (heap w1) with (heap w ++ [v']). rewrite PipelineFacts.insert_snoc.
  reflexivity.
Qed.

(** One round of [UpdateOptLock] on a struct that is out of date: the
    update is refused, the row is read again, and the loop goes on with
    the struct that [Find] returned. *)
Lemma UpdateOptLock_stale (mutateFn : MutateFn) (fuel : nat) (w : World)
      (l : nat) (v r : Pipeline) :
  heap w !! l = Some v ->
  quiet_env (current_env w) ->
  quiet_env (following_env w) ->
  rows_of (ID v) (table w) = [r] ->
  Version r <> Version v ->
  well_behaved mutateFn ->
  Int64.min_int <= Version v < Int64.max_int ->
  let e := current_env w in
  let v' := fst (mutateFn v) in
  UpdateOptLock (S fuel) (Some l) mutateFn w =
    UpdateOptLock fuel (Some (S (length (heap w)))) mutateFn
      (mkWorld (heap w ++ [v'; r]) (table w) (tail (rest_oracle w))
               (trace w ++ [StmtUpdate (bound_args e v'); StmtSelectByID (ID v)])).
Proof.
  intros Hl Hq Hq' Hrow Hdiff Hwb Hver e v'.
  destruct (Hwb v) as (Hid & Hv & Hnil). fold v' in Hid, Hv.
  rewrite (PipelineFacts.UpdateOptLock_step mutateFn fuel w l v Hl). cbv zeta.
  rewrite Hnil. fold v'.
  set (w1 := with_heap (heap w ++ [v']) w).
  assert (Hd : heap w1 !! length (heap w) = Some v') by apply PipelineFacts.lookup_snoc.
  assert (Hver' : Int64.min_int <= Version v' < Int64.max_int) by (rewrite Hv; exact Hver).
  rewrite (Update_quiet w1 (length (heap w)) v' Hd Hq Hver'). cbv zeta.
  change (table w1) with (table w).
  assert (Hrow' : rows_of (ID v') (table w) = [r]) by (rewrite Hid; exact Hrow).
  rewrite (filter_same_version v' r _ Hrow').
  rewrite Hv. rewrite (proj2 (Z.eqb_neq _ _) Hdiff).
  cbn [errors_Is error_eqb orb negb].
  rewrite Find_quiet by (apply quiet_undisturbed; exact Hq').
  cbn [table heap trace].
  rewrite (ConcurrentFacts.rows_of_find _ _ _ Hrow).
  unfold w1, with_heap, rest_oracle; cbn [heap table oracle trace].
  rewrite length_app, Nat.add_1_r. rewrite <- !app_assoc. reflexivity.
Qed.

(** X9.  [UpdateOptLock] alone on a pipeline, with a callback that
    keeps key and version and does not fail, ends within two rounds.
    What it writes is the callback applied to the current state: to the
    caller's struct if that has the stored version, to the stored row
    otherwise, so that a change made since the caller read the pipeline
    is not overwritten by the stale copy.  The result is a new struct,
    one version after the stored row; the caller's struct is as it
    was. *)
Theorem UpdateOptLock_alone (mutateFn : MutateFn) (fuel : nat) (w : World)
        (l : nat) (v r : Pipeline) :
  heap w !! l = Some v ->
  Forall quiet_env (oracle w) ->
  rows_of (ID v) (table w) = [r] ->
  well_behaved mutateFn ->
  Int64.min_int <= Version v < Int64.max_int ->
  Int64.min_int <= Version r < Int64.max_int ->
  let cur := if Version r =? Version v then v else r in
  exists (w' : World) (l' : nat) (e : Env),
    UpdateOptLock (2 + fuel) (Some l) mutateFn w = Ret (Some l', None) w' /\
    l' <> l /\
    heap w' !! l = Some v /\
    heap w' !! l' = Some (written_back e (fst (mutateFn cur))) /\
    rows_of (ID v) (table w') = [update_set (bound_args e (fst (mutateFn cur))) r] /\
    Version (written_back e (fst (mutateFn cur))) = Version r + 1.
Proof.
  intros Hl Hall Hrow Hwb Hver Hverr cur.
  change (2 + fuel)%nat with (S (S fuel)).
  assert (Hlt : (l < length (heap w))%nat) by (eapply lookup_lt_Some; exact Hl).
  pose proof (ConcurrentFacts.quiet_current w Hall) as Hq.
  pose proof (ConcurrentFacts.quiet_rest w Hall) as Hrest.
  assert (Hidr : ID r = ID v) by (apply (ConcurrentFacts.rows_of_ID _ _ _ Hrow)).
  destruct (Z.eqb_spec (Version r) (Version v)) as [Hsame|Hdiff].
  - subst cur.
    rewrite (UpdateOptLock_current mutateFn (S fuel) w l v r Hl Hq Hrow Hsame Hwb Hver).
    destruct (Hwb v) as (Hid & Hv & _).
    eexists. exists (length (heap w)), (current_env w).
    split; [reflexivity|]. cbn [heap table].
    split; [lia|].
    split; [rewrite lookup_app_l by lia; exact Hl|].
    split; [apply PipelineFacts.lookup_snoc|].
    split.
    + rewrite <- Hid at 1. apply rows_of_updated.
      * rewrite Hid. exact Hrow.
      * rewrite Hv. exact Hsame.
      * rewrite Hv. exact Hver.
    + simpl. rewrite Hv, Hsame. apply incr_in_range. exact Hver.
  - subst cur.
    assert (Hq' : quiet_env (following_env w)).
    { apply (ConcurrentFacts.quiet_current
               (mkWorld (heap w) (table w) (rest_oracle w) (trace w))). exact Hrest. }
    rewrite (UpdateOptLock_stale mutateFn (S fuel) w l v r Hl Hq Hq' Hrow Hdiff Hwb Hver).
    set (w2 := mkWorld (heap w ++ [fst (mutateFn v); r]) (table w)
                       (tail (rest_oracle w))
                       (trace w ++ [StmtUpdate (bound_args (current_env w)
                                                           (fst (mutateFn v)));
                                    StmtSelectByID (ID v)])).
    assert (Hl2 : heap w2 !! S (length (heap w)) = Some r).
    { unfold w2; cbn [heap]. rewrite lookup_app_r by lia.
      replace (S (length (heap w)) - length (heap w))%nat with 1%nat by lia.
      reflexivity. }
    assert (Hq2 : quiet_env (current_env w2)).
    { apply ConcurrentFacts.quiet_current. unfold w2; cbn [oracle].
      apply (ConcurrentFacts.quiet_rest
               (mkWorld (heap w) (table w) (rest_oracle w) (trace w))). exact Hrest. }
    assert (Hrow2 : rows_of (ID r) (table w2) = [r]) by (rewrite Hidr; exact Hrow).
    rewrite (UpdateOptLock_current mutateFn fuel w2 _ r r Hl2 Hq2 Hrow2 eq_refl Hwb Hverr).
    destruct (Hwb r) as (Hid & Hv & _).
    eexists. exists (length (heap w2)), (current_env w2).
    split; [reflexivity|]. cbn [heap table].
    assert (Hlen : length (heap w2) = (length (heap w) + 2)%nat).
    { unfold w2; cbn [heap]. rewrite length_app. reflexivity. }
    split; [lia|].
    split.
    { unfold w2; cbn [heap]. rewrite !lookup_app_l; [exact Hl|lia|].
      rewrite length_app. simpl. lia. }
    split; [apply PipelineFacts.lookup_snoc|].
    split.
    + rewrite <- Hidr. rewrite <- Hid at 1. apply rows_of_updated.
      * rewrite Hid. exact Hrow2.
      * rewrite Hv. reflexivity.
      * rewrite Hv. exact Hverr.
    + simpl. rewrite Hv. apply incr_in_range. exact Hverr.
Qed.

Lemma UpdateOptLock_alone_witness :
  exists (w' : World) (l' : nat) (e : Env),
    UpdateOptLock 2 (Some 0%nat) CrudSamples.describe CrudSamples.late_caller =
      Ret (Some l', None) w' /\
    heap w' !! 0%nat = Some Samples.nightly /\
    heap w' !! l' =
      Some (written_back e (fst (CrudSamples.describe CrudSamples.nightly_later))) /\
    Version (written_back e (fst (CrudSamples.describe CrudSamples.nightly_later))) = 6.
Proof.
  destruct (UpdateOptLock_alone CrudSamples.describe 0 CrudSamples.late_caller 0
              Samples.nightly CrudSamples.nightly_later eq_refl
              (Forall_nil_2 _) eq_refl
              (fun u => conj eq_refl (conj eq_refl eq_refl))
              ltac:(unfold Int64.min_int, Int64.max_int; simpl; lia)
              ltac:(unfold Int64.min_int, Int64.max_int; simpl; lia))
    as (w' & l' & e & H & _ & Hl & Hl' & _ & Hv).
  exists w', l', e. repeat split; assumption.
Defined.

(** X10.  [UpdateOptLock] on a pipeline that has been deleted does
    not loop: the update finds no row, which looks like a version
    conflict, and the [Find] that follows ends the loop with the
    not-found error.  Two statements were sent, nothing was written. *)
Theorem UpdateOptLock_deleted_row (mutateFn : MutateFn) (fuel : nat) (w : World)
        (l : nat) (v : Pipeline) :
  heap w !! l = Some v ->
  quiet_env (current_env w) ->
  quiet_env (following_env w) ->
  rows_of (ID v) (table w) = [] ->
  well_behaved mutateFn ->
  Int64.min_int <= Version v < Int64.max_int ->
  exists (w' : World) (args : Pipeline),
    UpdateOptLock (S fuel) (Some l) mutateFn w =
      Ret (None, Some ErrResourceNotFound) w' /\
    table w' = table w /\
    heap w' !! l = Some v /\
    trace w' = trace w ++ [StmtUpdate args; StmtSelectByID (ID v)].
Proof.
  intros Hl Hq Hq' Hrow Hwb Hver.
  assert (Hlt : (l < length (heap w))%nat) by (eapply lookup_lt_Some; exact Hl).
  destruct (Hwb v) as (Hid & Hv & Hnil).
  set (v' := fst (mutateFn v)) in *.
  rewrite (PipelineFacts.UpdateOptLock_step mutateFn fuel w l v Hl). cbv zeta.
  rewrite Hnil. fold v'.
  set (w1 := with_heap (heap w ++ [v']) w).
  assert (Hd : heap w1 !! length (heap w) = Some v') by apply PipelineFacts.lookup_snoc.
  assert (Hver' : Int64.min_int <= Version v' < Int64.max_int) by (rewrite Hv; exact Hver).
  rewrite (Update_quiet w1 (length (heap w)) v' Hd Hq Hver'). cbv zeta.
  change (table w1) with (table w).
  rewrite (filter_same_version_none v') by (rewrite Hid; exact Hrow).
  cbn [errors_Is error_eqb orb negb].
  rewrite Find_quiet by (apply quiet_undisturbed; exact Hq').
  cbn [table heap trace].
  rewrite (rows_of_none_find _ _ Hrow).
  eexists. exists (bound_args (current_env w1) v').
  split; [reflexivity|]. cbn [table heap trace].
  split; [reflexivity|]. split.
  - unfold w1, with_heap; cbn [heap].
    rewrite !lookup_app_l; [exact Hl|lia|]. rewrite length_app. simpl. lia.
  - unfold w1, with_heap; cbn [trace]. rewrite <- app_assoc. reflexivity.
Qed.

Lemma UpdateOptLock_deleted_row_witness :
  exists (w' : World),
    UpdateOptLock 1 (Some 0%nat) CrudSamples.describe CrudSamples.bereft_caller =
      Ret (None, Some ErrResourceNotFound) w' /\
    table w' = [].
Proof.
  destruct (UpdateOptLock_deleted_row CrudSamples.describe 0
              CrudSamples.bereft_caller 0 Samples.nightly eq_refl
              (conj eq_refl (conj eq_refl (conj eq_refl eq_refl)))
              (conj eq_refl (conj eq_refl (conj eq_refl eq_refl)))
              eq_refl
              (fun u => conj eq_refl (conj eq_refl eq_refl))
              ltac:(unfold Int64.min_int, Int64.max_int; simpl; lia))
    as (w' & args & H & Ht & _).
  exists w'. split; [exact H|exact Ht].
Defined.

(** X11.  [IncrementSeqNum] on a pipeline that has been deleted ends
    after one round with [nil] and the not-found error, wrapped, which
    [errors.Is] still recognises.  Nothing is written, but the caller's
    struct has been changed: its sequence number is one higher. *)
Theorem IncrementSeqNum_deleted_row (fuel : nat) (w : World) (l : nat)
        (v : Pipeline) :
  heap w !! l = Some v ->
  quiet_env (current_env w) ->
  quiet_env (following_env w) ->
  rows_of (ID v) (table w) = [] ->
  Int64.min_int <= Version v < Int64.max_int ->
  exists (w' : World) (err : error),
    IncrementSeqNum (S fuel) (Some l) w = Ret (None, Some err) w' /\
    err = Wrapped incrementMsg ErrResourceNotFound /\
    errors_Is err ErrResourceNotFound = true /\
    table w' = table w /\
    heap w' !! l = Some (with_Seq (Int64.incr (Seq v)) v).
Proof.
  intros Hl Hq Hq' Hrow Hver.
  assert (Hlt : (l < length (heap w))%nat) by (eapply lookup_lt_Some; exact Hl).
  rewrite (PipelineFacts.IncrementSeqNum_step fuel w l v Hl). cbv zeta.
  set (v1 := with_Seq (Int64.incr (Seq v)) v).
  set (w1 := with_heap (<[l := v1]> (heap w)) w).
  assert (Hl1 : heap w1 !! l = Some v1).
  { unfold w1, with_heap; cbn [heap]. apply list_lookup_insert_eq. exact Hlt. }
  rewrite (Update_quiet w1 l v1 Hl1 Hq Hver). cbv zeta.
  change (table w1) with (table w).
  rewrite (filter_same_version_none v1) by exact Hrow.
  cbn [errors_Is error_eqb orb negb].
  rewrite Find_quiet by (apply quiet_undisturbed; exact Hq').
  cbn [table heap trace].
  rewrite (rows_of_none_find _ _ Hrow).
  eexists. eexists. split; [reflexivity|].
  split; [reflexivity|]. split; [reflexivity|].
  cbn [table heap]. split; [reflexivity|].
  rewrite lookup_app_l by (eapply lookup_lt_Some; exact Hl1). exact Hl1.
Qed.

Lemma IncrementSeqNum_deleted_row_witness :
  exists (w' : World),
    IncrementSeqNum 1 (Some 0%nat) CrudSamples.bereft_caller =
      Ret (None, Some (Wrapped incrementMsg ErrResourceNotFound)) w' /\
    Seq <$> heap w' !! 0%nat = Some 6.
Proof.
  destruct (IncrementSeqNum_deleted_row 0 CrudSamples.bereft_caller 0
              Samples.nightly eq_refl
              (conj eq_refl (conj eq_refl (conj eq_refl eq_refl)))
              (conj eq_refl (conj eq_refl (conj eq_refl eq_refl)))
              eq_refl
              ltac:(unfold Int64.min_int, Int64.max_int; simpl; lia))
    as (w' & err & H & -> & _ & _ & Hh).
  exists w'. split; [exact H|]. rewrite Hh. reflexivity.
Defined.

(** One round of [IncrementSeqNum] on a struct that has the version of
    the stored row. *)
Lemma IncrementSeqNum_current (fuel : nat) (w : World) (l : nat) (v r : Pipeline) :
  heap w !! l = Some v ->
  quiet_env (current_env w) ->
  rows_of (ID v) (table w) = [r] ->
  Version r = Version v ->
  Int64.min_int <= Version v < Int64.max_int ->
  let e := current_env w in
  let v1 := with_Seq (Int64.incr (Seq v)) v in
  IncrementSeqNum (S fuel) (Some l) w =
    Ret (Some l, None)
        (mkWorld (<[l := written_back e v1]> (heap w))
                 (update_rows (bound_args e v1) (table w)) (rest_oracle w)
                 (trace w ++ [StmtUpdate (bound_args e v1)])).
Proof.
  intros Hl Hq Hrow Hsame Hver e v1.
  assert (Hlt : (l < length (heap w))%nat) by (eapply lookup_lt_Some; exact Hl).
  rewrite (PipelineFacts.IncrementSeqNum_step fuel w l v Hl). cbv zeta. fold v1.
  set (w1 := with_heap (<[l := v1]> (heap w)) w).
  assert (Hl1 : heap w1 !! l = Some v1).
  { unfold w1, with_heap; cbn [heap]. apply list_lookup_insert_eq. exact Hlt. }
  rewrite (Update_quiet w1 l v1 Hl1 Hq Hver). cbv zeta.
  change (table w1) with (table w).
  rewrite (filter_same_version v1 r _ Hrow).
  change (Version v1) with (Version v). rewrite Hsame, Z.eqb_refl.
  change (heap w1) with (<[l := v1]> (heap w)). rewrite list_insert_insert_eq.
  reflexivity.
Qed.

(** One round of [IncrementSeqNum] on a struct that is out of date. *)
Lemma IncrementSeqNum_stale (fuel : nat) (w : World) (l : nat) (v r : Pipeline) :
  heap w !! l = Some v ->
  quiet_env (current_env w) ->
  quiet_env (following_env w) ->
  rows_of (ID v) (table w) = [r] ->
  Version r <> Version v ->
  Int64.min_int <= Version v < Int64.max_int ->
  let e := current_env w in
  let v1 := with_Seq (Int64.incr (Seq v)) v in
  IncrementSeqNum (S fuel) (Some l) w =
    IncrementSeqNum fuel (Some (length (heap w)))
      (mkWorld (<[l := v1]> (heap w) ++ [r]) (table w) (tail (rest_oracle w))
               (trace w ++ [StmtUpdate (bound_args e v1); StmtSelectByID (ID v)])).
Proof.
  intros Hl Hq Hq' Hrow Hdiff Hver e v1.
  assert (Hlt : (l < length (heap w))%nat) by (eapply lookup_lt_Some; exact Hl).
  rewrite (PipelineFacts.IncrementSeqNum_step fuel w l v Hl). cbv zeta. fold v1.
  set (w1 := with_heap (<[l := v1]> (heap w)) w).
  assert (Hl1 : heap w1 !! l = Some v1).
  { unfold w1, with_heap; cbn [heap]. apply list_lookup_insert_eq. exact Hlt. }
  rewrite (Update_quiet w1 l v1 Hl1 Hq Hver). cbv zeta.
  change (table w1) with (table w).
  rewrite (filter_same_version v1 r _ Hrow).
  change (Version v1) with (Version v). rewrite (proj2 (Z.eqb_neq _ _) Hdiff).
  cbn [errors_Is error_eqb orb negb].
  rewrite Find_quiet by (apply quiet_undisturbed; exact Hq').
  cbn [table heap trace].
  rewrite (ConcurrentFacts.rows_of_find _ _ _ Hrow).
  unfold w1, with_heap, rest_oracle; cbn [heap table oracle trace].
  rewrite length_insert. rewrite <- !app_assoc. reflexivity.
Qed.

(** X12.  [IncrementSeqNum] alone on a pipeline ends within two rounds
    and returns a struct one version after the stored row.  The
    sequence number that it stores and returns is one more than the
    caller's if the caller's struct has the stored version, and one more
    than the stored one otherwise; the pointer returned is the caller's
    exactly in the first case. *)
Theorem IncrementSeqNum_alone (fuel : nat) (w : World) (l : nat) (v r : Pipeline) :
  heap w !! l = Some v ->
  Forall quiet_env (oracle w) ->
  rows_of (ID v) (table w) = [r] ->
  Int64.min_int <= Version v < Int64.max_int ->
  Int64.min_int <= Version r < Int64.max_int ->
  let cur := if Version r =? Version v then v else r in
  exists (w' : World) (l' : nat) (x r' : Pipeline),
    IncrementSeqNum (2 + fuel) (Some l) w = Ret (Some l', None) w' /\
    heap w' !! l' = Some x /\
    rows_of (ID v) (table w') = [r'] /\
    Seq x = Int64.incr (Seq cur) /\
    Seq r' = Int64.incr (Seq cur) /\
    Version x = Version r + 1 /\
    Version r' = Version r + 1 /\
    (l' = l <-> Version r = Version v).
Proof.
  intros Hl Hall Hrow Hver Hverr cur.
  change (2 + fuel)%nat with (S (S fuel)).
  assert (Hlt : (l < length (heap w))%nat) by (eapply lookup_lt_Some; exact Hl).
  pose proof (ConcurrentFacts.quiet_current w Hall) as Hq.
  pose proof (ConcurrentFacts.quiet_rest w Hall) as Hrest.
  assert (Hidr : ID r = ID v) by (apply (ConcurrentFacts.rows_of_ID _ _ _ Hrow)).
  destruct (Z.eqb_spec (Version r) (Version v)) as [Hsame|Hdiff].
  - subst cur.
    rewrite (IncrementSeqNum_current (S fuel) w l v r Hl Hq Hrow Hsame Hver).
    set (v1 := with_Seq (Int64.incr (Seq v)) v).
    eexists. exists l. eexists. eexists.
    split; [reflexivity|]. cbn [heap table].
    split; [apply list_lookup_insert_eq; exact Hlt|].
    split; [apply (rows_of_updated v1 r _ _ Hrow Hsame Hver)|].
    split; [reflexivity|]. split; [reflexivity|].
    split; [simpl; rewrite Hsame; apply incr_in_range; exact Hver|].
    split; [simpl; rewrite Hsame; apply incr_in_range; exact Hver|].
    split; intros _; [exact Hsame|reflexivity].
  - subst cur.
    assert (Hq' : quiet_env (following_env w)).
    { apply (ConcurrentFacts.quiet_current
               (mkWorld (heap w) (table w) (rest_oracle w) (trace w))). exact Hrest. }
    rewrite (IncrementSeqNum_stale (S fuel) w l v r Hl Hq Hq' Hrow Hdiff Hver).
    set (v1 := with_Seq (Int64.incr (Seq v)) v).
    set (w2 := mkWorld (<[l := v1]> (heap w) ++ [r]) (table w)
                       (tail (rest_oracle w))
                       (trace w ++ [StmtUpdate (bound_args (current_env w) v1);
                                    StmtSelectByID (ID v)])).
    assert (Hl2 : heap w2 !! length (heap w) = Some r).
    { unfold w2; cbn [heap]. rewrite <- (length_insert (heap w) l v1) at 1.
      apply PipelineFacts.lookup_snoc. }
    assert (Hq2 : quiet_env (current_env w2)).
    { apply ConcurrentFacts.quiet_current. unfold w2; cbn [oracle].
      apply (ConcurrentFacts.quiet_rest
               (mkWorld (heap w) (table w) (rest_oracle w) (trace w))). exact Hrest. }
    assert (Hrow2 : rows_of (ID r) (table w2) = [r]) by (rewrite Hidr; exact Hrow).
    rewrite (IncrementSeqNum_current fuel w2 _ r r Hl2 Hq2 Hrow2 eq_refl Hverr).
    set (r1 := with_Seq (Int64.incr (Seq r)) r).
    eexists. exists (length (heap w)). eexists. eexists.
    split; [reflexivity|]. cbn [heap table].
    split; [apply list_lookup_insert_eq; eapply lookup_lt_Some; exact Hl2|].
    split.
    { rewrite <- Hidr. apply (rows_of_updated r1 r _ _ Hrow2 eq_refl Hverr). }
    split; [reflexivity|]. split; [reflexivity|].
    split; [simpl; apply incr_in_range; exact Hverr|].
    split; [simpl; apply incr_in_range; exact Hverr|].
    split; [lia|]. intros Hs. contradiction.
Qed.

Lemma IncrementSeqNum_alone_witness :
  exists (w' : World) (l' : nat) (x : Pipeline),
    IncrementSeqNum 2 (Some 0%nat) CrudSamples.late_caller = Ret (Some l', None) w' /\
    heap w' !! l' = Some x /\
    Seq x = 8 /\ Version x = 6 /\ l' <> 0%nat.
Proof.
  destruct (IncrementSeqNum_alone 0 CrudSamples.late_caller 0
              Samples.nightly CrudSamples.nightly_later eq_refl
              (Forall_nil_2 _) eq_refl
              ltac:(unfold Int64.min_int, Int64.max_int; simpl; lia)
              ltac:(unfold Int64.min_int, Int64.max_int; simpl; lia))
    as (w' & l' & x & r' & H & Hx & _ & Hs & _ & Hv & _ & Hl).
  exists w', l', x. repeat split; try assumption.
  intros E. apply Hl in E. discriminate E.
Defined.

(** X24.  What [Update] never does, whatever its outcome: it adds no
    row and removes none, it changes the key, the space, the repository
    and the time of creation of no row, it leaves the rows of other
    pipelines as they are, and it touches no struct but the caller's. *)
Theorem Update_frame (w : World) (l : nat) (v : Pipeline) :
  heap w !! l = Some v ->
  let t := observed (current_env w) (table w) in
  exists (err : option error) (w' : World),
    Update (Some l) w = Ret err w' /\
    map fixed_columns (table w') = map fixed_columns t /\
    (forall i r, t !! i = Some r -> ID r <> ID v -> table w' !! i = Some r) /\
    (forall l' x, l' <> l -> heap w !! l' = Some x -> heap w' !! l' = Some x).
Proof.
  intros Hl t.
  pose proof (PipelineFacts.Update_unfold w l v Hl) as HU. cbv zeta in HU.
  fold t in HU.
  set (args := bound_args (current_env w) v) in *.
  assert (Hfix : map fixed_columns (update_rows args t) = map fixed_columns t).
  { unfold update_rows. rewrite map_map. apply map_ext. intros r.
    destruct (update_matches args r); reflexivity. }
  assert (Hother : forall i r, t !! i = Some r -> ID r <> ID v ->
                               update_rows args t !! i = Some r).
  { intros i r Hi Hne. unfold update_rows.
    change (map ?f t) with (f <$> t). rewrite list_lookup_fmap, Hi. simpl.
    unfold update_matches. change (ID args) with (ID v).
    rewrite (proj2 (Z.eqb_neq _ _) Hne). reflexivity. }
  destruct (env_bind _); [|destruct (env_exec _); [|destruct (env_result _);
    [|destruct (rows_affected _ _ =? 0)]]];
    eexists; eexists; (split; [exact HU|]); cbn [table heap];
    (split; [first [exact Hfix | reflexivity]|]);
    (split; [first [exact Hother | intros i r Hi _; exact Hi]|]);
    intros l' x Hne Hx; try exact Hx.
  rewrite list_lookup_insert_ne by (intros E; apply Hne; symmetry; exact E).
  exact Hx.
Qed.

Lemma Update_frame_witness :
  exists (err : option error) (w' : World),
    Update (Some 0%nat) Samples.two_callers = Ret err w' /\
    map fixed_columns (table w') = [(1, 1, 10, "git", "drone", 1000)] /\
    heap w' !! 1%nat = Some Samples.nightly.
Proof.
  destruct (Update_frame Samples.two_callers 0 Samples.nightly eq_refl)
    as (err & w' & H & Hfix & _ & Hheap).
  exists err, w'. split; [exact H|]. split; [exact Hfix|].
  apply Hheap; [discriminate|reflexivity].
Defined.

(** One round of [IncrementSeqNum] lost to a rival: the rival has
    committed [r'] before the update, the update is refused, and the
    loop goes on with a copy of [r']. *)
Lemma IncrementSeqNum_lost_round (fuel : nat) (w : World) (l : nat)
      (v r' : Pipeline) (rest : list Env) :
  heap w !! l = Some v ->
  oracle w = mkEnv (Some [r']) 0 None None None :: quiet 0 :: rest ->
  ID r' = ID v ->
  Version r' <> Version v ->
  Int64.min_int <= Version v < Int64.max_int ->
  let v1 := with_Seq (Int64.incr (Seq v)) v in
  IncrementSeqNum (S fuel) (Some l) w =
    IncrementSeqNum fuel (Some (length (heap w)))
      (mkWorld (<[l := v1]> (heap w) ++ [r']) [r'] rest
               (trace w ++ [StmtUpdate (bound_args (mkEnv (Some [r']) 0 None None None) v1);
                            StmtSelectByID (ID v)])).
Proof.
  intros Hl Ho Hid Hdiff Hver v1.
  assert (Hlt : (l < length (heap w))%nat) by (eapply lookup_lt_Some; exact Hl).
  rewrite (PipelineFacts.IncrementSeqNum_step fuel w l v Hl). cbv zeta. fold v1.
  set (w1 := with_heap (<[l := v1]> (heap w)) w).
  assert (Hl1 : heap w1 !! l = Some v1).
  { unfold w1, with_heap; cbn [heap]. apply list_lookup_insert_eq. exact Hlt. }
  rewrite (PipelineFacts.Update_unfold w1 l v1 Hl1). cbv zeta.
  unfold current_env, rest_oracle. change (oracle w1) with (oracle w). rewrite Ho.
  cbn [env_bind env_exec env_result env_commits observed tail].
  set (e1 := mkEnv (Some [r']) 0 None None None).
  assert (Hno : update_matches (bound_args e1 v1) r' = false).
  { rewrite PipelineFacts.update_matches_bound by exact Hver.
    unfold same_version. change (Version v1) with (Version v).
    rewrite (proj2 (Z.eqb_neq _ _) Hdiff). apply andb_false_r. }
  unfold rows_affected, update_rows. cbn [List.filter map]. rewrite Hno.
  cbn [length]. change (Z.of_nat 0 =? 0) with true. cbv iota.
  cbn [errors_Is error_eqb orb negb].
  rewrite PipelineFacts.Find_unfold. cbv zeta.
  unfold current_env, rest_oracle. cbn [oracle table heap trace].
  cbn [quiet env_exec env_commits observed List.find tail].
  change (ID v1) with (ID v). rewrite Hid, Z.eqb_refl.
  change (heap w1) with (<[l := v1]> (heap w)). change (trace w1) with (trace w).
  rewrite length_insert. rewrite <- !app_assoc. reflexivity.
Qed.

(** X25.  The loop of [IncrementSeqNum] has no bound of its own, and
    it ends as soon as the rivals do.  Against a rival that commits a
    new version of the row before each of the first [n] attempts, [n]
    rounds are not enough, for every [n]; the attempt after that
    succeeds.  The result is one after the version that the last rival
    left, its sequence number is one after the stored one, the row is
    the struct returned, and [2 n + 1] statements were sent. *)
Theorem IncrementSeqNum_outlasts_rivals (n k : nat) :
  forall (w : World) (l : nat) (r : Pipeline),
    heap w !! l = Some r ->
    table w = [r] ->
    oracle w = rival r n ->
    Int64.min_int <= Version r ->
    Version r + Z.of_nat n < Int64.max_int ->
    IncrementSeqNum n (Some l) w = OutOfFuel /\
    exists (w' : World) (l' : nat) (x : Pipeline),
      IncrementSeqNum (n + S k) (Some l) w = Ret (Some l', None) w' /\
      heap w' !! l' = Some x /\
      table w' = [x] /\
      Seq x = Int64.incr (Seq r) /\
      Version x = Version r + Z.of_nat n + 1 /\
      length (trace w') = (length (trace w) + 2 * n + 1)%nat.
Proof.
  induction n as [|n IH]; intros w l r Hl Ht Ho Hlo Hhi.
  - split; [reflexivity|].
    assert (Hver : Int64.min_int <= Version r < Int64.max_int) by lia.
    assert (Hlt : (l < length (heap w))%nat) by (eapply lookup_lt_Some; exact Hl).
    assert (Hq : quiet_env (current_env w)).
    { unfold current_env. rewrite Ho. repeat split. }
    assert (Hrow : rows_of (ID r) (table w) = [r]).
    { rewrite Ht. unfold rows_of. simpl. rewrite Z.eqb_refl. reflexivity. }
    change (0 + S k)%nat with (S k).
    rewrite (IncrementSeqNum_current k w l r r Hl Hq Hrow eq_refl Hver).
    eexists. exists l. eexists. split; [reflexivity|]. cbn [heap table trace].
    split; [apply list_lookup_insert_eq; exact Hlt|].
    split.
    { rewrite Ht. unfold update_rows. cbn [map].
      rewrite PipelineFacts.update_matches_bound by exact Hver.
      unfold same_version. cbn [ID Version with_Seq]. rewrite !Z.eqb_refl.
      reflexivity. }
    split; [reflexivity|].
    split; [simpl; rewrite incr_in_range by exact Hver; lia|].
    rewrite length_app. simpl. lia.
  - assert (Hver : Int64.min_int <= Version r < Int64.max_int) by lia.
    cbn [rival] in Ho.
    set (r' := with_Version (Version r + 1) r) in *.
    assert (Hdiff : Version r' <> Version r) by (simpl; lia).
    pose proof (fun fuel => IncrementSeqNum_lost_round fuel w l r r' (rival r' n)
                              Hl Ho eq_refl Hdiff Hver) as Hround.
    cbv zeta in Hround.
    set (w2 := mkWorld (<[l := with_Seq (Int64.incr (Seq r)) r]> (heap w) ++ [r']) [r']
                       (rival r' n)
                       (trace w ++
                          [StmtUpdate (bound_args (mkEnv (Some [r']) 0 None None None)
                                                  (with_Seq (Int64.incr (Seq r)) r));
                           StmtSelectByID (ID r)])) in *.
    assert (Hl2 : heap w2 !! length (heap w) = Some r').
    { unfold w2; cbn [heap]. rewrite <- (length_insert (heap w) l
                                          (with_Seq (Int64.incr (Seq r)) r)) at 1.
      apply PipelineFacts.lookup_snoc. }
    destruct (IH w2 (length (heap w)) r' Hl2 eq_refl eq_refl)
      as [Hout (w' & l' & x & Hrun & Hx & Htab & Hseq & Hv & Htr)].
    { simpl. lia. }
    { simpl. lia. }
    split; [rewrite Hround; exact Hout|].
    exists w', l', x.
    change (S n + S k)%nat with (S (n + S k)). rewrite Hround.
    split; [exact Hrun|]. split; [exact Hx|]. split; [exact Htab|].
    split; [exact Hseq|].
    split; [rewrite Hv; simpl; lia|].
    rewrite Htr. unfold w2; cbn [trace]. rewrite length_app. simpl. lia.
Qed.

Lemma IncrementSeqNum_outlasts_rivals_witness :
  IncrementSeqNum 2 (Some 0%nat) (Samples.one_caller (rival Samples.nightly 2)) =
    OutOfFuel /\
  exists (w' : World) (l' : nat) (x : Pipeline),
    IncrementSeqNum 3 (Some 0%nat) (Samples.one_caller (rival Samples.nightly 2)) =
      Ret (Some l', None) w' /\
    heap w' !! l' = Some x /\
    Seq x = 6 /\ Version x = 6.
Proof.
  destruct (IncrementSeqNum_outlasts_rivals 2 0
              (Samples.one_caller (rival Samples.nightly 2)) 0 Samples.nightly
              eq_refl eq_refl eq_refl
              ltac:(unfold Int64.min_int; simpl; lia)
              ltac:(unfold Int64.max_int; simpl; lia))
    as [Hout (w' & l' & x & Hrun & Hx & _ & Hseq & Hv & _)].
  split; [exact Hout|].
  exists w', l', x. repeat split; assumption.
Defined.

End OptLockFacts.

(** ** Updating, deleting, creating and moving repositories *)

Module RepoCrudFacts.
Import Errors RepoStore RepoCrud.
Local Open Scope list_scope.

Local Ltac run_repo :=
  unfold BeginTxx, Commit, defer_Rollback, FindPathTx, in_tx, on_db, Rollback,
    tx_exec, db_exec, DeleteAllPaths,
    fault, now, log, get_tx, set_tx, get_committed, set_committed, ret,
    mbind, R_bind, mret, R_ret;
  cbn [committed tx faults clock trace fst snd List.hd List.tl].

Lemma filter_map_ID {A} (key : A -> Z) (f : A -> A) (id : Z) (l : list A) :
  (forall r, key (f r) = key r) ->
  List.filter (fun r => key r =? id) (map f l) =
  map f (List.filter (fun r => key r =? id) l).
Proof.
  intros Hk. induction l as [|a l IH]; simpl; [reflexivity|].
  rewrite Hk. destruct (key a =? id); simpl; rewrite IH; reflexivity.
Qed.

(** A change of columns that keeps the key and is not seen by the join
    commutes with the join on the primary path. *)
Lemma join_primary_map (f : Repository -> Repository) (d d' : DB)
      (rs : list Repository) :
  paths d' = paths d ->
  (forall r, ID (f r) = ID r) ->
  (forall v r, with_Path v (f r) = f (with_Path v r)) ->
  join_primary d' (map f rs) = map f (join_primary d rs).
Proof.
  intros Hp Hid Hpath. unfold join_primary. rewrite Hp.
  induction rs as [|r rs IH]; simpl; [reflexivity|].
  rewrite map_app, IH. f_equal.
  assert (Hprim : List.filter (primary_of (f r)) (paths d) =
                  List.filter (primary_of r) (paths d)).
  { apply List.filter_ext. intros p. unfold primary_of. rewrite Hid. reflexivity. }
  rewrite Hprim, map_map. apply map_ext. intros p. apply Hpath.
Qed.

Lemma repoSelectByID_repoUpdate (id : Z) (args : Repository) (d : DB) :
  repoSelectByID id (repoUpdate args d) =
  map (fun r => if ID r =? ID args then update_set args r else r)
      (repoSelectByID id d).
Proof.
  unfold repoSelectByID, repoUpdate. cbn [repositories].
  set (f := fun r => if ID r =? ID args then update_set args r else r).
  assert (Hid : forall r, ID (f r) = ID r).
  { intros r. unfold f. destruct (ID r =? ID args); reflexivity. }
  rewrite (filter_map_ID ID f id _ Hid).
  apply join_primary_map; [reflexivity|exact Hid|].
  intros v r. unfold f. cbn [with_Path ID]. destruct (ID r =? ID args); reflexivity.
Qed.

Lemma repoSelectByID_key (id : Z) (d : DB) (x : Repository) :
  In x (repoSelectByID id d) -> ID x = id.
Proof.
  unfold repoSelectByID, join_primary. rewrite in_flat_map.
  intros (r & Hr & Hx). apply List.filter_In in Hr as [_ Hr].
  apply in_map_iff in Hx as (p & <- & _). apply Z.eqb_eq. exact Hr.
Qed.

Lemma first_row_In {A} (rows : list A) (x : A) :
  first_row rows = inl x -> In x rows.
Proof. destruct rows; simpl; intros H; inversion H; auto. Qed.

Lemma first_row_map {A} (f : A -> A) (rows : list A) :
  first_row (map f rows) =
  match first_row rows with inl x => inl (f x) | inr e => inr e end.
Proof. destruct rows; reflexivity. Qed.

Lemma first_row_error {A} (rows : list A) (e : DriverError) :
  first_row rows = inr e -> e = ErrNoRows.
Proof. destruct rows; simpl; intros H; inversion H; reflexivity. Qed.

(** X13.  [Update] of a repository writes seven columns and no more:
    description, visibility, time of update and the four counters.  A
    [Find] afterwards returns the repository as [Find] would have
    returned it before with these seven values replaced; the name, the
    parent, the path and the other values in the caller's struct are
    not stored.  For a key that no repository has, [Update] returns nil
    all the same and changes nothing. *)
Theorem Repo_Update_then_Find (repo : Repository) (st : St) :
  no_fault 3 st ->
  exists (st1 st2 : St),
    Update repo st = (None, st1) /\
    paths (committed st1) = paths (committed st) /\
    Find (ID repo) st1 =
      (match first_row (repoSelectByID (ID repo) (committed st)) with
       | inl r0 => (Some (update_set repo r0), None)
       | inr _ => (None, Some ErrResourceNotFound)
       end, st2) /\
    ((forall r, In r (repositories (committed st)) -> ID r <> ID repo) ->
     committed st1 = committed st).
Proof.
  intros Hq. destruct st as [c t f k tr].
  apply RepoFacts.no_fault_S in Hq as [H1 Hq]. apply RepoFacts.no_fault_S in Hq as [H2 Hq].
  apply RepoFacts.no_fault_S in Hq as [H3 _].
  cbn [faults List.tl] in H2, H3.
  assert (HU : Update repo (mkSt c t f k tr) =
               (None, mkSt (repoUpdate repo c) t (List.tl (List.tl f)) k tr)).
  { unfold Update. run_repo. rewrite H1. run_repo. rewrite H2. reflexivity. }
  eexists. eexists. split; [exact HU|]. cbn [committed].
  split; [reflexivity|]. split.
  - unfold Find. run_repo. rewrite H3. run_repo.
    rewrite repoSelectByID_repoUpdate, first_row_map.
    destruct (first_row (repoSelectByID (ID repo) c)) as [r0|e] eqn:E.
    + rewrite (repoSelectByID_key _ _ _ (first_row_In _ _ E)), Z.eqb_refl.
      reflexivity.
    + rewrite (first_row_error _ _ E). reflexivity.
  - intros Hnone. unfold repoUpdate. destruct c as [rs ps]. cbn [repositories paths] in *.
    f_equal. rewrite <- (map_id rs) at 2. apply map_ext_in.
    intros r Hr. rewrite (proj2 (Z.eqb_neq _ _) (Hnone r Hr)). reflexivity.
Qed.

Lemma Repo_Update_then_Find_witness :
  exists (st1 st2 : St),
    Update CrudSamples.repo1_edited Samples.acme_store = (None, st1) /\
    Find 7 st1 = ((Some CrudSamples.repo1_stored, None), st2).
Proof.
  destruct (Repo_Update_then_Find CrudSamples.repo1_edited Samples.acme_store
              (Forall_nil_2 _)) as (st1 & st2 & HU & _ & HF & _).
  exists st1, st2. split; [exact HU|exact HF].
Defined.

(** X14.  [Delete] of a repository removes its path rows and its row
    together or not at all: when it returns an error the committed
    tables are as before, when it returns nil both deletions are
    committed.  It returns nil whenever the database does not fail,
    whether or not the repository exists. *)
Theorem Repo_Delete_atomic (id : Z) (st : St) :
  exists (err : option error) (st' : St),
    Delete id st = (err, st') /\
    (no_fault 4 st -> err = None) /\
    match err with
    | Some _ => committed st' = committed st
    | None =>
        committed st' =
          repoDelete id (deleteAllPaths PathTargetTypeRepo id (committed st)) /\
        tx st' = None
    end.
Proof.
  destruct st as [c t f k tr].
  unfold Delete. run_repo.
  destruct (List.hd None f) eqn:E1; run_repo.
  { eexists. eexists. split; [reflexivity|]. split; [|reflexivity].
    intros Hq. apply RepoFacts.no_fault_S in Hq as [H1 _]. congruence. }
  destruct (List.hd None (List.tl f)) eqn:E2; run_repo.
  { eexists. eexists. split; [reflexivity|]. split; [|reflexivity].
    intros Hq. apply RepoFacts.no_fault_S in Hq as [_ Hq].
    apply RepoFacts.no_fault_S in Hq as [H2 _]. congruence. }
  destruct (List.hd None (List.tl (List.tl f))) eqn:E3; run_repo.
  { eexists. eexists. split; [reflexivity|]. split; [|reflexivity].
    intros Hq. apply RepoFacts.no_fault_S in Hq as [_ Hq]. apply RepoFacts.no_fault_S in Hq as [_ Hq].
    apply RepoFacts.no_fault_S in Hq as [H3 _]. congruence. }
  destruct (List.hd None (List.tl (List.tl (List.tl f)))) eqn:E4; run_repo.
  { eexists. eexists. split; [reflexivity|]. split; [|reflexivity].
    intros Hq. apply RepoFacts.no_fault_S in Hq as [_ Hq]. apply RepoFacts.no_fault_S in Hq as [_ Hq].
    apply RepoFacts.no_fault_S in Hq as [_ Hq]. apply RepoFacts.no_fault_S in Hq as [H4 _]. congruence. }
  eexists. eexists. split; [reflexivity|]. split; [reflexivity|].
  split; reflexivity.
Qed.

Lemma join_primary_In (d : DB) (rs : list Repository) (x : Repository) :
  In x (join_primary d rs) ->
  exists r p, In r rs /\ In p (paths d) /\ primary_of r p = true /\
              x = with_Path (Value p) r.
Proof.
  unfold join_primary. rewrite in_flat_map. intros (r & Hr & Hx).
  apply in_map_iff in Hx as (p & <- & Hp). apply List.filter_In in Hp as [Hp Hprim].
  exists r, p. auto.
Qed.

Lemma repoSelectByPathUnique_In (u : string) (d : DB) (x : Repository) :
  In x (repoSelectByPathUnique u d) ->
  exists r, In r (repositories d) /\ ID x = ID r.
Proof.
  unfold repoSelectByPathUnique. rewrite in_flat_map. intros (p1 & _ & Hx).
  destruct (is_repo (TargetType p1) && String.eqb (ValueUnique p1) u); [|destruct Hx].
  apply join_primary_In in Hx as (r & p & Hr & _ & _ & ->).
  apply List.filter_In in Hr as [Hr _]. exists r. split; [exact Hr|reflexivity].
Qed.

Lemma join_primary_ext (d d' : DB) (rs : list Repository) :
  (forall r p, In r rs -> In p (paths d) -> primary_of r p = true ->
               In p (paths d')) ->
  (exists keep, paths d' = List.filter keep (paths d)) ->
  join_primary d' rs = join_primary d rs.
Proof.
  intros Hkeep [keep Hp]. unfold join_primary. rewrite Hp.
  induction rs as [|r rs IH]; simpl; [reflexivity|].
  rewrite IH by (intros r' p Hr'; apply Hkeep; right; exact Hr').
  f_equal. f_equal.
  rewrite <- ConcurrentFacts.filter_andb.
  apply List.filter_ext_in. intros p Hin.
  destruct (primary_of r p) eqn:E; [|apply andb_false_r].
  rewrite andb_true_r.
  specialize (Hkeep r p (or_introl eq_refl) Hin E). rewrite Hp in Hkeep.
  apply List.filter_In in Hkeep as [_ Hk]. exact Hk.
Qed.

(** X15.  After [Delete] the repository cannot be found: [Find] by its
    key answers with the not-found error, no path row names it as its
    target, and [FindByPath] returns it for no path, whatever the
    transformation of paths is. *)
Theorem Repo_Delete_then_Find
        (pathTransformation : string -> string + error) (id : Z) (st : St) :
  no_fault 5 st ->
  exists (st1 st2 : St),
    Delete id st = (None, st1) /\
    Find id st1 = ((None, Some ErrResourceNotFound), st2) /\
    no_path_of id (committed st1) /\
    (forall path r e st3,
        FindByPath pathTransformation path st1 = ((Some r, e), st3) ->
        ID r <> id).
Proof.
  intros Hq. destruct st as [c t f k tr].
  apply RepoFacts.no_fault_S in Hq as [H1 Hq]. apply RepoFacts.no_fault_S in Hq as [H2 Hq].
  apply RepoFacts.no_fault_S in Hq as [H3 Hq]. apply RepoFacts.no_fault_S in Hq as [H4 Hq].
  apply RepoFacts.no_fault_S in Hq as [H5 _].
  cbn [faults List.tl] in H2, H3, H4, H5.
  set (c1 := repoDelete id (deleteAllPaths PathTargetTypeRepo id c)).
  assert (HD : exists tr1,
             Delete id (mkSt c t f k tr) =
             (None, mkSt c1 None (List.tl (List.tl (List.tl (List.tl f)))) k tr1)).
  { unfold Delete. run_repo. rewrite H1. run_repo. rewrite H2. run_repo.
    rewrite H3. run_repo. rewrite H4. eexists. reflexivity. }
  destruct HD as [tr1 HD].
  assert (Hrows : forall r, In r (repositories c1) -> ID r <> id).
  { intros r Hr. unfold c1, repoDelete in Hr. cbn [repositories] in Hr.
    apply List.filter_In in Hr as [_ Hr]. apply negb_true_iff, Z.eqb_neq in Hr.
    exact Hr. }
  eexists. eexists. split; [exact HD|]. cbn [committed].
  split; [|split].
  - unfold Find. run_repo. rewrite H5. run_repo.
    replace (repoSelectByID id c1) with (@nil Repository); [reflexivity|].
    symmetry. destruct (repoSelectByID id c1) as [|x rest] eqn:E; [reflexivity|].
    exfalso. assert (Hx : In x (repoSelectByID id c1)) by (rewrite E; left; reflexivity).
    unfold repoSelectByID in Hx.
    apply join_primary_In in Hx as (r & _ & Hr & _).
    apply List.filter_In in Hr as [Hr Hk]. apply Z.eqb_eq in Hk.
    exact (Hrows r Hr Hk).
  - intros p Hp Hrepo Ht. unfold c1, repoDelete, deleteAllPaths in Hp.
    cbn [paths repositories] in Hp.
    apply List.filter_In in Hp as [_ Hp]. apply negb_true_iff in Hp.
    unfold target_eqb in Hp. rewrite Hrepo, Ht, Z.eqb_refl in Hp. discriminate.
  - intros path r e st3. unfold FindByPath.
    destruct (pathTransformation path) as [u|err]; [|intros H; discriminate H].
    run_repo. rewrite H5. run_repo.
    destruct (first_row (repoSelectByPathUnique u c1)) as [x|d] eqn:E;
      [|intros H; discriminate H].
    intros H. injection H as <- _ _.
    apply first_row_In, repoSelectByPathUnique_In in E as (r' & Hr' & ->).
    apply Hrows. exact Hr'.
Qed.

Lemma Repo_Delete_then_Find_witness :
  exists (st1 st2 : St),
    Delete 7 Samples.acme_store = (None, st1) /\
    Find 7 st1 = ((None, Some ErrResourceNotFound), st2) /\
    paths (committed st1) = [Samples.acme_path].
Proof.
  destruct (Repo_Delete_then_Find Samples.keep 7 Samples.acme_store
              (Forall_nil_2 _)) as (st1 & st2 & HD & HF & _).
  exists st1, st2. split; [exact HD|]. split; [exact HF|].
  revert HD. vm_compute. intros H. inversion H. reflexivity.
Defined.

Lemma repoSelectByID_repoDelete (id id' : Z) (c : DB) :
  id' <> id ->
  repoSelectByID id' (repoDelete id (deleteAllPaths PathTargetTypeRepo id c)) =
  repoSelectByID id' c.
Proof.
  intros Hne. unfold repoSelectByID.
  set (c1 := repoDelete id (deleteAllPaths PathTargetTypeRepo id c)).
  assert (Hrs : List.filter (fun r => ID r =? id') (repositories c1) =
                List.filter (fun r => ID r =? id') (repositories c)).
  { unfold c1, repoDelete; cbn [repositories deleteAllPaths].
    rewrite <- ConcurrentFacts.filter_andb. apply List.filter_ext. intros r.
    destruct (ID r =? id') eqn:E; [|apply andb_false_r].
    apply Z.eqb_eq in E. rewrite andb_true_r.
    apply negb_true_iff, Z.eqb_neq. lia. }
  rewrite Hrs. apply join_primary_ext.
  - intros r p Hr Hp Hprim. unfold c1, repoDelete, deleteAllPaths; cbn [paths].
    apply List.filter_In. split; [exact Hp|].
    apply List.filter_In in Hr as [_ Hr]. apply Z.eqb_eq in Hr.
    unfold primary_of in Hprim.
    apply andb_prop in Hprim as [Hprim _]. apply andb_prop in Hprim as [Ht _].
    apply Z.eqb_eq in Ht.
    apply negb_true_iff, andb_false_iff. right. apply Z.eqb_neq. lia.
  - eexists. unfold c1, repoDelete, deleteAllPaths; cbn [paths]. reflexivity.
Qed.

(** X16.  [Delete] of a repository leaves the other repositories and
    their paths alone: [Find] for another key answers after the deletion
    as it would have answered before. *)
Theorem Repo_Delete_keeps_others (id id' : Z) (st : St) :
  id' <> id ->
  no_fault 5 st ->
  exists (st1 st2 : St),
    Delete id st = (None, st1) /\
    Find id' st1 =
      (match first_row (repoSelectByID id' (committed st)) with
       | inl r => (Some r, None)
       | inr _ => (None, Some ErrResourceNotFound)
       end, st2).
Proof.
  intros Hne Hq. destruct st as [c t f k tr].
  apply RepoFacts.no_fault_S in Hq as [H1 Hq]. apply RepoFacts.no_fault_S in Hq as [H2 Hq].
  apply RepoFacts.no_fault_S in Hq as [H3 Hq]. apply RepoFacts.no_fault_S in Hq as [H4 Hq].
  apply RepoFacts.no_fault_S in Hq as [H5 _].
  cbn [faults List.tl] in H2, H3, H4, H5.
  set (c1 := repoDelete id (deleteAllPaths PathTargetTypeRepo id c)).
  assert (HD : exists tr1,
             Delete id (mkSt c t f k tr) =
             (None, mkSt c1 None (List.tl (List.tl (List.tl (List.tl f)))) k tr1)).
  { unfold Delete. run_repo. rewrite H1. run_repo. rewrite H2. run_repo.
    rewrite H3. run_repo. rewrite H4. eexists. reflexivity. }
  destruct HD as [tr1 HD].
  eexists. eexists. split; [exact HD|]. cbn [committed].
  unfold Find. run_repo. rewrite H5. run_repo.
  unfold c1. rewrite (repoSelectByID_repoDelete id id' c Hne).
  destruct (first_row (repoSelectByID id' c)) as [r|e] eqn:E; [reflexivity|].
  rewrite (first_row_error _ _ E). reflexivity.
Qed.

Lemma Repo_Delete_keeps_others_witness :
  exists (st1 st2 : St),
    Delete 8 Samples.acme_store = (None, st1) /\
    Find 7 st1 = ((Some (with_Path "acme/repo1" Samples.repo1), None), st2).
Proof.
  apply (Repo_Delete_keeps_others 8 7 Samples.acme_store);
    [lia | apply Forall_nil_2].
Defined.

Lemma no_fault_pred (n : nat) (st : St) : no_fault (S n) st -> no_fault n st.
Proof.
  unfold no_fault. generalize (faults st). intros l. revert l.
  induction n as [|n IH]; intros [|a l] H; simpl in *; try constructor;
    inversion H; subst; auto.
Qed.

Lemma next_id_above (ids : list Z) (x : Z) : In x ids -> x < next_id ids.
Proof.
  unfold next_id. induction ids as [|a ids IH]; simpl; [tauto|].
  intros [->|H]; [lia|]. specialize (IH H). lia.
Qed.

Lemma filter_none {A} (f : A -> bool) (l : list A) :
  (forall x, In x l -> f x = false) -> List.filter f l = [].
Proof.
  intros H. induction l as [|a l IH]; simpl; [reflexivity|].
  rewrite (H a) by (left; reflexivity). apply IH. intros x Hx. apply H. right. exact Hx.
Qed.

Lemma flat_map_none {A B} (f : A -> list B) (l : list A) :
  (forall x, In x l -> f x = []) -> flat_map f l = [].
Proof.
  intros H. induction l as [|a l IH]; simpl; [reflexivity|].
  rewrite (H a) by (left; reflexivity). apply IH. intros x Hx. apply H. right. exact Hx.
Qed.

(** The select by key on the tables that a successful [Create] leaves:
    one row, the new repository with its new primary path. *)
Lemma repoSelectByID_created (c : DB) (x : Repository) (p : PathRow) :
  ID x = next_id (map ID (repositories c)) ->
  no_path_of (ID x) c ->
  primary_of x p = true ->
  repoSelectByID (ID x) (mkDB (repositories c ++ [x]) (paths c ++ [p])) =
    [with_Path (Value p) x].
Proof.
  intros Hid Horphan Hprim. unfold repoSelectByID, join_primary.
  cbn [repositories paths]. rewrite List.filter_app.
  rewrite (filter_none (fun r => ID r =? ID x) (repositories c)).
  2: { intros r Hr. apply Z.eqb_neq. rewrite Hid.
       pose proof (next_id_above (map ID (repositories c)) (ID r) (in_map ID _ _ Hr)).
       lia. }
  cbn [List.filter app]. rewrite Z.eqb_refl. cbn [flat_map].
  rewrite List.filter_app, (filter_none (primary_of x) (paths c)).
  2: { intros q Hq. unfold primary_of.
       destruct (is_repo (TargetType q)) eqn:E.
       - rewrite (proj2 (Z.eqb_neq _ _) (Horphan q Hq E)). reflexivity.
       - rewrite andb_false_r. reflexivity. }
  cbn [List.filter app]. rewrite Hprim. reflexivity.
Qed.

(** X17.  A repository that [Create] has stored is what [Find] returns
    for its new key and what [FindByPath] returns for its path: the
    struct handed back by [Create], with the key and the path (the
    parent space's path, a slash, the name) filled in and every other
    value as given.  The key is new; no path row may be left over that
    names this key as its target. *)
Theorem Repo_Create_then_Find
        (pathTransformation : string -> string + error) (pathValid : string -> bool)
        (repo : Repository) (st : St) (parentPath : PathRow) (u : string) :
  no_fault 7 st ->
  selectPrimaryPath PathTargetTypeSpace (ParentID repo) (committed st) = inl parentPath ->
  pathValid (Concatinate (Value parentPath) (UID repo)) = true ->
  pathTransformation (Concatinate (Value parentPath) (UID repo)) = inl u ->
  (forall q, In q (paths (committed st)) -> ValueUnique q <> u) ->
  no_path_of (next_id (map ID (repositories (committed st)))) (committed st) ->
  exists (repo' : Repository) (st1 st2 st3 : St),
    Create pathTransformation pathValid repo st = ((repo', None), st1) /\
    repo' = with_Path (Concatinate (Value parentPath) (UID repo))
              (with_ID (next_id (map ID (repositories (committed st)))) repo) /\
    Find (ID repo') st1 = ((Some repo', None), st2) /\
    FindByPath pathTransformation (Path repo') st1 = ((Some repo', None), st3).
Proof.
  intros Hq Hparent Hvalid Hu Hfree Horphan.
  set (value := Concatinate (Value parentPath) (UID repo)) in *.
  set (id := next_id (map ID (repositories (committed st)))) in *.
  assert (Hex : existsb (fun q => String.eqb (ValueUnique q) u)
                        (paths (committed st)) = false).
  { destruct (existsb _ _) eqn:E; [|reflexivity].
    apply existsb_exists in E as (q & Hin & Heq). apply String.eqb_eq in Heq.
    exfalso. exact (Hfree q Hin Heq). }
  assert (Hq6 : no_fault 6 st).
  { apply no_fault_pred. exact Hq. }
  destruct (RepoFacts.Create_success pathTransformation pathValid repo st parentPath u
              Hq6 Hparent Hvalid Hu Hex) as (st1 & HC & Hc1 & Hf1).
  fold value in HC, Hc1. fold id in HC, Hc1.
  set (x0 := with_Path "" (with_ID id repo)) in *.
  set (p0 := mkPath (next_id (map PathID (paths (committed st)))) PathTargetTypeRepo id
                    false value u (CreatedBy repo) (Created repo) (Updated repo)) in *.
  assert (H7 : List.hd None (faults st1) = None).
  { rewrite Hf1. destruct st as [c t f k tr]. cbn [faults Nat.iter].
    do 6 (apply RepoFacts.no_fault_S in Hq as [_ Hq]).
    apply RepoFacts.no_fault_S in Hq as [H _]. exact H. }
  assert (Hsel : repoSelectByID id (committed st1) = [with_Path value (with_ID id repo)]).
  { rewrite Hc1.
    assert (Hprim : primary_of x0 p0 = true).
    { unfold primary_of, x0, p0; cbn. rewrite Z.eqb_refl. reflexivity. }
    exact (repoSelectByID_created (committed st) x0 p0 eq_refl Horphan Hprim). }
  exists (with_Path value (with_ID id repo)), st1.
  destruct st1 as [c1 t1 f1 k1 tr1]. cbn [committed faults] in *.
  eexists. eexists. split; [exact HC|]. split; [reflexivity|].
  cbn [ID Path with_Path with_ID]. split.
  - unfold Find. run_repo. rewrite H7. run_repo. rewrite Hsel. reflexivity.
  - unfold FindByPath. rewrite Hu. run_repo. rewrite H7. run_repo.
    replace (repoSelectByPathUnique u c1) with [with_Path value (with_ID id repo)];
      [reflexivity|].
    symmetry. unfold repoSelectByPathUnique. rewrite Hc1 at 1. cbn [paths].
    rewrite flat_map_app. rewrite flat_map_none.
    2: { intros q Hin. rewrite (proj2 (String.eqb_neq _ _) (Hfree q Hin)).
         rewrite andb_false_r. reflexivity. }
    cbn [flat_map app p0 TargetType ValueUnique TargetID is_repo andb].
    rewrite String.eqb_refl. rewrite app_nil_r.
    exact Hsel.
Qed.

Lemma Repo_Create_then_Find_witness :
  exists (repo' : Repository) (st1 st2 st3 : St),
    Create Samples.keep (fun _ => true) CrudSamples.repo2 Samples.acme_store =
      ((repo', None), st1) /\
    repo' = with_Path "acme/repo2" (with_ID 8 CrudSamples.repo2) /\
    Find (ID repo') st1 = ((Some repo', None), st2) /\
    FindByPath Samples.keep (Path repo') st1 = ((Some repo', None), st3).
Proof.
  apply (Repo_Create_then_Find Samples.keep (fun _ => true) CrudSamples.repo2
           Samples.acme_store Samples.acme_path "acme/repo2").
  - apply Forall_nil_2.
  - reflexivity.
  - reflexivity.
  - reflexivity.
  - intros q [<-|[<-|[]]]; discriminate.
  - intros q [<-|[<-|[]]] H; [discriminate H|].
    vm_compute. intros E. discriminate E.
Defined.

(** X18.  [Create] for a repository whose parent space has no primary
    path fails with the not-found error, wrapped, and commits nothing:
    the row that was inserted is rolled back.  The caller's struct
    keeps the key of that row all the same. *)
Theorem Repo_Create_without_parent
        (pathTransformation : string -> string + error) (pathValid : string -> bool)
        (repo : Repository) (st : St) :
  no_fault 4 st ->
  selectPrimaryPath PathTargetTypeSpace (ParentID repo) (committed st) = inr ErrNoRows ->
  exists (err : error) (st' : St),
    Create pathTransformation pathValid repo st =
      ((with_ID (next_id (map ID (repositories (committed st)))) repo, Some err), st') /\
    errors_Is err ErrResourceNotFound = true /\
    committed st' = committed st /\
    tx st' = None.
Proof.
  intros Hq Hparent.
  destruct st as [c t f k tr]. cbn [committed] in *.
  apply RepoFacts.no_fault_S in Hq as [H1 Hq]. apply RepoFacts.no_fault_S in Hq as [H2 Hq].
  apply RepoFacts.no_fault_S in Hq as [H3 Hq]. apply RepoFacts.no_fault_S in Hq as [H4 _].
  cbn [faults List.tl] in H2, H3, H4.
  unfold Create, CreatePathTx. run_repo.
  rewrite H1. run_repo. rewrite H2. run_repo. rewrite H3. run_repo.
  unfold repoInsert. cbn [fst snd committed tx faults clock trace].
  run_repo. rewrite H4. run_repo.
  match goal with
  | |- context [selectPrimaryPath ?a ?b (mkDB ?r ?p)] =>
      rewrite (RepoFacts.selectPrimaryPath_paths a b (mkDB r p) c eq_refl)
  end.
  cbn [ParentID with_ID]. rewrite Hparent. run_repo.
  eexists. eexists. split; [reflexivity|]. repeat split.
Qed.

Lemma Repo_Create_without_parent_witness :
  exists (err : error) (st' : St),
    Create Samples.keep (fun _ => true) CrudSamples.stray Samples.acme_store =
      ((with_ID 8 CrudSamples.stray, Some err), st') /\
    errors_Is err ErrResourceNotFound = true /\
    committed st' = committed Samples.acme_store.
Proof.
  destruct (Repo_Create_without_parent Samples.keep (fun _ => true) CrudSamples.stray
              Samples.acme_store (Forall_nil_2 _) eq_refl)
    as (err & st' & H & He & Hc & _).
  exists err, st'. repeat split; assumption.
Defined.

(** X19.  [Move] commits all of its changes or none, whatever
    [ReplacePathTx] does inside the transaction: when [Move] returns an
    error, no repository is returned and the committed tables are as
    before; when it returns nil, a repository is returned. *)
Theorem Move_atomic
        (ReplacePathTx : PathRow -> bool -> R (option error))
        (principalID repoID newParentID : Z) (newName : string)
        (keepAsAlias : bool) (st : St) :
  inside_tx ReplacePathTx ->
  match Move ReplacePathTx principalID repoID newParentID newName keepAsAlias st with
  | ((r, Some _), st') => r = None /\ committed st' = committed st
  | ((r, None), st') => r <> None
  end.
Proof.
  intros Hinside.
  destruct st as [c t f k tr]. unfold Move. run_repo.
  destruct (List.hd None f); run_repo; [split; reflexivity|].
  destruct (List.hd None (List.tl f)); run_repo; [split; reflexivity|].
  destruct (selectPrimaryPath PathTargetTypeRepo repoID c); run_repo;
    [|split; reflexivity].
  destruct (List.hd None (List.tl (List.tl f))); run_repo; [split; reflexivity|].
  destruct (selectPrimaryPath PathTargetTypeSpace newParentID c); run_repo;
    [|split; reflexivity].
  destruct (String.eqb _ _); run_repo; [split; reflexivity|].
  match goal with
  | |- context [ReplacePathTx ?p ?b ?s] =>
      pose proof (Hinside p b s) as Hc;
      destruct (ReplacePathTx p b s) as [e [c' t' f' k' tr']]
  end.
  cbn [snd committed] in Hc. subst c'.
  destruct e; run_repo.
  { destruct t'; run_repo; split; reflexivity. }
  destruct t' as [d|]; run_repo; [|split; reflexivity].
  destruct (List.hd None f'); run_repo; [split; reflexivity|].
  unfold repoUpdateUIDAndParentID. cbn [fst snd]. run_repo.
  destruct (List.hd None (List.tl f')); run_repo; [split; reflexivity|].
  destruct (first_row _); run_repo; [|split; reflexivity].
  destruct (List.hd None (List.tl (List.tl f'))); run_repo; [split; reflexivity|].
  discriminate.
Qed.

Lemma Move_atomic_witness :
  match Move Samples.no_replace 1 7 11 "repo1" false Samples.acme_store with
  | ((r, Some _), st') => r = None /\ committed st' = committed Samples.acme_store
  | ((r, None), st') => r <> None
  end.
Proof.
  exact (Move_atomic Samples.no_replace 1 7 11 "repo1" false Samples.acme_store
           (fun _ _ _ => eq_refl)).
Defined.

Lemma repoSelectByID_renamed (uid : string) (parent id : Z) (d : DB)
      (x : Repository) :
  In x (repoSelectByID id (snd (repoUpdateUIDAndParentID uid parent id d))) ->
  ID x = id /\ UID x = uid /\ ParentID x = parent.
Proof.
  intros Hx. split; [exact (repoSelectByID_key _ _ _ Hx)|].
  unfold repoSelectByID, repoUpdateUIDAndParentID in Hx. cbn [snd repositories] in Hx.
  apply join_primary_In in Hx as (r & p & Hr & _ & _ & ->).
  apply List.filter_In in Hr as [Hr Hid].
  apply in_map_iff in Hr as (r0 & <- & _).
  destruct (ID r0 =? id) eqn:E; [split; reflexivity|].
  rewrite E in Hid. discriminate.
Qed.

(** X20.  The repository that a successful [Move] returns carries the
    key that was asked for, the new name and the new parent, and it is
    what is committed: a [Find] for the key afterwards returns the same
    struct.  This holds whatever [ReplacePathTx] does. *)
Theorem Move_then_Find
        (ReplacePathTx : PathRow -> bool -> R (option error))
        (principalID repoID newParentID : Z) (newName : string)
        (keepAsAlias : bool) (st st' : St) (dst : Repository) :
  Move ReplacePathTx principalID repoID newParentID newName keepAsAlias st =
    ((Some dst, None), st') ->
  List.hd None (faults st') = None ->
  ID dst = repoID /\ UID dst = newName /\ ParentID dst = newParentID /\
  exists st2, Find repoID st' = ((Some dst, None), st2).
Proof.
  destruct st as [c t f k tr]. unfold Move. run_repo.
  destruct (List.hd None f); run_repo; [discriminate|].
  destruct (List.hd None (List.tl f)); run_repo; [discriminate|].
  destruct (selectPrimaryPath PathTargetTypeRepo repoID c); run_repo; [|discriminate].
  destruct (List.hd None (List.tl (List.tl f))); run_repo; [discriminate|].
  destruct (selectPrimaryPath PathTargetTypeSpace newParentID c); run_repo;
    [|discriminate].
  destruct (String.eqb _ _); run_repo; [discriminate|].
  match goal with
  | |- context [ReplacePathTx ?p ?b ?s] =>
      destruct (ReplacePathTx p b s) as [e [c' t' f' k' tr']]
  end.
  destruct e; run_repo.
  { destruct t'; run_repo; discriminate. }
  destruct t' as [d|]; run_repo; [|discriminate].
  destruct (List.hd None f'); run_repo; [discriminate|].
  unfold repoUpdateUIDAndParentID. cbn [fst snd]. run_repo.
  destruct (List.hd None (List.tl f')); run_repo; [discriminate|].
  destruct (first_row _) as [r|] eqn:E; run_repo; [|discriminate].
  destruct (List.hd None (List.tl (List.tl f'))); run_repo; [discriminate|].
  intros H Hnext. injection H as <- <-. cbn [faults] in Hnext.
  destruct (repoSelectByID_renamed newName newParentID repoID d r (first_row_In _ _ E))
    as (Hid & Huid & Hparent).
  split; [exact Hid|]. split; [exact Huid|]. split; [exact Hparent|].
  unfold Find. run_repo. rewrite Hnext. run_repo.
  rewrite E. eexists. reflexivity.
Qed.

Lemma Move_then_Find_witness :
  exists (st2 : St),
    Move Samples.no_replace 1 7 10 "repo2" false Samples.acme_store =
      ((Some CrudSamples.repo1_renamed, None), CrudSamples.renamed_store) /\
    UID CrudSamples.repo1_renamed = "repo2" /\
    Find 7 CrudSamples.renamed_store = ((Some CrudSamples.repo1_renamed, None), st2).
Proof.
  assert (HM : Move Samples.no_replace 1 7 10 "repo2" false Samples.acme_store =
               ((Some CrudSamples.repo1_renamed, None), CrudSamples.renamed_store))
    by (vm_compute; reflexivity).
  destruct (Move_then_Find Samples.no_replace 1 7 10 "repo2" false
              Samples.acme_store CrudSamples.renamed_store
              CrudSamples.repo1_renamed HM eq_refl)
    as (_ & Huid & _ & st2 & HF).
  exists st2. split; [exact HM|]. split; [exact Huid|exact HF].
Defined.

Lemma parse_digits_slash (a b : string) :
  forall n, exists e, Strconv.parse_digits (a ++ "/" ++ b)%string n = inr e.
Proof.
  induction a as [|c a IH]; intros n; simpl.
  - eexists. reflexivity.
  - destruct (Strconv.is_digit c); [|eexists; reflexivity].
    destruct (Strconv.cutoff10 <=? n); [eexists; reflexivity|].
    destruct (_ || _); [eexists; reflexivity|]. apply IH.
Qed.

Lemma ParseInt_slash (a b : string) :
  exists e, Strconv.ParseInt (a ++ "/" ++ b)%string = inr e.
Proof.
  assert (Huint : forall a', exists e,
             Strconv.ParseUint (a' ++ "/" ++ b)%string = inr e).
  { intros a'. destruct (parse_digits_slash a' b 0) as [e He].
    exists e. rewrite <- He. destruct a'; reflexivity. }
  destruct a as [|c0 a'].
  - eexists. reflexivity.
  - change ((String c0 a' ++ "/" ++ b)%string) with (String c0 (a' ++ "/" ++ b)%string).
    unfold Strconv.ParseInt.
    destruct (Ascii.eqb c0 "+" || Ascii.eqb c0 "-") eqn:Esign.
    + destruct (Huint a') as [e He]. rewrite He.
      destruct e; [eexists; reflexivity|].
      destruct (Ascii.eqb c0 "-"); eexists; reflexivity.
    + destruct (Huint (String c0 a')) as [e He].
      change ((String c0 a' ++ "/" ++ b)%string)
        with (String c0 (a' ++ "/" ++ b)%string) in He.
      rewrite He.
      destruct e; [eexists; reflexivity|].
      destruct (Ascii.eqb c0 "-"); eexists; reflexivity.
Qed.

(** X21.  A reference with a slash in it is never taken for a key:
    [FindRepoFromRef] looks it up as a path.  The paths that [Create]
    and [Move] build are of this form (the parent's path, a slash, the
    name), also when name and parent path consist of digits. *)
Theorem FindRepoFromRef_path_with_slash
        (pathTransformation : string -> string + error) (a b : string) (st : St) :
  FindRepoFromRef pathTransformation (Concatinate a b) st =
  FindByPath pathTransformation (Concatinate a b) st.
Proof.
  unfold FindRepoFromRef, Concatinate.
  destruct (ParseInt_slash a b) as [e He]. rewrite He. reflexivity.
Qed.

End RepoCrudFacts.

(** ** The branch adapter and the order of listings: edge cases *)

Module EdgeFacts.
Import Errors GoStrings Enum Adapter.

(** X22.  [HasBranches] never answers [true] together with an error.
    It returns an error exactly when the path of the repository is
    empty or the command fails; for the empty path the error is
    [ErrRepositoryPathEmpty] and the command is not run: the answer is
    the same for every git. *)
Theorem HasBranches_errors
        (tf tr : string -> string)
        (RunStdBytes : list string -> string -> string * string * option string)
        (processGiteaErrorf : string -> string -> error)
        (repoPath : string) :
  let r := HasBranches tf tr RunStdBytes processGiteaErrorf repoPath in
  (snd r <> None -> fst r = false) /\
  (snd r = None <->
   repoPath <> "" /\ snd (RunStdBytes rev_list_args repoPath) = None) /\
  (repoPath = "" ->
   forall git, HasBranches tf tr git processGiteaErrorf repoPath =
               (false, Some ErrRepositoryPathEmpty)).
Proof.
  unfold HasBranches.
  destruct (String.eqb_spec repoPath "") as [->|Hne]; cbn zeta.
  - cbn [fst snd]. split; [reflexivity|]. split; [|reflexivity].
    split; [discriminate|]. intros [H _]. contradiction.
  - destruct (RunStdBytes rev_list_args repoPath) as [[stdout stderr] [e|]];
      cbn [fst snd].
    + split; [reflexivity|]. split; [|contradiction].
      split; [discriminate|]. intros [_ H]. discriminate.
    + split; [intros H; contradiction|]. split; [|contradiction].
      split; [intros _; split; [exact Hne|reflexivity]|reflexivity].
Qed.

(** X23.  The direction that a listing is sorted in, from the text of
    the request to the text put into the query: [String] of a parsed
    order is "desc" when the text is "desc" or "descending" in any
    letter case, and "asc" for every other text, unknown and empty ones
    included.  [String] of any value of the type is one of the two
    words. *)
Theorem Order_String_of_ParseOrder (unicode_Map_ToLower : string -> string) :
  (forall s : string,
      let l := ToLower unicode_Map_ToLower s in
      Order_String (ParseOrder unicode_Map_ToLower s) =
        if String.eqb l "desc" || String.eqb l "descending" then "desc" else "asc") /\
  (forall e : Order, Order_String e = "asc" \/ Order_String e = "desc") /\
  (forall e : Order,
      Order_String (ParseOrder unicode_Map_ToLower (Order_String e)) = Order_String e).
Proof.
  split; [|split].
  - intros s l. unfold ParseOrder. fold l.
    destruct (String.eqb_spec l "asc") as [->|_]; [reflexivity|].
    destruct (String.eqb_spec l "ascending") as [->|_]; [reflexivity|].
    cbn [orb].
    destruct (String.eqb l "desc" || String.eqb l "descending"); reflexivity.
  - intros e. unfold Order_String. destruct (e =? OrderDesc); auto.
  - intros e. unfold Order_String. destruct (e =? OrderDesc); reflexivity.
Qed.

End EdgeFacts.
